(** * nasu_test: client-side behaviour of the marketing site

    A shallow embedding of the video loader (the readiness gate of the
    hero video), of the header scroll handler and of the number counter
    animation of [js/scroll-animations.js], with the properties the
    specification states about them; and of the rest of the page's
    behaviour in the same file (scroll animations, pricing tabs, form
    validation, external links, mobile menu, navigation links), with
    properties read off the code.

    Conventions of the embedding:
    - a DOM [classList] is a finite set of class tokens ([gset string]);
    - wall-clock time and timer delays are integers ([Z], milliseconds);
    - a Number that the script computes with is an IEEE 754 binary64
      value ([spec_float], rounding to nearest, ties to even);
    - a function that can throw returns an outcome: the state it left,
      and whether it returned or threw;
    - the browser's timer table is a list of pending timers in the order
      [setTimeout] created them, each callback named by a constructor;
    - module-level [let] variables of the source are fields of a state
      record that every function takes and returns. *)

From stdpp Require Import base gmap sets list strings.
From Stdlib Require Import ZArith QArith Qround Lia DecimalString.
From Stdlib Require Import Floats.SpecFloat.

Local Open Scope Z_scope.

(** ** DOMTokenList, as much of it as the scripts use *)

Module ClassList.

Definition add (token : string) (cl : gset string) : gset string :=
  cl ∪ {[token]}.

Definition remove (token : string) (cl : gset string) : gset string :=
  cl ∖ {[token]}.

Definition contains (token : string) (cl : gset string) : bool :=
  bool_decide (token ∈ cl).

End ClassList.

(** ** Header scroll behaviour ([initHeaderScroll], scroll-animations.js) *)

Module HeaderScroll.

(** The header element's class list together with the closure variable
    [lastScroll] of the scroll listener. *)
Record Header := mkHeader {
  classList : gset string;
  lastScroll : Z
}.

Definition scrollThreshold : Z := 100.

(** [initHeaderScroll] proper: the listener starts with [lastScroll = 0]
    on whatever classes the page gave the header. *)
Definition initHeaderScroll (classes : gset string) : Header :=
  mkHeader classes 0.

(** The body of the scroll listener; [currentScroll] is
    [window.pageYOffset] at the time of the event, in whole pixels (the
    listener only compares it). *)
Definition onScroll (currentScroll : Z) (h : Header) : Header :=
  let cl1 :=
    if 50 <? currentScroll
    then ClassList.add "scrolled" (classList h)
    else ClassList.remove "scrolled" (classList h) in
  let cl2 :=
    if scrollThreshold <? currentScroll then
      if (lastScroll h <? currentScroll)
           && negb (ClassList.contains "scroll-down" cl1)
      then ClassList.remove "scroll-up" (ClassList.add "scroll-down" cl1)
      else if (currentScroll <? lastScroll h)
                && ClassList.contains "scroll-down" cl1
      then ClassList.remove "scroll-down" (ClassList.add "scroll-up" cl1)
      else cl1
    else cl1 in
  mkHeader cl2 currentScroll.

(** A sequence of scroll events, oldest first. *)
Definition scrolls (events : list Z) (h : Header) : Header :=
  foldl (fun acc y => onScroll y acc) h events.

(** The two direction classes are not both present. *)
Definition exclusive (cl : gset string) : Prop :=
  ¬ ("scroll-down" ∈ cl ∧ "scroll-up" ∈ cl).

End HeaderScroll.

(** ** Number counter animation ([animateCounter], scroll-animations.js) *)

Module Counter.

(** A JavaScript string is a sequence of UTF-16 code units. *)
Definition jsstring : Type := list N.

(** Code units that [String.prototype.trim] strips: ECMAScript WhiteSpace
    and LineTerminator (TAB, LF, VT, FF, CR, SP, NBSP, U+1680,
    U+2000..U+200A, U+2028, U+2029, U+202F, U+205F, U+3000, U+FEFF). *)
Definition isWhiteSpace (c : N) : bool :=
  ((9 <=? c) && (c <=? 13) || (c =? 32) || (c =? 160) || (c =? 5760)
   || (8192 <=? c) && (c <=? 8202) || (c =? 8232) || (c =? 8233)
   || (c =? 8239) || (c =? 8287) || (c =? 12288) || (c =? 65279))%N.

Fixpoint trimStart (s : jsstring) : jsstring :=
  match s with
  | c :: s' => if isWhiteSpace c then trimStart s' else s
  | [] => []
  end.

Definition trimEnd (s : jsstring) : jsstring := rev (trimStart (rev s)).

Definition trim (s : jsstring) : jsstring := trimEnd (trimStart s).

(** The character class [[0-9]]. *)
Definition isDigit (c : N) : bool := ((48 <=? c) && (c <=? 57))%N.

(** [s.replace(/[^0-9]/g, '')] *)
Definition stripNonDigits (s : jsstring) : jsstring := filter (λ c, Is_true (isDigit c)) s.

(** Whether some code unit of [s] is a digit. *)
Definition hasDigit (s : jsstring) : bool := existsb isDigit s.

(** [s.includes('+')] *)
Definition includesPlus (s : jsstring) : bool := existsb (N.eqb 43) s.

Fixpoint leadingDigits (s : jsstring) : jsstring :=
  match s with
  | c :: s' => if isDigit c then c :: leadingDigits s' else []
  | [] => []
  end.

Definition decimalValue (ds : jsstring) : N :=
  foldl (λ acc c, 10 * acc + (c - 48))%N 0%N ds.

(** *** Numbers

    A Number of the source language is an IEEE 754 binary64 value; its
    arithmetic rounds to the nearest value, ties to even. *)
Definition Number : Type := spec_float.

Definition prec : Z := 53.
Definition emax : Z := 1024.

(** The Number nearest to an integer: the integer itself up to 2^53, an
    infinity beyond the range. *)
Definition ofZ (z : Z) : Number := binary_normalize prec emax z 0 false.

Definition ofN (n : N) : Number := ofZ (Z.of_N n).

(** [x + y], [x / y], [x >= y], [isNaN(x)] *)
Definition add (x y : Number) : Number := SFadd prec emax x y.

Definition div (x y : Number) : Number := SFdiv prec emax x y.

Definition ge (x y : Number) : bool := SFleb y x.

Definition isNaN (x : Number) : bool :=
  match x with
  | S754_nan => true
  | _ => false
  end.

(** [Math.floor(x)] *)
Definition floor (x : Number) : Number :=
  match x with
  | S754_finite s m e =>
      if 0 <=? e then x
      else
        let q := Z.pos m / 2 ^ (- e) in
        if s
        then ofZ (- (if Z.pos m mod 2 ^ (- e) =? 0 then q else q + 1))
        else ofZ q
  | _ => x
  end.

(** [parseInt(s)] without a radix, on the strings it is given here (the
    output of [stripNonDigits], so no blanks, sign or [0x] prefix can
    come first): the Number nearest to the decimal value of the leading
    digits, NaN when there is none.  (Engines round the exact value; the
    standard would also let them read zeros for the digits after the
    twentieth.) *)
Definition parseInt (s : jsstring) : Number :=
  match leadingDigits s with
  | [] => S754_nan
  | ds => ofN (decimalValue ds)
  end.

(** The closure of the [setInterval] callback. *)
Record Interval := mkInterval {
  target : jsstring;
  targetNumber : Number;
  increment : Number;
  current : Number
}.

(** The element and the interval that animates it ([None]: no interval
    was created, or [clearInterval] was called). *)
Record Element := mkElement {
  textContent : jsstring;
  timer : option Interval
}.

Definition duration : Number := ofN 2000.

Section Locale.

(** [Number.prototype.toLocaleString] depends on the user's locale. *)
Variable toLocaleString : Number → jsstring.

Definition animateCounter (element : Element) : Element :=
  let target := trim (textContent element) in
  let isNumber := negb (isNaN (parseInt (stripNonDigits target))) in
  if negb isNumber then element
  else
    let targetNumber := parseInt (stripNonDigits target) in
    let increment := div targetNumber (div duration (ofN 16)) in
    mkElement (textContent element)
              (Some (mkInterval target targetNumber increment (ofN 0))).

(** One run of the interval callback (every 16 ms while the interval
    lives). *)
Definition tick (element : Element) : Element :=
  match timer element with
  | None => element
  | Some iv =>
      let current := add (current iv) (increment iv) in
      if ge current (targetNumber iv)
      then mkElement (target iv) None
      else mkElement
             (toLocaleString (floor current)
                ++ (if includesPlus (target iv) then [43%N] else []))
             (Some (mkInterval (target iv) (targetNumber iv)
                               (increment iv) current))
  end.

Definition ticks (n : nat) (element : Element) : Element :=
  Nat.iter n tick element.

End Locale.

(** Plain decimal digits. *)
Definition plainDigits (z : Z) : jsstring :=
  map (λ a : Ascii.ascii, Ascii.N_of_ascii a)
      (Stdlib.Strings.String.list_ascii_of_string (NilEmpty.string_of_int (Z.to_int z))).

(** A rendering without grouping, for the whole Numbers that
    [Math.floor] hands to [toLocaleString]: their decimal digits. *)
Definition plainNumber (x : Number) : jsstring :=
  match floor x with
  | S754_zero _ => plainDigits 0
  | S754_finite s m e =>
      (if s then [45%N] else [])
        ++ plainDigits (if 0 <=? e then Z.pos m * 2 ^ e else Z.pos m / 2 ^ (- e))
  | S754_infinity s => (if s then [45%N] else []) ++ [8734%N]
  | S754_nan => [78; 97; 78]%N
  end.

End Counter.

(** ** Video loader: the readiness gate of the hero video *)

Module VideoLoader.

Record Config := mkConfig {
  FALLBACK_TIMEOUT : Z;
  MIN_DISPLAY_TIME : Z;
  DEBUG : bool
}.

Definition CONFIG : Config := mkConfig 5000 1500 false.

(** The four arrow functions the script hands to [setTimeout]. *)
Inductive Callback :=
| RevealCallback            (* in handleVideoReady *)
| SettleCallback            (* in brightenAndFadeOut *)
| FallbackTimeoutCallback   (* in setupFallbackTimeout *)
| FallbackMethodCallback.   (* in useFallbackMethod *)

(** A pending timer: the id [setTimeout] returned (a positive integer,
    hence truthy), the time it is due and its callback. *)
Record Timer := mkTimer {
  timerId : positive;
  due : Z;
  callback : Callback
}.

Inductive Player := VimeoPlayerHandle.

(** Events the player emits, and the names [player.on] subscribes to. *)
Inductive PlayerEvent :=
| Play
| BufferEnd
| TimeUpdate (seconds : Q)
| PlayerError.

Inductive EventName := OnPlay | OnBufferEnd | OnTimeUpdate | OnError.

(** What the gate did to the page, kept with its time as a record of the
    run; the script itself never reads it. *)
Inductive Action :=
| Revealed            (* brightenAndFadeOut ran *)
| Settled             (* the settle callback ran *)
| FallbackCancelled.  (* clearTimeout(fallbackTimer) was called *)

(** The module-level variables of the script, the part of the browser it
    touches (clock, timer table, the container's classes, the player's
    subscriptions, the console) and the record of the run. *)
Record State := mkState {
  now : Z;
  timers : list Timer;
  nextTimerId : positive;
  classList : gset string;
  player : option Player;
  videoLoadStartTime : option Z;
  isVideoReady : bool;
  fallbackTimer : option positive;
  listeners : list EventName;
  readyPending : bool;
  domContentLoadedListener : bool;
  console : list string;
  history : list (Z * Action)
}.

Definition set_now (v : Z) (s : State) : State :=
  mkState v (timers s) (nextTimerId s) (classList s) (player s)
          (videoLoadStartTime s) (isVideoReady s) (fallbackTimer s)
          (listeners s) (readyPending s) (domContentLoadedListener s)
          (console s) (history s).

Definition set_timers (v : list Timer) (s : State) : State :=
  mkState (now s) v (nextTimerId s) (classList s) (player s)
          (videoLoadStartTime s) (isVideoReady s) (fallbackTimer s)
          (listeners s) (readyPending s) (domContentLoadedListener s)
          (console s) (history s).

Definition set_nextTimerId (v : positive) (s : State) : State :=
  mkState (now s) (timers s) v (classList s) (player s)
          (videoLoadStartTime s) (isVideoReady s) (fallbackTimer s)
          (listeners s) (readyPending s) (domContentLoadedListener s)
          (console s) (history s).

Definition set_classList (v : gset string) (s : State) : State :=
  mkState (now s) (timers s) (nextTimerId s) v (player s)
          (videoLoadStartTime s) (isVideoReady s) (fallbackTimer s)
          (listeners s) (readyPending s) (domContentLoadedListener s)
          (console s) (history s).

Definition set_player (v : option Player) (s : State) : State :=
  mkState (now s) (timers s) (nextTimerId s) (classList s) v
          (videoLoadStartTime s) (isVideoReady s) (fallbackTimer s)
          (listeners s) (readyPending s) (domContentLoadedListener s)
          (console s) (history s).

Definition set_videoLoadStartTime (v : option Z) (s : State) : State :=
  mkState (now s) (timers s) (nextTimerId s) (classList s) (player s) v
          (isVideoReady s) (fallbackTimer s) (listeners s) (readyPending s)
          (domContentLoadedListener s) (console s) (history s).

Definition set_isVideoReady (v : bool) (s : State) : State :=
  mkState (now s) (timers s) (nextTimerId s) (classList s) (player s)
          (videoLoadStartTime s) v (fallbackTimer s) (listeners s)
          (readyPending s) (domContentLoadedListener s) (console s)
          (history s).

Definition set_fallbackTimer (v : option positive) (s : State) : State :=
  mkState (now s) (timers s) (nextTimerId s) (classList s) (player s)
          (videoLoadStartTime s) (isVideoReady s) v (listeners s)
          (readyPending s) (domContentLoadedListener s) (console s)
          (history s).

Definition set_listeners (v : list EventName) (s : State) : State :=
  mkState (now s) (timers s) (nextTimerId s) (classList s) (player s)
          (videoLoadStartTime s) (isVideoReady s) (fallbackTimer s) v
          (readyPending s) (domContentLoadedListener s) (console s)
          (history s).

Definition set_readyPending (v : bool) (s : State) : State :=
  mkState (now s) (timers s) (nextTimerId s) (classList s) (player s)
          (videoLoadStartTime s) (isVideoReady s) (fallbackTimer s)
          (listeners s) v (domContentLoadedListener s) (console s)
          (history s).

Definition set_domContentLoadedListener (v : bool) (s : State) : State :=
  mkState (now s) (timers s) (nextTimerId s) (classList s) (player s)
          (videoLoadStartTime s) (isVideoReady s) (fallbackTimer s)
          (listeners s) (readyPending s) v (console s) (history s).

Definition set_console (v : list string) (s : State) : State :=
  mkState (now s) (timers s) (nextTimerId s) (classList s) (player s)
          (videoLoadStartTime s) (isVideoReady s) (fallbackTimer s)
          (listeners s) (readyPending s) (domContentLoadedListener s) v
          (history s).

Definition set_history (v : list (Z * Action)) (s : State) : State :=
  mkState (now s) (timers s) (nextTimerId s) (classList s) (player s)
          (videoLoadStartTime s) (isVideoReady s) (fallbackTimer s)
          (listeners s) (readyPending s) (domContentLoadedListener s)
          (console s) v.

(** What the page offers when the script runs. *)
Inductive VimeoGlobal :=
| VimeoUndefined                            (* typeof Vimeo === 'undefined' *)
| VimeoPlayerUndefined                      (* typeof Vimeo.Player === 'undefined' *)
| VimeoLoaded (constructorThrows : bool)
| VimeoNull.                                (* Vimeo === null *)

Record Page := mkPage {
  prefersReducedMotion : bool;
  hasIframe : bool;                 (* .hero__video *)
  hasContainer : bool;              (* .hero__video-container *)
  containerClasses : gset string;
  readyStateLoading : bool;         (* document.readyState === 'loading' *)
  vimeo : VimeoGlobal
}.

(** The result of an expression that may throw. *)
Inductive Completion (A : Type) :=
| Normal (value : A)
| Throw (error : string).
Arguments Normal {A} value.
Arguments Throw {A} error.

Definition newVimeoPlayer (constructorThrows : bool) : Completion Player :=
  if constructorThrows then Throw "TypeError" else Normal VimeoPlayerHandle.

(** How a function of the script completes: it returns, or an exception
    leaves it for its caller; either way the state is as the function
    left it. *)
Inductive Outcome :=
| Returned (s : State)
| Thrown (error : string) (s : State).

Definition stateOf (o : Outcome) : State :=
  match o with
  | Returned s => s
  | Thrown _ s => s
  end.

Definition initialState (page : Page) (t0 : Z) : State :=
  mkState t0 [] 1%positive (containerClasses page) None None false None
          [] false false [] [].

(** *** Browser primitives *)

(** A negative delay counts as 0. *)
Definition setTimeout (cb : Callback) (delay : Z) (s : State)
  : positive * State :=
  let id := nextTimerId s in
  (id,
   set_nextTimerId (Pos.succ id)
     (set_timers (timers s ++ [mkTimer id (now s + Z.max 0 delay) cb]) s)).

Definition clearTimeout (id : positive) (s : State) : State :=
  set_timers (filter (λ tm, timerId tm ≠ id) (timers s)) s.

Definition classList_add (token : string) (s : State) : State :=
  set_classList (ClassList.add token (classList s)) s.

Definition console_log (message : string) (s : State) : State :=
  set_console (console s ++ [message]) s.

Definition record (a : Action) (s : State) : State :=
  set_history (history s ++ [(now s, a)]) s.

(** [null] counts as 0 in [Date.now() - videoLoadStartTime]. *)
Definition toNumber (v : option Z) : Z := default 0 v.

(** *** The script *)

Section Script.

Variable cfg : Config.

Definition handleVideoReady (s : State) : State :=
  if isVideoReady s then s
  else
    let loadTime := now s - toNumber (videoLoadStartTime s) in
    let minDisplayTime := Z.max 0 (MIN_DISPLAY_TIME cfg - loadTime) in
    snd (setTimeout RevealCallback minDisplayTime s).

Definition brightenAndFadeOut (s : State) : State :=
  snd (setTimeout SettleCallback 5500
         (record Revealed (classList_add "video-loaded" s))).

Definition setupFallbackTimeout (s : State) : State :=
  let '(id, s') := setTimeout FallbackTimeoutCallback (FALLBACK_TIMEOUT cfg) s in
  set_fallbackTimer (Some id) s'.

Definition clearFallbackTimeout (s : State) : State :=
  match fallbackTimer s with
  | Some id => set_fallbackTimer None (record FallbackCancelled (clearTimeout id s))
  | None => s
  end.

Definition useFallbackMethod (s : State) : State :=
  snd (setTimeout FallbackMethodCallback 3000 s).

(** The body of each timer callback. *)
Definition runCallback (cb : Callback) (s : State) : State :=
  match cb with
  | RevealCallback =>
      clearFallbackTimeout (brightenAndFadeOut (set_isVideoReady true s))
  | SettleCallback =>
      record Settled (classList_add "video-fully-loaded" s)
  | FallbackTimeoutCallback =>
      if negb (isVideoReady s)
      then handleVideoReady (console_log "Video load timeout, using fallback" s)
      else s
  | FallbackMethodCallback =>
      if negb (isVideoReady s) then handleVideoReady s else s
  end.

(** [setupEventListeners]: the reactions to [player.ready()] wait for
    the promise to settle; the error listener is subscribed at once. *)
Definition setupEventListeners (s : State) : State :=
  set_listeners (listeners s ++ [OnError]) (set_readyPending true s).

(** The [then] reaction of [player.ready()]. *)
Definition onReadyFulfilled (s : State) : State :=
  set_listeners (listeners s ++ [OnPlay; OnBufferEnd; OnTimeUpdate]) s.

(** The [catch] reaction of [player.ready()]. *)
Definition onReadyRejected (s : State) : State :=
  useFallbackMethod (console_log "Player ready error:" s).

(** The listener subscribed under each name, run on an event. *)
Definition runListener (name : EventName) (e : PlayerEvent) (s : State) : State :=
  match name, e with
  | OnPlay, Play => handleVideoReady s
  | OnBufferEnd, BufferEnd => handleVideoReady s
  | OnTimeUpdate, TimeUpdate seconds =>
      if negb (Qle_bool seconds (1 # 2)) && negb (isVideoReady s)
      then handleVideoReady s
      else s
  | OnError, PlayerError =>
      useFallbackMethod (console_log "Vimeo player error:" s)
  | _, _ => s
  end.

Definition emit (e : PlayerEvent) (s : State) : State :=
  foldl (λ acc name, runListener name e acc) s (listeners s).

(** [initVimeoPlayer].  The test of line 37 reads [Vimeo.Player] unless
    [typeof Vimeo] is ['undefined']; on a [Vimeo] that is [null] this
    read throws a TypeError, before the [try] block is entered. *)
Definition initVimeoPlayer (page : Page) (s : State) : Outcome :=
  if negb (hasIframe page) || negb (hasContainer page)
  then Returned (console_log "Video elements not found" s)
  else
    let s := set_videoLoadStartTime (Some (now s)) s in
    match vimeo page with
    | VimeoUndefined | VimeoPlayerUndefined =>
        Returned
          (useFallbackMethod
             (console_log "Vimeo Player API not loaded, using fallback" s))
    | VimeoNull => Thrown "TypeError" s
    | VimeoLoaded constructorThrows =>
        (* try { ... } catch (error) { ... } *)
        match newVimeoPlayer constructorThrows with
        | Normal p =>
            Returned
              (setupFallbackTimeout
                 (setupEventListeners (set_player (Some p) s)))
        | Throw _ =>
            Returned
              (useFallbackMethod
                 (console_log "Failed to initialize Vimeo Player:" s))
        end
    end.

Definition checkUserPreferences (page : Page) (s : State) : bool * State :=
  if prefersReducedMotion page
  then (false,
        if hasContainer page then classList_add "video-loaded" s else s)
  else (true, s).

(** [init]; the visibility listener it also installs only pauses and
    resumes the player and touches nothing of this state.  An exception
    of [initVimeoPlayer] goes on to the caller of [init]. *)
Definition init (page : Page) (s : State) : Outcome :=
  let '(proceed, s) := checkUserPreferences page s in
  if negb proceed then Returned s
  else if readyStateLoading page
       then Returned (set_domContentLoadedListener true s)
       else initVimeoPlayer page s.

(** *** The event loop *)

(** A timer runs: it leaves the table and its callback is called. *)
Definition fire (tm : Timer) (s : State) : State :=
  runCallback (callback tm) (clearTimeout (timerId tm) s).

Inductive Input :=
| Elapse (ms : N)              (* time passes *)
| TimerFires (id : positive)   (* the loop picks timer [id], if it is due *)
| DOMContentLoaded             (* fires once per document *)
| ReadyFulfilled               (* player.ready() resolves *)
| ReadyRejected                (* player.ready() rejects *)
| Emit (e : PlayerEvent).      (* the player emits an event *)

Definition step (page : Page) (i : Input) (s : State) : State :=
  match i with
  | Elapse ms => set_now (now s + Z.of_N ms) s
  | TimerFires id =>
      match find (λ tm, Pos.eqb (timerId tm) id) (timers s) with
      | Some tm => if due tm <=? now s then fire tm s else s
      | None => s
      end
  | DOMContentLoaded =>
      (* an exception of the listener is reported and the loop goes on *)
      if domContentLoadedListener s
      then stateOf (initVimeoPlayer page (set_domContentLoadedListener false s))
      else s
  | ReadyFulfilled =>
      if readyPending s then onReadyFulfilled (set_readyPending false s) else s
  | ReadyRejected =>
      if readyPending s then onReadyRejected (set_readyPending false s) else s
  | Emit e => emit e s
  end.

(** A run of the page: the script is loaded at time [t0], then the
    inputs arrive, oldest first.  When the script ends with an
    exception the page goes on in the state the script left. *)
Definition exec (page : Page) (inputs : list Input) (s : State) : State :=
  foldl (λ acc i, step page i acc) s inputs.

Definition load (page : Page) (t0 : Z) : State :=
  stateOf (init page (initialState page t0)).

(** *** Timers left to themselves *)

(** The timer to run next: the earliest due, the older of two that are
    due together. *)
Fixpoint nextTimer (ts : list Timer) : option Timer :=
  match ts with
  | [] => None
  | tm :: ts' =>
      match nextTimer ts' with
      | Some tm' => if due tm' <? due tm then Some tm' else Some tm
      | None => Some tm
      end
  end.

(** Time passes until the next timer is due, and it runs. *)
Definition runNext (s : State) : State :=
  match nextTimer (timers s) with
  | Some tm => fire tm (set_now (Z.max (now s) (due tm)) s)
  | None => s
  end.

(** How many timers can still run: a fallback callback can arm a reveal,
    a reveal arms a settle, a settle arms nothing. *)
Definition chain (cb : Callback) : nat :=
  match cb with
  | SettleCallback => 1
  | RevealCallback => 2
  | FallbackTimeoutCallback | FallbackMethodCallback => 3
  end.

Definition budget (ts : list Timer) : nat :=
  sum_list_with (λ tm, chain (callback tm)) ts.

(** No further input arrives and every pending timer runs in due order. *)
Definition run (s : State) : State :=
  Nat.iter (budget (timers s)) runNext s.

End Script.

(** *** Predicates on states that the properties are stated with *)

#[global] Instance Callback_eq_dec : EqDecision Callback.
Proof. solve_decision. Defined.

#[global] Instance Action_eq_dec : EqDecision Action.
Proof. solve_decision. Defined.

(** Nothing of the gate exists: no start time, timer, subscription,
    player or record. *)
Definition Idle (s : State) : Prop :=
  videoLoadStartTime s = None ∧ timers s = [] ∧ listeners s = []
  ∧ readyPending s = false ∧ isVideoReady s = false
  ∧ fallbackTimer s = None ∧ player s = None ∧ history s = [].

(** The page of the scenarios: both elements present, motion allowed,
    the document loaded, the Vimeo API loaded and working. *)
Definition heroPage : Page :=
  mkPage false true true ∅ false (VimeoLoaded false).

(** The gate has started, and every reveal, pending or recorded, is at
    least MIN_DISPLAY_TIME after the start. *)
Definition Timed (cfg : Config) (s : State) : Prop :=
  domContentLoadedListener s = false
  ∧ ∃ start,
      videoLoadStartTime s = Some start
      ∧ (∀ tm, tm ∈ timers s → callback tm = RevealCallback →
               start + MIN_DISPLAY_TIME cfg ≤ due tm)
      ∧ (∀ t, (t, Revealed) ∈ history s → start + MIN_DISPLAY_TIME cfg ≤ t).

Definition revealed (s : State) : Prop :=
  "video-loaded" ∈ classList s ∧ ∃ t, (t, Revealed) ∈ history s.

(** The record has a reveal and, later, a settle. *)
Definition settledAfterReveal (h : list (Z * Action)) : Prop :=
  ∃ h1 h2 h3 t1 t2, h = h1 ++ (t1, Revealed) :: h2 ++ (t2, Settled) :: h3.

Definition settled (s : State) : Prop :=
  "video-fully-loaded" ∈ classList s ∧ settledAfterReveal (history s).

Definition settlePending (s : State) : Prop :=
  ∃ tm, tm ∈ timers s ∧ callback tm = SettleCallback.

(** A timer is pending whose callback leads to the reveal. *)
Definition recoveryPending (s : State) : Prop :=
  ∃ tm, tm ∈ timers s ∧ callback tm ≠ SettleCallback.

(** Timer ids are handed out once each. *)
Definition wellFormed (s : State) : Prop :=
  (∀ tm, tm ∈ timers s → (timerId tm < nextTimerId s)%positive)
  ∧ (∀ tm1 tm2, tm1 ∈ timers s → tm2 ∈ timers s →
                timerId tm1 = timerId tm2 → tm1 = tm2)
  ∧ (∀ id, fallbackTimer s = Some id → (id < nextTimerId s)%positive).

Definition Sound (s : State) : Prop :=
  domContentLoadedListener s = false
  ∧ wellFormed s
  ∧ (settlePending s → revealed s)
  ∧ (isVideoReady s = true → revealed s ∧ (settled s ∨ settlePending s)).

(** Until the flag is set something is pending that will set it; once
    it is set the reveal has happened and the settle has or will. *)
Definition Live (s : State) : Prop :=
  Sound s ∧ (isVideoReady s = false → recoveryPending s).

(** How often [clearTimeout(fallbackTimer)] was called. *)
Definition cancellations (h : list (Z * Action)) : nat :=
  sum_list_with (λ e, if decide (e.2 = FallbackCancelled) then 1 else 0)%nat h.

Definition recordedReveals (h : list (Z * Action)) : nat :=
  sum_list_with (λ e, if decide (e.2 = Revealed) then 1 else 0)%nat h.

Definition pendingReveals (ts : list Timer) : nat :=
  sum_list_with
    (λ tm, if decide (callback tm = RevealCallback) then 1 else 0)%nat ts.

(** Reveals that ran or are armed. *)
Definition reveals (s : State) : nat :=
  (recordedReveals (history s) + pendingReveals (timers s))%nat.

(** The fallback timer is armed at most once and released at most
    once. *)
Definition Once (s : State) : Prop :=
  domContentLoadedListener s = false
  ∧ (cancellations (history s)
     + match fallbackTimer s with Some _ => 1 | None => 0 end ≤ 1)%nat.

End VideoLoader.

(** ** Video loader: further notions about runs *)

Module VideoLoaderRuns.
Import VideoLoader.

(** The same page found already loaded when the script runs. *)
Definition pageReady (page : Page) : Page :=
  mkPage (prefersReducedMotion page) (hasIframe page) (hasContainer page)
         (containerClasses page) false (vimeo page).

(** The events that make a subscribed listener call [handleVideoReady]
    while the flag is unset: [play], [bufferend], and [timeupdate] past
    half a second. *)
Definition isReadySignal (e : PlayerEvent) : bool :=
  match e with
  | Play | BufferEnd => true
  | TimeUpdate seconds => negb (Qle_bool seconds (1 # 2))
  | PlayerError => false
  end.

(** The gate started at time [t]. *)
Definition StartedAt (t : Z) (s : State) : Prop :=
  domContentLoadedListener s = false ∧ videoLoadStartTime s = Some t.

Definition recordedSettles (h : list (Z * Action)) : nat :=
  sum_list_with (λ e, if decide (e.2 = Settled) then 1 else 0)%nat h.

Definition pendingSettles (ts : list Timer) : nat :=
  sum_list_with
    (λ tm, if decide (callback tm = SettleCallback) then 1 else 0)%nat ts.

(** [fallbackTimer] never names a timer other than the fallback one. *)
Definition fallbackTimerNamesFallback (s : State) : Prop :=
  ∀ tm, tm ∈ timers s → fallbackTimer s = Some (timerId tm) →
        callback tm = FallbackTimeoutCallback.

(** From [before] to [after] no class is lost and only the two markers
    can be new. *)
Definition gains (before after : gset string) : Prop :=
  (∀ token, token ∈ before → token ∈ after)
  ∧ ∀ token, token ∈ after →
             token ∈ before ∨ token = "video-loaded"
             ∨ token = "video-fully-loaded".

(** Pending timers have distinct ids, all handed out already. *)
Definition distinctIds (s : State) : Prop :=
  (∀ tm, tm ∈ timers s → (timerId tm < nextTimerId s)%positive)
  ∧ NoDup (timerId <$> timers s)
  ∧ (∀ id, fallbackTimer s = Some id → (id < nextTimerId s)%positive).

(** Each reveal that ran has its settle, run or pending. *)
Definition Paired (s : State) : Prop :=
  domContentLoadedListener s = false
  ∧ distinctIds s
  ∧ fallbackTimerNamesFallback s
  ∧ (recordedSettles (history s) + pendingSettles (timers s))%nat
    = recordedReveals (history s).

End VideoLoaderRuns.

(** ** Number counters ([initNumberCounters], scroll-animations.js) *)

Module NumberCounters.

(** A [.trainer__stat-number] element: its classes, and its text with
    the interval that animates it. *)
Record Stat := mkStat {
  classList : gset string;
  element : Counter.Element
}.

(** An IntersectionObserverEntry: the observed element, by its position
    in the NodeList [counters], and whether it intersects. *)
Record Entry := mkEntry {
  target : nat;
  isIntersecting : bool
}.

(** The body of [entries.forEach] in the observer callback. *)
Definition onEntry (entry : Entry) (counters : list Stat) : list Stat :=
  match counters !! target entry with
  | Some stat =>
      if isIntersecting entry
         && negb (ClassList.contains "counted" (classList stat))
      then <[target entry :=
               mkStat (ClassList.add "counted" (classList stat))
                      (Counter.animateCounter (element stat))]> counters
      else counters
  | None => counters
  end.

(** The observer callback. *)
Definition observerCallback (entries : list Entry) (counters : list Stat)
  : list Stat :=
  foldl (λ acc entry, onEntry entry acc) counters entries.

Inductive Event :=
| Observed (entries : list Entry)   (* the observer reports entries *)
| Tick (index : nat).               (* the interval of a counter fires *)

Section Locale.

Variable toLocaleString : Counter.Number → Counter.jsstring.

Definition onTick (index : nat) (counters : list Stat) : list Stat :=
  match counters !! index with
  | Some stat =>
      <[index := mkStat (classList stat)
                        (Counter.tick toLocaleString (element stat))]> counters
  | None => counters
  end.

Definition handle (event : Event) (counters : list Stat) : list Stat :=
  match event with
  | Observed entries => observerCallback entries counters
  | Tick index => onTick index counters
  end.

Definition handleAll (events : list Event) (counters : list Stat) : list Stat :=
  foldl (λ acc event, handle event acc) counters events.

End Locale.

(** How many ticks of counter [index] a run has. *)
Fixpoint ticksOf (index : nat) (events : list Event) : nat :=
  match events with
  | [] => 0
  | Tick i :: events' =>
      ((if Nat.eqb i index then 1 else 0) + ticksOf index events')%nat
  | Observed _ :: events' => ticksOf index events'
  end.

End NumberCounters.

(** ** Mobile menu (navigation script) *)

Module MobileMenu.

(** A value of an inline style property: text as written, or the
    [`${n}px`] the script formats. *)
Inductive StyleValue :=
| Literal (text : string)
| Pixels (n : Z).

(** The part of the document the menu code reads and writes: whether
    [#mobileToggle] and [#nav] exist, their classes, the toggle's ARIA
    attributes, two inline styles of [body], and how many elements have
    the id [menu-overlay]. *)
Record Dom := mkDom {
  hasToggle : bool;
  hasNav : bool;
  navClasses : gset string;
  toggleClasses : gset string;
  ariaLabel : option string;
  ariaExpanded : option string;
  bodyOverflow : StyleValue;
  bodyPaddingRight : StyleValue;
  overlays : nat
}.

Definition createOverlay (d : Dom) : Dom :=
  match overlays d with
  | O => mkDom (hasToggle d) (hasNav d) (navClasses d) (toggleClasses d)
               (ariaLabel d) (ariaExpanded d) (bodyOverflow d)
               (bodyPaddingRight d) 1
  | S _ => d
  end.

Definition removeOverlay (d : Dom) : Dom :=
  mkDom (hasToggle d) (hasNav d) (navClasses d) (toggleClasses d)
        (ariaLabel d) (ariaExpanded d) (bodyOverflow d)
        (bodyPaddingRight d) (Nat.pred (overlays d)).

(** [scrollbarWidth] is [window.innerWidth -
    document.documentElement.clientWidth] at the time of the call. *)
Definition openMobileMenu (scrollbarWidth : Z) (d : Dom) : Dom :=
  if negb (hasNav d) || negb (hasToggle d) then d
  else
    createOverlay
      (mkDom (hasToggle d) (hasNav d)
             (ClassList.add "active" (navClasses d))
             (ClassList.add "active" (toggleClasses d))
             (Some "メニューを閉じる") (Some "true")
             (Literal "hidden")
             (if 0 <? scrollbarWidth then Pixels scrollbarWidth
              else bodyPaddingRight d)
             (overlays d)).

Definition closeMobileMenu (d : Dom) : Dom :=
  if negb (hasNav d) || negb (hasToggle d) then d
  else
    removeOverlay
      (mkDom (hasToggle d) (hasNav d)
             (ClassList.remove "active" (navClasses d))
             (ClassList.remove "active" (toggleClasses d))
             (Some "メニューを開く") (Some "false")
             (Literal "")
             (bodyPaddingRight d)
             (overlays d)).

(** [initMobileMenu] installs its listeners only when both elements
    exist. *)
Definition listening (d : Dom) : bool := hasToggle d && hasNav d.

Definition isOpen (d : Dom) : bool := ClassList.contains "active" (navClasses d).

Inductive Event :=
| ToggleClick (scrollbarWidth : Z)      (* click on #mobileToggle *)
| DocumentClick (inNav inToggle : bool) (* click that reaches document *)
| OverlayClick                          (* click on the script's overlay *)
| KeyDown (key : string)
| Resize (innerWidth : Z)
| AnchorFollowed.                       (* initSmoothScroll found its target *)

Definition onDocumentClick (inNav inToggle : bool) (d : Dom) : Dom :=
  if (isOpen d && negb inNav) && negb inToggle then closeMobileMenu d else d.

Definition handle (event : Event) (d : Dom) : Dom :=
  match event with
  | ToggleClick scrollbarWidth =>
      (* stopPropagation: the document's listener does not see it *)
      if listening d
      then if isOpen d then closeMobileMenu d
           else openMobileMenu scrollbarWidth d
      else d
  | DocumentClick inNav inToggle =>
      if listening d then onDocumentClick inNav inToggle d else d
  | OverlayClick =>
      (* the overlay's own listener, then the document's *)
      match overlays d with
      | O => d
      | S _ =>
          let d := closeMobileMenu d in
          if listening d then onDocumentClick false false d else d
      end
  | KeyDown key =>
      if (listening d && bool_decide (key = "Escape")) && isOpen d
      then closeMobileMenu d else d
  | Resize innerWidth =>
      if (listening d && (1023 <? innerWidth)) && isOpen d
      then closeMobileMenu d else d
  | AnchorFollowed => closeMobileMenu d
  end.

Definition handleAll (events : list Event) (d : Dom) : Dom :=
  foldl (λ acc event, handle event acc) d events.

(** The markers of an open menu go together, and so do those of a
    closed one. *)
Definition Synced (d : Dom) : Prop :=
  match isOpen d with
  | true =>
      ("active" ∈ toggleClasses d) ∧ ariaExpanded d = Some "true"
      ∧ bodyOverflow d = Literal "hidden" ∧ overlays d = 1%nat
  | false =>
      ("active" ∉ toggleClasses d) ∧ ariaExpanded d ≠ Some "true"
      ∧ overlays d = 0%nat
  end.

(** The events after which the menu is closed. *)
Definition closes (event : Event) : bool :=
  match event with
  | ToggleClick _ => false
  | DocumentClick inNav inToggle => negb inNav && negb inToggle
  | OverlayClick => false
  | KeyDown key => bool_decide (key = "Escape")
  | Resize innerWidth => 1023 <? innerWidth
  | AnchorFollowed => true
  end.

End MobileMenu.

(** ** Active navigation link and keyboard navigation (navigation script) *)

Module ActiveNavLink.

(** A [section[id]] element as the scroll listener reads it. *)
Record Section_ := mkSection {
  offsetTop : Z;
  offsetHeight : Z;
  id : string
}.

(** A [.header__nav-link]: its [href] attribute ([None] for null) and
    its classes. *)
Record Link := mkLink {
  href : option string;
  classList : gset string
}.

Definition covers (scrollPosition : Z) (section : Section_) : bool :=
  (offsetTop section <=? scrollPosition)
  && (scrollPosition <? offsetTop section + offsetHeight section).

(** The body of [navLinks.forEach] for one section. *)
Definition highlight (sectionId : string) (link : Link) : Link :=
  let cl := ClassList.remove "active" (classList link) in
  mkLink (href link)
         (if decide (href link = Some ("#" +:+ sectionId))
          then ClassList.add "active" cl
          else cl).

(** The scroll listener of [initActiveNavLink]. *)
Definition onScroll (pageYOffset : Z) (sections : list Section_)
    (navLinks : list Link) : list Link :=
  let scrollPosition := pageYOffset + 150 in
  foldl (λ links section,
           if covers scrollPosition section
           then highlight (id section) <$> links
           else links)
        navLinks sections.

End ActiveNavLink.

Module KeyboardNav.

(** [links[index + 1] || links[0]], as the position of the link that
    gets the focus. *)
Definition nextIndex {A} (links : list A) (index : nat) : nat :=
  match links !! (index + 1)%nat with
  | Some _ => (index + 1)%nat
  | None => 0%nat
  end.

(** [links[index - 1] || links[links.length - 1]]; [links[-1]] is
    undefined. *)
Definition prevIndex {A} (links : list A) (index : nat) : nat :=
  match index with
  | O => (length links - 1)%nat
  | S i =>
      match links !! i with
      | Some _ => i
      | None => (length links - 1)%nat
      end
  end.

(** The keydown listener of the link at [index], which has the focus;
    the result is the position of the focus afterwards. *)
Definition onKeyDown {A} (links : list A) (key : string) (index : nat) : nat :=
  if bool_decide (key = "ArrowRight") || bool_decide (key = "ArrowDown")
  then nextIndex links index
  else if bool_decide (key = "ArrowLeft") || bool_decide (key = "ArrowUp")
       then prevIndex links index
       else index.

End KeyboardNav.

(** ** Pricing tabs (main script) *)

Module PricingTabs.

(** An element of the document, as far as the tabs' listeners go: its
    classes and its [data-tab] attribute ([None] when absent). *)
Record Element := mkElement {
  classList : gset string;
  dataTab : option string
}.

Definition withClasses (f : gset string → gset string) (el : Element) : Element :=
  mkElement (f (classList el)) (dataTab el).

(** The double quote. *)
Definition quote : string := String (Ascii.ascii_of_nat 34) EmptyString.

(** The selector text [`[data-content="${targetTab}"]`]; an absent
    [data-tab] reads as [undefined]. *)
Definition selectorFor (el : Element) : string :=
  "[data-content=" +:+ quote +:+ default "undefined" (dataTab el)
    +:+ quote +:+ "]".

(** [list.forEach(e => e.classList.remove(token))] over the elements
    at the given positions of the document. *)
Definition removeFromAll (token : string) (positions : list nat)
    (doc : list Element) : list Element :=
  foldl (λ acc i, alter (withClasses (ClassList.remove token)) i acc)
        doc positions.

Section Document.

(** The NodeLists [tabs] and [contents], as positions in the document,
    and [document.querySelector]: for a selector text, the position of
    the first element it matches, [None] when there is none or the text
    is no selector (the call then throws, which ends the listener at its
    last statement all the same). *)
Variable tabs : list nat.
Variable contents : list nat.
Variable querySelector : string → option nat.

(** [initPricingTabs] installs its listeners only when there are both
    tabs and contents. *)
Definition installed : bool :=
  match tabs, contents with
  | _ :: _, _ :: _ => true
  | _, _ => false
  end.

(** The click listener of the tab at position [tab]. *)
Definition onClick (tab : nat) (doc : list Element) : list Element :=
  match doc !! tab with
  | None => doc
  | Some el =>
      let doc := removeFromAll "pricing__tab--active" tabs doc in
      let doc := removeFromAll "pricing__content--active" contents doc in
      let doc := alter (withClasses (ClassList.add "pricing__tab--active")) tab doc in
      match querySelector (selectorFor el) with
      | Some target =>
          alter (withClasses (ClassList.add "pricing__content--active")) target doc
      | None => doc
      end
  end.

(** A click on the tab at position [tab] (by the user or by
    [tab.click()]). *)
Definition click (tab : nat) (doc : list Element) : list Element :=
  if installed then onClick tab doc else doc.

(** The keydown listener of the [index]-th tab: the arrows click the
    neighbouring tab, around the ends. *)
Definition onKeyDown (key : string) (index : nat) (doc : list Element)
  : list Element :=
  if bool_decide (key = "ArrowRight")
  then match tabs !! KeyboardNav.nextIndex tabs index with
       | Some nextTab => click nextTab doc
       | None => doc
       end
  else if bool_decide (key = "ArrowLeft")
       then match tabs !! KeyboardNav.prevIndex tabs index with
            | Some prevTab => click prevTab doc
            | None => doc
            end
       else doc.

(** A key pressed on the [index]-th tab. *)
Definition keyDown (key : string) (index : nat) (doc : list Element)
  : list Element :=
  if installed then onKeyDown key index doc else doc.

End Document.

Definition hasClass (token : string) (doc : list Element) (i : nat) : Prop :=
  ∃ el, doc !! i = Some el ∧ token ∈ classList el.

End PricingTabs.

(** ** Form error messages (main script) *)

Module FormErrors.

(** An element sibling that follows an input: its classes, its text and
    the declarations of its inline style. *)
Record Sibling := mkSibling {
  classList : gset string;
  textContent : string;
  style : list (string * string)
}.

(** The declarations [showError] writes to a new message's
    [style.cssText]. *)
Definition errorStyle : list (string * string) :=
  [("display", "block"); ("color", "#D32F2F");
   ("font-size", "12px"); ("margin-top", "4px")].

Definition isErrorMessage (el : Sibling) : bool :=
  ClassList.contains "error-message" el.(classList).

(** [showError(input, message)], on the element siblings that follow the
    input, the nearest first: [input.nextElementSibling] is the head,
    and a node inserted before [input.nextSibling] becomes the head. *)
Definition showError (message : string) (siblings : list Sibling)
  : list Sibling :=
  match siblings with
  | el :: rest =>
      if isErrorMessage el
      then mkSibling (classList el) message (style el) :: rest
      else mkSibling {["error-message"]} message errorStyle :: siblings
  | [] => [mkSibling {["error-message"]} message errorStyle]
  end.

(** [hideError(input)] *)
Definition hideError (siblings : list Sibling) : list Sibling :=
  match siblings with
  | el :: rest => if isErrorMessage el then rest else siblings
  | [] => []
  end.

(** How many error messages follow the input directly. *)
Fixpoint messageRun (siblings : list Sibling) : nat :=
  match siblings with
  | el :: rest => if isErrorMessage el then S (messageRun rest) else O
  | [] => O
  end.

End FormErrors.

(** ** Regular expressions, as much as the form validation uses

    Strings are sequences of UTF-16 code units, as in the source
    language.  The patterns of the script are built from character
    classes, concatenation and [+]; both are anchored at [^] and [$], so
    [test] asks for a match of the whole input. *)

Module RegExp.

Definition CodeUnit := N.

Inductive Pattern :=
| Class (accepts : CodeUnit → bool)
| Seq (p q : Pattern)
| Plus (p : Pattern).

(** [\s]: WhiteSpace and LineTerminator code points. *)
Definition isWhiteSpace (c : CodeUnit) : bool :=
  (((9 <=? c) && (c <=? 13)) || (c =? 32) || (c =? 160) || (c =? 5760)
   || ((8192 <=? c) && (c <=? 8202)) || (c =? 8232) || (c =? 8233)
   || (c =? 8239) || (c =? 8287) || (c =? 12288) || (c =? 65279))%N.

(** [\d] *)
Definition isDigit (c : CodeUnit) : bool := ((48 <=? c) && (c <=? 57))%N.

(** The inputs left over after each round of [step], for at most [fuel]
    rounds. *)
Fixpoint iterate (step : list CodeUnit → list (list CodeUnit))
    (fuel : nat) (starts : list (list CodeUnit)) : list (list CodeUnit) :=
  match fuel with
  | O => []
  | S fuel => let next := starts ≫= step in next ++ iterate step fuel next
  end.

(** What is left of [input] after each way of matching [p] at its
    start.  Every match consumes a code unit, so [Plus] needs no more
    rounds than the input is long. *)
Fixpoint remainders (p : Pattern) (input : list CodeUnit)
  : list (list CodeUnit) :=
  match p with
  | Class accepts =>
      match input with
      | c :: rest => if accepts c then [rest] else []
      | [] => []
      end
  | Seq p q => remainders p input ≫= remainders q
  | Plus p => iterate (remainders p) (length input) [input]
  end.

(** [/^p$/.test(input)] *)
Definition test (p : Pattern) (input : list CodeUnit) : bool :=
  bool_decide ([] ∈ remainders p input).

(** The language of a pattern. *)
Inductive Matches : Pattern → list CodeUnit → Prop :=
| Matches_class accepts c :
    accepts c = true → Matches (Class accepts) [c]
| Matches_seq p q s t :
    Matches p s → Matches q t → Matches (Seq p q) (s ++ t)
| Matches_once p s :
    Matches p s → Matches (Plus p) s
| Matches_more p s t :
    Matches p s → Matches (Plus p) t → Matches (Plus p) (s ++ t).

(** [String.prototype.trim] *)
Fixpoint trimStart (s : list CodeUnit) : list CodeUnit :=
  match s with
  | c :: rest => if isWhiteSpace c then trimStart rest else s
  | [] => []
  end.

Definition trim (s : list CodeUnit) : list CodeUnit :=
  reverse (trimStart (reverse (trimStart s))).

End RegExp.

(** ** Form validation ([initFormValidation], main script) *)

Module FormValidation.
Import RegExp.

(** A required input of a form: its [type], its [value], its classes and
    the element siblings that follow it.  Each input has its siblings to
    itself: the fields of a form sit in containers of their own. *)
Record Input := mkInput {
  type_ : string;
  value : list CodeUnit;
  classList : gset string;
  siblings : list FormErrors.Sibling
}.

Definition atSign : CodeUnit := 64%N.
Definition fullStop : CodeUnit := 46%N.

(** [[^\s@]] *)
Definition addressChar (c : CodeUnit) : bool :=
  negb (isWhiteSpace c || (c =? atSign)%N).

(** [/^[^\s@]+@[^\s@]+\.[^\s@]+$/] *)
Definition emailRegex : Pattern :=
  Seq (Plus (Class addressChar))
      (Seq (Class (N.eqb atSign))
           (Seq (Plus (Class addressChar))
                (Seq (Class (N.eqb fullStop))
                     (Plus (Class addressChar))))).

(** [/^[\d\-+()]+$/] *)
Definition phoneChar (c : CodeUnit) : bool :=
  (isDigit c || (c =? 45) || (c =? 43) || (c =? 40) || (c =? 41))%N.

Definition phoneRegex : Pattern := Plus (Class phoneChar).

Definition requiredMessage : string := "必須項目です".
Definition emailMessage : string := "有効なメールアドレスを入力してください".
Definition phoneMessage : string := "有効な電話番号を入力してください".

(** [input.classList.add('error'); showError(input, message)] *)
Definition markInvalid (message : string) (input : Input) : Input :=
  mkInput (type_ input) (value input)
          (ClassList.add "error" (classList input))
          (FormErrors.showError message (siblings input)).

(** [input.classList.remove('error'); hideError(input)] *)
Definition clearError (input : Input) : Input :=
  mkInput (type_ input) (value input)
          (ClassList.remove "error" (classList input))
          (FormErrors.hideError (siblings input)).

(** A format check of the submit listener: it runs for inputs of the
    given type with a non-empty value. *)
Definition checkFormat (type : string) (regex : Pattern) (message : string)
    (acc : bool * Input) : bool * Input :=
  let '(isValid, input) := acc in
  if String.eqb (type_ input) type && negb (bool_decide (value input = []))
  then if negb (test regex (value input))
       then (false, markInvalid message input)
       else (isValid, input)
  else (isValid, input).

(** The body of [inputs.forEach] in the submit listener; [isValid] is
    the listener's local variable. *)
Definition validateInput (isValid : bool) (input : Input) : bool * Input :=
  let required :=
    if bool_decide (trim (value input) = [])
    then (false, markInvalid requiredMessage input)
    else (isValid, clearError input) in
  checkFormat "tel" phoneRegex phoneMessage
    (checkFormat "email" emailRegex emailMessage required).

(** The submit listener on the form's required inputs: the final
    [isValid] and the inputs as it leaves them. *)
Fixpoint onSubmit (isValid : bool) (inputs : list Input)
  : bool * list Input :=
  match inputs with
  | [] => (isValid, [])
  | input :: rest =>
      let '(isValid, input) := validateInput isValid input in
      let '(isValid, rest) := onSubmit isValid rest in
      (isValid, input :: rest)
  end.

(** The [input] listener of a field. *)
Definition onInput (input : Input) : Input := clearError input.

(** What happens to a form: it is submitted, or the user edits the field
    at an index, which changes its value and fires [input]. *)
Inductive Event :=
| Submit
| Edit (index : nat) (newValue : list CodeUnit).

Definition setValue (newValue : list CodeUnit) (input : Input) : Input :=
  mkInput (type_ input) newValue (classList input) (siblings input).

Definition handle (inputs : list Input) (e : Event) : list Input :=
  match e with
  | Submit => (onSubmit true inputs).2
  | Edit index newValue => alter (λ input, onInput (setValue newValue input)) index inputs
  end.

Definition handleAll (inputs : list Input) (events : list Event) : list Input :=
  foldl handle inputs events.

(** An input is marked consistently when at most one error message
    follows it directly, and it carries the class [error] exactly if one
    does. *)
Definition Marked (input : Input) : Prop :=
  (FormErrors.messageRun (siblings input) ≤ 1)%nat
  ∧ ("error" ∈ classList input
     ↔ FormErrors.messageRun (siblings input) = 1%nat).

(** What the submit listener asks of a required input: a value that is
    not blank and, for the types [email] and [tel], of the right
    format. *)
Definition acceptable (input : Input) : bool :=
  negb (bool_decide (trim (value input) = []))
  && (if String.eqb (type_ input) "email"
      then test emailRegex (value input) else true)
  && (if String.eqb (type_ input) "tel"
      then test phoneRegex (value input) else true).

(** The message the listener leaves next to an input it turns down. *)
Definition complaint (input : Input) : string :=
  if String.eqb (type_ input) "tel" && negb (bool_decide (value input = []))
  then phoneMessage
  else if String.eqb (type_ input) "email"
          && negb (bool_decide (value input = []))
       then emailMessage
       else requiredMessage.

(** The message next to the input, if there is one. *)
Definition shownMessage (input : Input) : option string :=
  match siblings input with
  | el :: _ =>
      if FormErrors.isErrorMessage el
      then Some (FormErrors.textContent el) else None
  | [] => None
  end.

End FormValidation.

(** ** External links ([initExternalLinks], main script) *)

Module ExternalLinks.

(** [haystack.includes(needle)] *)
Fixpoint includes (haystack needle : string) : bool :=
  String.prefix needle haystack
  || match haystack with
     | EmptyString => false
     | String _ rest => includes rest needle
     end.

(** An anchor selected by [a[href^="http"]]: its resolved [href], its
    [target] and [rel] attributes, its classes, and how many descendants
    of class [external-icon] it has. *)
Record Link := mkLink {
  href : string;
  target : option string;
  rel : option string;
  classList : gset string;
  icons : nat
}.

(** The body of [externalLinks.forEach]. *)
Definition markExternal (hostname : string) (link : Link) : Link :=
  if negb (includes (href link) hostname)
  then mkLink (href link) (Some "_blank") (Some "noopener noreferrer")
              (classList link)
              (if (icons link =? 0)%nat
                  && negb (ClassList.contains "btn" (classList link))
               then 1%nat else icons link)
  else link.

Definition initExternalLinks (hostname : string) (links : list Link)
  : list Link :=
  markExternal hostname <$> links.

End ExternalLinks.

(** ** Scroll animations ([handleIntersection], scroll-animations.js) *)

Module ScrollAnimations.

(** An [IntersectionObserverEntry]: the observed element, by its place
    among the animated elements, and whether it intersects. *)
Record Entry := mkEntry {
  target : nat;
  isIntersecting : bool
}.

(** The body of [entries.forEach], on the class lists of the animated
    elements.  The observer only reports elements it observes. *)
Definition onEntry (elements : list (gset string)) (entry : Entry)
  : list (gset string) :=
  if isIntersecting entry
  then alter (ClassList.add "animate") (target entry) elements
  else elements.

(** [handleIntersection(entries, observer)] *)
Definition handleIntersection (entries : list Entry)
    (elements : list (gset string)) : list (gset string) :=
  foldl onEntry elements entries.

(** The observer calls back with one batch of entries after another. *)
Definition observe (batches : list (list Entry))
    (elements : list (gset string)) : list (gset string) :=
  foldl (λ elements entries, handleIntersection entries elements)
        elements batches.

End ScrollAnimations.

(** ** Facts about class lists *)

Module ClassListFacts.
Import ClassList.

Lemma contains_true token cl : contains token cl = true ↔ token ∈ cl.
Proof. unfold contains. apply bool_decide_eq_true. Qed.

Lemma contains_false token cl : contains token cl = false ↔ token ∉ cl.
Proof. unfold contains. apply bool_decide_eq_false. Qed.

Lemma elem_of_add token token' cl :
  token' ∈ add token cl ↔ token' ∈ cl ∨ token' = token.
Proof. unfold add. set_solver. Qed.

Lemma elem_of_remove token token' cl :
  token' ∈ remove token cl ↔ token' ∈ cl ∧ token' ≠ token.
Proof. unfold remove. set_solver. Qed.

End ClassListFacts.

Module HeaderScrollFacts.
Import HeaderScroll.

(** Case analysis on the listener's tests, then set reasoning. *)
Ltac token_cases :=
  repeat match goal with
         | |- context [if ?b then _ else _] => destruct b eqn:?
         end;
  rewrite ?andb_true_iff, ?andb_false_iff, ?negb_true_iff, ?negb_false_iff,
    ?ClassListFacts.contains_true, ?ClassListFacts.contains_false in *;
  rewrite ?ClassListFacts.elem_of_remove, ?ClassListFacts.elem_of_add in *;
  intuition congruence.

Lemma onScroll_lastScroll y h : lastScroll (onScroll y h) = y.
Proof. reflexivity. Qed.

(** A step that introduces [scroll-down] leaves no [scroll-up], and the
    other way around. *)
Lemma onScroll_adds_down y h :
  "scroll-down" ∉ classList h →
  "scroll-down" ∈ classList (onScroll y h) →
  "scroll-up" ∉ classList (onScroll y h).
Proof.
  unfold onScroll; cbn [classList]. token_cases.
Qed.

Lemma onScroll_adds_up y h :
  "scroll-up" ∉ classList h →
  "scroll-up" ∈ classList (onScroll y h) →
  "scroll-down" ∉ classList (onScroll y h).
Proof.
  unfold onScroll; cbn [classList]. token_cases.
Qed.

Lemma onScroll_exclusive y h :
  exclusive (classList h) → exclusive (classList (onScroll y h)).
Proof.
  unfold exclusive, onScroll; cbn [classList].
  token_cases.
Qed.

Lemma scrolls_exclusive events : ∀ h,
  exclusive (classList h) → exclusive (classList (scrolls events h)).
Proof.
  unfold scrolls.
  induction events as [|y events IH]; intros h Hex; cbn [foldl].
  - exact Hex.
  - apply IH. by apply onScroll_exclusive.
Qed.

(** C9: from a header that does not already carry both direction classes,
    no sequence of scroll events makes it carry ['scroll-down'] and
    ['scroll-up'] together; and in every single step, whatever the
    header looked like before, a direction class that appears comes with
    the other one gone. *)
Theorem header_direction_classes_exclusive :
  (∀ classes events,
     exclusive classes →
     exclusive (classList (scrolls events (initHeaderScroll classes))))
  ∧ (∀ y h,
       ("scroll-down" ∉ classList h →
        "scroll-down" ∈ classList (onScroll y h) →
        "scroll-up" ∉ classList (onScroll y h))
       ∧ ("scroll-up" ∉ classList h →
          "scroll-up" ∈ classList (onScroll y h) →
          "scroll-down" ∉ classList (onScroll y h))).
Proof.
  split.
  - intros classes events Hex. by apply scrolls_exclusive.
  - intros y h. split; [apply onScroll_adds_down | apply onScroll_adds_up].
Qed.

(** The theorem on a header with the single class [header], scrolled
    down past the threshold, further down, up, and back to the top. *)
Lemma header_direction_classes_exclusive_witness :
  exclusive {["header"]}
  ∧ exclusive
      (classList (scrolls [120; 300; 150; 40] (initHeaderScroll {["header"]}))).
Proof.
  assert (exclusive {["header"]}) as Hex.
  { intros [Hdown _]. apply elem_of_singleton in Hdown. discriminate. }
  split; [exact Hex|].
  exact (proj1 header_direction_classes_exclusive
           {["header"]} [120; 300; 150; 40] Hex).
Defined.

End HeaderScrollFacts.

Module CounterFacts.
Import Counter.

(** *** Trimming and digits *)

Lemma isDigit_not_white c : isDigit c = true → isWhiteSpace c = false.
Proof.
  unfold isDigit, isWhiteSpace.
  rewrite andb_true_iff, !N.leb_le.
  rewrite !orb_false_iff, !andb_false_iff, !N.eqb_neq, !N.leb_gt. lia.
Qed.

Lemma hasDigit_app s t : hasDigit (s ++ t) = hasDigit s || hasDigit t.
Proof. apply existsb_app. Qed.

Lemma hasDigit_rev s : hasDigit (rev s) = hasDigit s.
Proof.
  induction s as [|c s IH]; [done|].
  cbn [rev]. rewrite hasDigit_app, IH. unfold hasDigit. cbn [existsb].
  rewrite orb_false_r. apply orb_comm.
Qed.

Lemma hasDigit_trimStart s : hasDigit (trimStart s) = hasDigit s.
Proof.
  induction s as [|c s IH]; [done|].
  cbn [trimStart]. destruct (isWhiteSpace c) eqn:Hw; [|done].
  rewrite IH. unfold hasDigit. cbn [existsb].
  destruct (isDigit c) eqn:Hd; [|done].
  apply isDigit_not_white in Hd. congruence.
Qed.

Lemma hasDigit_trim s : hasDigit (trim s) = hasDigit s.
Proof.
  unfold trim, trimEnd.
  by rewrite hasDigit_rev, hasDigit_trimStart, hasDigit_rev, hasDigit_trimStart.
Qed.

Lemma stripNonDigits_cons c s :
  stripNonDigits (c :: s)
  = if isDigit c then c :: stripNonDigits s else stripNonDigits s.
Proof.
  unfold stripNonDigits. cbn [filter list_filter].
  destruct (isDigit c); cbn; by case_decide.
Qed.

Lemma leadingDigits_stripNonDigits s :
  leadingDigits (stripNonDigits s) = stripNonDigits s.
Proof.
  induction s as [|c s IH]; [done|].
  rewrite stripNonDigits_cons. destruct (isDigit c) eqn:Hd; [|done].
  cbn [leadingDigits]. by rewrite Hd, IH.
Qed.

Lemma stripNonDigits_nil s : stripNonDigits s = [] ↔ hasDigit s = false.
Proof.
  induction s as [|c s IH]; [done|].
  rewrite stripNonDigits_cons. unfold hasDigit. cbn [existsb].
  destruct (isDigit c); [done|]. exact IH.
Qed.

(** *** Rounding an integer never gives NaN *)

Lemma shr_1_nonneg mrs : 0 ≤ shr_m mrs → 0 ≤ shr_m (shr_1 mrs).
Proof.
  destruct mrs as [m r s]. cbn [shr_m shr_1].
  destruct m as [|[p|p|]|p]; cbn; lia.
Qed.

Lemma iter_pos_shr_1_nonneg p : ∀ mrs,
  0 ≤ shr_m mrs → 0 ≤ shr_m (iter_pos shr_1 p mrs).
Proof.
  induction p as [p IH|p IH|]; intros mrs Hm; cbn [iter_pos].
  - by apply IH, IH, shr_1_nonneg.
  - by apply IH, IH.
  - by apply shr_1_nonneg.
Qed.

Lemma shr_fexp_nonneg m e l :
  0 ≤ m → 0 ≤ shr_m (shr_fexp prec emax m e l).1.
Proof.
  intros Hm. unfold shr_fexp, shr.
  assert (0 ≤ shr_m (shr_record_of_loc m l)) as Hrec
    by (by destruct l as [|[]]).
  destruct (_ - e) as [|p|p]; cbn [fst]; [done| |done].
  by apply iter_pos_shr_1_nonneg.
Qed.

Lemma round_nearest_even_nonneg m l : 0 ≤ m → 0 ≤ round_nearest_even m l.
Proof.
  intros Hm. unfold round_nearest_even.
  destruct l as [|[]]; try done; [destruct (IntDef.Z.even m)|]; lia.
Qed.

Lemma binary_round_aux_not_NaN sx m e l :
  0 ≤ m → isNaN (binary_round_aux prec emax sx m e l) = false.
Proof.
  intros Hm. unfold binary_round_aux.
  pose proof (shr_fexp_nonneg m e l Hm) as H1.
  destruct (shr_fexp prec emax m e l) as [mrs' e']. cbn [fst] in H1.
  pose proof (shr_fexp_nonneg
                (round_nearest_even (shr_m mrs') (loc_of_shr_record mrs'))
                e' loc_Exact (round_nearest_even_nonneg _ _ H1)) as H2.
  destruct (shr_fexp prec emax _ e' loc_Exact) as [mrs'' e''].
  cbn [fst] in H2.
  destruct (shr_m mrs'') as [|p|p]; [done| |lia].
  by destruct (_ <=? _).
Qed.

Lemma ofN_not_NaN n : isNaN (ofN n) = false.
Proof.
  unfold ofN, ofZ, binary_normalize.
  destruct n as [|p]; [done|]. cbn [Z.of_N]. unfold binary_round.
  destruct (shl_align p 0 _) as [mz ez].
  by apply binary_round_aux_not_NaN.
Qed.

Lemma parseInt_NaN s :
  isNaN (parseInt (stripNonDigits s)) = true ↔ hasDigit s = false.
Proof.
  unfold parseInt. rewrite leadingDigits_stripNonDigits, <- stripNonDigits_nil.
  destruct (stripNonDigits s) as [|c ds] eqn:Hds; [done|].
  rewrite ofN_not_NaN. done.
Qed.

(** [animateCounter] on a text with a digit: the interval it creates. *)
Lemma animateCounter_starts text :
  hasDigit (trim text) = true →
  animateCounter (mkElement text None)
  = mkElement text
      (Some (mkInterval (trim text)
               (parseInt (stripNonDigits (trim text)))
               (div (parseInt (stripNonDigits (trim text)))
                    (div duration (ofN 16)))
               (ofN 0))).
Proof.
  intros Hd. unfold animateCounter. cbn [textContent].
  destruct (isNaN (parseInt (stripNonDigits (trim text)))) eqn:Hnan; [|done].
  apply parseInt_NaN in Hnan. congruence.
Qed.

Lemma animateCounter_ignores text :
  hasDigit (trim text) = false →
  animateCounter (mkElement text None) = mkElement text None.
Proof.
  intros Hd. unfold animateCounter. cbn [textContent].
  apply parseInt_NaN in Hd. by rewrite Hd.
Qed.

(** *** The interval *)

Section Ticks.

Variable toLocaleString : Number → jsstring.

Lemma ticks_succ n element :
  ticks toLocaleString (S n) element
  = ticks toLocaleString n (tick toLocaleString element).
Proof. unfold ticks. by rewrite Nat.iter_succ_r. Qed.

Lemma tick_cleared text :
  tick toLocaleString (mkElement text None) = mkElement text None.
Proof. reflexivity. Qed.

Lemma ticks_cleared n text :
  ticks toLocaleString n (mkElement text None) = mkElement text None.
Proof. induction n as [|n IH]; [done|]. by rewrite ticks_succ, tick_cleared. Qed.

Lemma ticks_add n m element :
  ticks toLocaleString (n + m) element
  = ticks toLocaleString m (ticks toLocaleString n element).
Proof.
  revert element. induction n as [|n IH]; intros element; [done|].
  cbn [Nat.add]. by rewrite !ticks_succ, IH.
Qed.

(** Whenever the interval is found cleared, the text is [target]. *)
Lemma ticks_cleared_text n : ∀ text iv,
  timer (ticks toLocaleString n (mkElement text (Some iv))) = None →
  textContent (ticks toLocaleString n (mkElement text (Some iv))) = target iv.
Proof.
  induction n as [|n IH]; intros text iv; [done|].
  rewrite ticks_succ. unfold tick; cbn [timer].
  destruct (ge _ _).
  - by rewrite ticks_cleared.
  - intros Hcleared. by rewrite (IH _ _ Hcleared).
Qed.

(** A target of 0 or of infinity is reached by the first tick. *)
Lemma first_tick_finishes text iv :
  current iv = ofN 0 →
  (∃ sign, targetNumber iv = S754_zero sign)
  ∨ targetNumber iv = S754_infinity false →
  increment iv = div (targetNumber iv) (div duration (ofN 16)) →
  tick toLocaleString (mkElement text (Some iv)) = mkElement (target iv) None.
Proof.
  intros Hcur Htarget Hinc. unfold tick. cbn [timer].
  rewrite Hcur, Hinc. by destruct Htarget as [[[] ->]| ->].
Qed.

End Ticks.

(** C10 (where the code departs from it): the text written back when the
    interval is cleared is the trimmed text, not the original.  For an
    element whose text is [ 50 ] (blanks around the number) the interval
    is created; in binary64 arithmetic 125 additions of 50 / 125 stay
    below 50, so the interval is still alive at tick 125, showing 49; the
    tick after that clears it and writes [50] without the blanks, and
    from then on the element keeps that text.  In general, on any
    element whose trimmed text has a digit, whenever the interval is
    found cleared the element shows its trimmed text; an element whose
    text has no digit is returned as it was, with no interval. *)
Theorem animateCounter_writes_back_trimmed_text
    (toLocaleString : Number → jsstring) :
  let element := mkElement [32; 53; 48; 32]%N None in
  hasDigit (trim (textContent element)) = true
  ∧ ticks toLocaleString 125 (animateCounter element)
    = mkElement (toLocaleString (ofN 49) ++ [])
        (Some (mkInterval [53; 48]%N (ofN 50) (div (ofN 50) (ofN 125))
                 (S754_finite false 7036874417766384 (-47))))
  ∧ (∀ n, (126 ≤ n)%nat →
          ticks toLocaleString n (animateCounter element)
          = mkElement [53; 48]%N None)
  ∧ [53; 48]%N ≠ textContent element
  ∧ (∀ text n,
       hasDigit (trim text) = true →
       timer (ticks toLocaleString n (animateCounter (mkElement text None)))
       = None →
       textContent (ticks toLocaleString n (animateCounter (mkElement text None)))
       = trim text)
  ∧ (∀ text,
       hasDigit (trim text) = false →
       animateCounter (mkElement text None) = mkElement text None).
Proof.
  cbv zeta. split; [reflexivity|]. split; [by vm_compute|]. split.
  { intros n Hn. replace n with (126 + (n - 126))%nat by lia.
    rewrite ticks_add.
    assert (ticks toLocaleString 126
              (animateCounter (mkElement [32; 53; 48; 32]%N None))
            = mkElement [53; 48]%N None) as -> by (by vm_compute).
    apply ticks_cleared. }
  split; [done|]. split.
  - intros text n Hd. rewrite (animateCounter_starts text Hd).
    intros Hcleared. by rewrite (ticks_cleared_text _ _ _ _ Hcleared).
  - apply animateCounter_ignores.
Qed.

End CounterFacts.

Module VideoLoaderFacts.
Import VideoLoader.

(** *** Symbolic runs of a table with one timer *)

Lemma clearTimeout_single id d cb s :
  timers s = [mkTimer id d cb] → timers (clearTimeout id s) = [].
Proof.
  intros Hts. unfold clearTimeout. destruct s; cbn in *. subst.
  cbn. by rewrite decide_False by (intros H; by apply H).
Qed.

(** A fallback callback (either of the two) that finds the flag unset
    arms the reveal through [handleVideoReady]. *)
Lemma runNext_fallback cfg s id d cb start :
  timers s = [mkTimer id d cb] →
  cb = FallbackTimeoutCallback ∨ cb = FallbackMethodCallback →
  isVideoReady s = false →
  videoLoadStartTime s = Some start →
  let s' := runNext cfg s in
  let t := Z.max (now s) d in
  now s' = t
  ∧ timers s'
    = [mkTimer (nextTimerId s)
               (t + Z.max 0 (Z.max 0 (MIN_DISPLAY_TIME cfg - (t - start))))
               RevealCallback]
  ∧ nextTimerId s' = Pos.succ (nextTimerId s)
  ∧ isVideoReady s' = false
  ∧ videoLoadStartTime s' = Some start
  ∧ fallbackTimer s' = fallbackTimer s
  ∧ classList s' = classList s
  ∧ history s' = history s.
Proof.
  intros Hts Hcb Hready Hstart.
  destruct s; cbn in *. subst.
  unfold runNext; cbn.
  destruct Hcb as [-> | ->]; cbn;
    rewrite decide_False by (intros H; by apply H); cbn; done.
Qed.

(** The reveal callback marks the container, arms the settle timer and
    releases the fallback timer. *)
Lemma runNext_reveal cfg s id d :
  timers s = [mkTimer id d RevealCallback] →
  let s' := runNext cfg s in
  let t := Z.max (now s) d in
  now s' = t
  ∧ timers s'
    = filter (λ tm, Some (timerId tm) ≠ fallbackTimer s)
             [mkTimer (nextTimerId s) (t + 5500) SettleCallback]
  ∧ isVideoReady s' = true
  ∧ fallbackTimer s' = None
  ∧ classList s' = ClassList.add "video-loaded" (classList s)
  ∧ history s'
    = history s ++ (t, Revealed)
        :: match fallbackTimer s with
           | Some _ => [(t, FallbackCancelled)]
           | None => []
           end.
Proof.
  intros Hts. destruct s as [? ? ? ? ? ? ? [fid|] ? ? ? ? ?]; cbn in *; subst.
  - unfold runNext; cbn.
    rewrite decide_False by (intros H; by apply H); cbn.
    change (Z.max 0 5500) with 5500.
    repeat split; try done.
    + repeat case_decide; try done; congruence.
    + by rewrite <- app_assoc.
  - unfold runNext; cbn.
    rewrite decide_False by (intros H; by apply H); cbn.
    change (Z.max 0 5500) with 5500.
    repeat split; done.
Qed.

Lemma runNext_settle cfg s id d :
  timers s = [mkTimer id d SettleCallback] →
  let s' := runNext cfg s in
  let t := Z.max (now s) d in
  now s' = t
  ∧ timers s' = []
  ∧ classList s' = ClassList.add "video-fully-loaded" (classList s)
  ∧ history s' = history s ++ [(t, Settled)].
Proof.
  intros Hts. destruct s; cbn in *; subst.
  unfold runNext; cbn.
  by rewrite decide_False by (intros H; by apply H).
Qed.

(** From a lone fallback timer to quiescence: the fallback callback, the
    reveal, the settle. *)
Lemma run_from_fallback cfg s id d cb start :
  timers s = [mkTimer id d cb] →
  cb = FallbackTimeoutCallback ∨ cb = FallbackMethodCallback →
  isVideoReady s = false →
  videoLoadStartTime s = Some start →
  fallbackTimer s ≠ Some (Pos.succ (nextTimerId s)) →
  now s ≤ d →
  let t := d + Z.max 0 (MIN_DISPLAY_TIME cfg - (d - start)) in
  timers (runNext cfg s) = [mkTimer (nextTimerId s) t RevealCallback]
  ∧ timers (run cfg s) = []
  ∧ classList (run cfg s)
    = ClassList.add "video-fully-loaded"
        (ClassList.add "video-loaded" (classList s))
  ∧ history (run cfg s)
    = history s
        ++ (t, Revealed)
        :: match fallbackTimer s with
           | Some _ => [(t, FallbackCancelled)]
           | None => []
           end
        ++ [(t + 5500, Settled)].
Proof.
  intros Hts Hcb Hready Hstart Hfb Hnow t.
  assert (run cfg s = runNext cfg (runNext cfg (runNext cfg s))) as ->.
  { unfold run. rewrite Hts. by destruct Hcb as [-> | ->]. }
  destruct (runNext_fallback cfg s id d cb start Hts Hcb Hready Hstart)
    as (Hnow1 & Hts1 & Hnext1 & _ & _ & Hfb1 & Hcl1 & Hh1).
  replace (Z.max (now s) d) with d in * by lia.
  replace (Z.max 0 (Z.max 0 (MIN_DISPLAY_TIME cfg - (d - start))))
    with (Z.max 0 (MIN_DISPLAY_TIME cfg - (d - start))) in Hts1 by lia.
  fold t in Hts1.
  destruct (runNext_reveal cfg _ _ _ Hts1)
    as (Hnow2 & Hts2 & _ & _ & Hcl2 & Hh2).
  rewrite Hnow1, Hnext1, Hfb1 in *.
  replace (Z.max d t) with t in * by lia.
  rewrite filter_cons_True, filter_nil in Hts2 by (cbn; congruence).
  destruct (runNext_settle cfg _ _ _ Hts2) as (_ & Hts3 & Hcl3 & Hh3).
  rewrite Hnow2 in Hh3. replace (Z.max t (t + 5500)) with (t + 5500) in Hh3 by lia.
  split; [exact Hts1|]. split; [exact Hts3|]. split.
  - by rewrite Hcl3, Hcl2, Hcl1.
  - rewrite Hh3, Hh2, Hh1, <- app_assoc. cbn [app].
    by destruct (fallbackTimer s).
Qed.

(** *** The scenarios of the specification *)

(** C5: with the player created and no ready signal at all (whether or
    not the player's ready promise resolves), the fallback timer is armed
    for 5000 ms after the start and runs then; the minimum-display delay
    it computes is 0, so the reveal callback is due at the same instant;
    the reveal is recorded 5000 ms after the start, within
    FALLBACK_TIMEOUT + MIN_DISPLAY_TIME of it, and the settle 5500 ms
    later. *)
Theorem no_signal_reveal_at_fallback_timeout
    (t0 : Z) (classes : gset string) (readyResolves : bool) :
  let page := mkPage false true true classes false (VimeoLoaded false) in
  let s0 := exec CONFIG page (if readyResolves then [ReadyFulfilled] else [])
                 (load CONFIG page t0) in
  videoLoadStartTime s0 = Some t0
  ∧ timers s0
    = [mkTimer 1 (t0 + FALLBACK_TIMEOUT CONFIG) FallbackTimeoutCallback]
  ∧ now (runNext CONFIG s0) = t0 + 5000
  ∧ Z.max 0 (MIN_DISPLAY_TIME CONFIG - (now (runNext CONFIG s0) - t0)) = 0
  ∧ timers (runNext CONFIG s0) = [mkTimer 2 (t0 + 5000) RevealCallback]
  ∧ history (run CONFIG s0)
    = [(t0 + 5000, Revealed); (t0 + 5000, FallbackCancelled);
       (t0 + 10500, Settled)]
  ∧ t0 + 5000 ≤ t0 + (FALLBACK_TIMEOUT CONFIG + MIN_DISPLAY_TIME CONFIG).
Proof.
  intros page s0.
  assert (timers s0 = [mkTimer 1 (t0 + 5000) FallbackTimeoutCallback]
          ∧ isVideoReady s0 = false ∧ videoLoadStartTime s0 = Some t0
          ∧ fallbackTimer s0 = Some 1%positive ∧ nextTimerId s0 = 2%positive
          ∧ now s0 = t0 ∧ history s0 = [])
    as (Hts & Hready & Hstart & Hfb & Hnext & Hnow & Hh).
  { subst s0 page. by destruct readyResolves. }
  destruct (run_from_fallback CONFIG s0 1 (t0 + 5000) FallbackTimeoutCallback t0)
    as (Hts1 & _ & _ & Hrun); auto.
  { rewrite Hfb, Hnext. discriminate. }
  { lia. }
  destruct (runNext_fallback CONFIG s0 1 (t0 + 5000) FallbackTimeoutCallback t0)
    as (Hnow1 & _); auto.
  rewrite Hnow in Hnow1. replace (Z.max t0 (t0 + 5000)) with (t0 + 5000) in Hnow1 by lia.
  cbn [MIN_DISPLAY_TIME CONFIG FALLBACK_TIMEOUT] in *.
  replace (t0 + 5000 + Z.max 0 (1500 - (t0 + 5000 - t0))) with (t0 + 5000)
    in * by lia.
  rewrite Hrun, Hh, Hfb, Hnow1, Hnext in *.
  repeat split; try done; try lia.
  cbn [app]. do 3 f_equal. f_equal. lia.
Qed.



(** *** Before the gate starts *)

(** An idle page that does not wait for DOMContentLoaded either stays
    as it is: inputs only move its clock. *)
Lemma step_idle_unarmed cfg page i s :
  Idle s → domContentLoadedListener s = false →
  Idle (step cfg page i s)
  ∧ domContentLoadedListener (step cfg page i s) = false
  ∧ classList (step cfg page i s) = classList s.
Proof.
  intros (Hstart & Hts & Hls & Hrp & Hready & Hfb & Hpl & Hh) Hdom.
  destruct s; cbn in *; subst. by destruct i.
Qed.

Lemma exec_idle_unarmed cfg page inputs : ∀ s,
  Idle s → domContentLoadedListener s = false →
  Idle (exec cfg page inputs s)
  ∧ classList (exec cfg page inputs s) = classList s.
Proof.
  unfold exec.
  induction inputs as [|i inputs IH]; intros s Hidle Hdom; cbn [foldl]; [done|].
  destruct (step_idle_unarmed cfg page i s Hidle Hdom) as (Hidle' & Hdom' & Hcl).
  destruct (IH _ Hidle' Hdom') as (? & Hcl'). split; [done|]. by rewrite Hcl'.
Qed.

(** C7 (as the code has it): under prefers-reduced-motion the script
    adds the revealed marker [video-loaded] to the container, if there
    is one, while it loads, and stops: no timer, no player, no
    subscription, no start time, and no input changes that afterwards.
    The fully-revealed marker [video-fully-loaded] is not applied: it is
    on the container only if the page's markup had it. *)
Theorem reduced_motion_applies_video_loaded
    (cfg : Config) (page : Page) (t0 : Z) :
  prefersReducedMotion page = true →
  let s := load cfg page t0 in
  classList s
  = (if hasContainer page
     then ClassList.add "video-loaded" (containerClasses page)
     else containerClasses page)
  ∧ ("video-fully-loaded" ∈ classList s
     ↔ "video-fully-loaded" ∈ containerClasses page)
  ∧ ∀ inputs,
      let s' := exec cfg page inputs s in
      classList s' = classList s ∧ timers s' = [] ∧ player s' = None
      ∧ listeners s' = [] ∧ videoLoadStartTime s' = None ∧ history s' = [].
Proof.
  intros Hrm s.
  assert (Idle s ∧ domContentLoadedListener s = false
          ∧ classList s
            = (if hasContainer page
               then ClassList.add "video-loaded" (containerClasses page)
               else containerClasses page)) as (Hidle & Hdom & Hcl).
  { subst s. unfold load, init, checkUserPreferences. rewrite Hrm.
    by destruct (hasContainer page). }
  split; [exact Hcl|]. split.
  - rewrite Hcl. destruct (hasContainer page); [|done].
    rewrite ClassListFacts.elem_of_add. split; [|by left].
    by intros [?|?].
  - intros inputs s'.
    destruct (exec_idle_unarmed cfg page inputs s Hidle Hdom)
      as ((? & ? & ? & ? & ? & ? & ? & ?) & ?).
    done.
Qed.

(** The theorem on a page with the container and no class on it. *)
Lemma reduced_motion_applies_video_loaded_witness :
  classList (load CONFIG (mkPage true true true ∅ false (VimeoLoaded false)) 0)
  = ClassList.add "video-loaded" ∅.
Proof.
  exact (proj1 (reduced_motion_applies_video_loaded
                  CONFIG (mkPage true true true ∅ false (VimeoLoaded false)) 0
                  eq_refl)).
Defined.

(** C7 as the specification words it fails: on such a page the container has
    [video-loaded] after the script loaded, and not
    [video-fully-loaded]. *)
Lemma reduced_motion_no_fully_loaded_marker :
  let page := mkPage true true true ∅ false (VimeoLoaded false) in
  prefersReducedMotion page = true
  ∧ "video-loaded" ∈ classList (load CONFIG page 0)
  ∧ "video-fully-loaded" ∉ classList (load CONFIG page 0).
Proof.
  cbv zeta. split; [done|].
  split; apply (bool_decide_unpack _); by vm_compute.
Qed.

(** C8: [brightenAndFadeOut] adds [video-loaded] and arms one timer for
    5500 ms later, whose callback adds [video-fully-loaded]; for a start
    at 0 and a play signal at 200 ms the reveal runs at 1500 ms and the
    settle at 7000 ms, leaving both markers on the container. *)
Theorem reveal_then_settle_after_5500 :
  (∀ s,
     classList (brightenAndFadeOut s)
     = ClassList.add "video-loaded" (classList s)
     ∧ timers (brightenAndFadeOut s)
       = timers s ++ [mkTimer (nextTimerId s) (now s + 5500) SettleCallback]
     ∧ history (brightenAndFadeOut s) = history s ++ [(now s, Revealed)])
  ∧ (∀ cfg s,
       classList (runCallback cfg SettleCallback s)
       = ClassList.add "video-fully-loaded" (classList s)
       ∧ timers (runCallback cfg SettleCallback s) = timers s
       ∧ history (runCallback cfg SettleCallback s)
         = history s ++ [(now s, Settled)])
  ∧ (let signalled :=
       exec CONFIG heroPage [ReadyFulfilled; Elapse 200; Emit Play]
            (load CONFIG heroPage 0) in
     timers signalled
     = [mkTimer 1 5000 FallbackTimeoutCallback; mkTimer 2 1500 RevealCallback]
     ∧ history (run CONFIG signalled)
       = [(1500, Revealed); (1500, FallbackCancelled); (7000, Settled)]
     ∧ classList (run CONFIG signalled)
       = ClassList.add "video-fully-loaded" (ClassList.add "video-loaded" ∅)).
Proof.
  split; [|split].
  - intros s. by destruct s.
  - intros cfg s. by destruct s.
  - cbv zeta. split; [by vm_compute|]. split; by vm_compute.
Qed.

(** C2, the code at two signals in one tick: [play] and [bufferend]
    arrive together 200 ms after the start.  Both calls of
    [handleVideoReady] find [isVideoReady] still false, since only the
    delayed callback sets it, and each arms a reveal; both reveals run at
    1500 ms and both settles at 7000 ms. *)
Theorem double_signal_reveals_twice :
  let signalled :=
    exec CONFIG heroPage [ReadyFulfilled; Elapse 200; Emit Play; Emit BufferEnd]
         (load CONFIG heroPage 0) in
  isVideoReady signalled = false
  ∧ timers signalled
    = [mkTimer 1 5000 FallbackTimeoutCallback;
       mkTimer 2 1500 RevealCallback; mkTimer 3 1500 RevealCallback]
  ∧ history (run CONFIG signalled)
    = [(1500, Revealed); (1500, FallbackCancelled); (1500, Revealed);
       (7000, Settled); (7000, Settled)].
Proof.
  cbv zeta. split; [by vm_compute|]. split; by vm_compute.
Qed.

(** C3 as the specification words it fails: 200 ms after the start a play signal
    makes [handleVideoReady] arm the reveal for 1500 ms, and the fallback
    timer is still in the table and in [fallbackTimer], with no
    [clearTimeout] recorded; it is released when the reveal callback runs
    at 1500 ms. *)
Lemma fallback_still_armed_after_scheduling :
  let signalled :=
    exec CONFIG heroPage [ReadyFulfilled; Elapse 200; Emit Play]
         (load CONFIG heroPage 0) in
  let revealed := exec CONFIG heroPage [Elapse 1300; TimerFires 2] signalled in
  timers signalled
  = [mkTimer 1 5000 FallbackTimeoutCallback; mkTimer 2 1500 RevealCallback]
  ∧ fallbackTimer signalled = Some 1%positive
  ∧ history signalled = []
  ∧ timers revealed = [mkTimer 3 7000 SettleCallback]
  ∧ fallbackTimer revealed = None
  ∧ history revealed = [(1500, Revealed); (1500, FallbackCancelled)].
Proof.
  cbv zeta. repeat split; by vm_compute.
Qed.

(** *** Invariants of a started gate

    A property of started gates that the handlers, the timers and the
    clock keep is kept by every input and by the timers left to
    themselves; with [Idle] for the time before the start it holds on
    every run. *)

Lemma find_timer_elem id (ts : list Timer) tm :
  find (λ tm, Pos.eqb (timerId tm) id) ts = Some tm → tm ∈ ts ∧ timerId tm = id.
Proof.
  intros Hfind. apply find_some in Hfind as [Hin Hid].
  split; [by apply list_elem_of_In | by apply Pos.eqb_eq].
Qed.

Lemma nextTimer_elem ts tm : nextTimer ts = Some tm → tm ∈ ts.
Proof.
  revert tm. induction ts as [|tm' ts IH]; intros tm; cbn [nextTimer]; [done|].
  destruct (nextTimer ts) as [tm''|].
  - destruct (due tm'' <? due tm'); intros [= <-];
      [apply list_elem_of_further; by apply IH | apply list_elem_of_here].
  - intros [= <-]. apply list_elem_of_here.
Qed.

Lemma nextTimer_None ts : nextTimer ts = None → ts = [].
Proof.
  destruct ts as [|tm ts]; [done|]. cbn [nextTimer].
  destruct (nextTimer ts); [by destruct (_ <? _)|done].
Qed.

Section StartedInvariant.

Variable cfg : Config.
Variable page : Page.
Variable P : State → Prop.

Hypothesis P_unarmed : ∀ s, P s → domContentLoadedListener s = false.
Hypothesis P_elapse : ∀ t s, P s → P (set_now t s).
Hypothesis P_fire :
  ∀ tm s, P s → tm ∈ timers s → due tm ≤ now s → P (fire cfg tm s).
Hypothesis P_fulfilled :
  ∀ s, P s → P (onReadyFulfilled (set_readyPending false s)).
Hypothesis P_rejected :
  ∀ s, P s → P (onReadyRejected (set_readyPending false s)).
Hypothesis P_listener : ∀ name e s, P s → P (runListener cfg name e s).
Hypothesis P_init :
  ∀ s, Idle s → domContentLoadedListener s = false →
       Idle (stateOf (initVimeoPlayer cfg page s)) ∨ P (stateOf (initVimeoPlayer cfg page s)).

Lemma started_emit e s : P s → P (emit cfg e s).
Proof.
  unfold emit. generalize (listeners s) as names. intros names. revert s.
  induction names as [|name names IH]; intros s Hs; cbn [foldl]; [done|].
  by apply IH, P_listener.
Qed.

Lemma started_step i s : P s → P (step cfg page i s).
Proof.
  intros Hs. destruct i; cbn [step].
  - by apply P_elapse.
  - destruct (find _ _) as [tm|] eqn:Hfind; [|done].
    apply find_timer_elem in Hfind as [Hin _].
    destruct (Z.leb_spec (due tm) (now s)); [|done]. by apply P_fire.
  - by rewrite (P_unarmed s Hs).
  - destruct (readyPending s); [|done]. by apply P_fulfilled.
  - destruct (readyPending s); [|done]. by apply P_rejected.
  - by apply started_emit.
Qed.

Lemma started_exec inputs : ∀ s, P s → P (exec cfg page inputs s).
Proof.
  unfold exec.
  induction inputs as [|i inputs IH]; intros s Hs; cbn [foldl]; [done|].
  by apply IH, started_step.
Qed.

Lemma started_runNext s : P s → P (runNext cfg s).
Proof.
  intros Hs. unfold runNext.
  destruct (nextTimer (timers s)) as [tm|] eqn:Hnext; [|done].
  apply nextTimer_elem in Hnext.
  apply P_fire; [by apply P_elapse | by destruct s | destruct s; cbn; lia].
Qed.

Lemma started_run s : P s → P (run cfg s).
Proof.
  unfold run. generalize (budget (timers s)) as n. intros n.
  induction n as [|n IH]; intros Hs; cbn [Nat.iter]; [done|].
  by apply started_runNext, IH.
Qed.

Lemma idle_or_started_step i s :
  Idle s ∨ P s → Idle (step cfg page i s) ∨ P (step cfg page i s).
Proof.
  intros [Hidle | Hs]; [|right; by apply started_step].
  destruct (domContentLoadedListener s) eqn:Hdom.
  - destruct i; cbn [step];
      try (left; destruct Hidle as (? & ? & ? & ? & ? & ? & ? & ?);
           destruct s; cbn in *; by subst).
    rewrite Hdom. apply P_init; by destruct s.
  - left. by apply step_idle_unarmed.
Qed.

Lemma idle_or_started_exec inputs : ∀ s,
  Idle s ∨ P s → Idle (exec cfg page inputs s) ∨ P (exec cfg page inputs s).
Proof.
  unfold exec.
  induction inputs as [|i inputs IH]; intros s Hs; cbn [foldl]; [done|].
  by apply IH, idle_or_started_step.
Qed.

Lemma idle_or_started_load t0 :
  Idle (load cfg page t0) ∨ P (load cfg page t0).
Proof.
  unfold load, init, checkUserPreferences.
  destruct (prefersReducedMotion page); cbn [negb].
  { left. by destruct (hasContainer page). }
  destruct (readyStateLoading page); [by left|].
  by apply P_init.
Qed.

Lemma idle_or_started_run inputs t0 :
  Idle (exec cfg page inputs (load cfg page t0))
  ∨ P (exec cfg page inputs (load cfg page t0)).
Proof. apply idle_or_started_exec, idle_or_started_load. Qed.

End StartedInvariant.

(** *** Reveals never come early *)

Section MinimumDisplay.

Variable cfg : Config.
Variable page : Page.

Lemma Timed_handleVideoReady s : Timed cfg s → Timed cfg (handleVideoReady cfg s).
Proof.
  intros (Hdom & start & Hstart & Hts & Hh). unfold handleVideoReady.
  destruct (isVideoReady s) eqn:Hready; [by split; [|exists start]|].
  destruct s; cbn in *; subst. split; [done|]. exists start.
  split; [done|]. split; [|done].
  intros tm [Hin | ->%list_elem_of_singleton]%elem_of_app Hcb; [by apply Hts|].
  cbn. lia.
Qed.

Lemma Timed_useFallbackMethod s : Timed cfg s → Timed cfg (useFallbackMethod s).
Proof.
  intros (Hdom & start & Hstart & Hts & Hh).
  destruct s; cbn in *; subst. split; [done|]. exists start.
  split; [done|]. split; [|done].
  intros tm [Hin | ->%list_elem_of_singleton]%elem_of_app Hcb; [by apply Hts|].
  done.
Qed.

Lemma Timed_console_log message s : Timed cfg s → Timed cfg (console_log message s).
Proof. by destruct s. Qed.

Lemma Timed_runListener name e s : Timed cfg s → Timed cfg (runListener cfg name e s).
Proof.
  intros Htimed. destruct name, e; unfold runListener; try done;
    try (by apply Timed_handleVideoReady).
  - destruct (_ && _); [by apply Timed_handleVideoReady | done].
  - apply Timed_useFallbackMethod. by apply Timed_console_log.
Qed.

Lemma Timed_clearTimeout id s : Timed cfg s → Timed cfg (clearTimeout id s).
Proof.
  intros (Hdom & start & Hstart & Hts & Hh).
  destruct s; cbn in *; subst.
  split; [done|]. exists start. split; [done|]. split; [|done].
  intros tm' [_ Hin']%list_elem_of_filter. by apply Hts.
Qed.

(** The reveal callback records a reveal at the current time. *)
Lemma Timed_reveal s :
  Timed cfg s →
  (∀ start, videoLoadStartTime s = Some start →
            start + MIN_DISPLAY_TIME cfg ≤ now s) →
  Timed cfg (runCallback cfg RevealCallback s).
Proof.
  intros (Hdom & start & Hstart & Hts & Hh) Hnow.
  specialize (Hnow start Hstart).
  unfold runCallback, clearFallbackTimeout, brightenAndFadeOut.
  destruct s as [? ? ? ? ? ? ? [fid|] ? ? ? ? ?]; cbn in *; subst;
    (split; [done|]; exists start; split; [done|]; split).
  - intros tm' [_ [Hin' | ->%list_elem_of_singleton]%elem_of_app]%list_elem_of_filter Hcb';
      [by apply Hts | done].
  - intros t [[Hin' | [= ->]%list_elem_of_singleton]%elem_of_app
             | [=]%list_elem_of_singleton]%elem_of_app;
      [by apply Hh | lia].
  - intros tm' [Hin' | ->%list_elem_of_singleton]%elem_of_app Hcb';
      [by apply Hts | done].
  - intros t [Hin' | [= ->]%list_elem_of_singleton]%elem_of_app;
      [by apply Hh | lia].
Qed.

Lemma Timed_settle s : Timed cfg s → Timed cfg (runCallback cfg SettleCallback s).
Proof.
  intros (Hdom & start & Hstart & Hts & Hh).
  destruct s; cbn in *; subst.
  split; [done|]. exists start. split; [done|]. split; [done|].
  intros t [Hin' | [=]%list_elem_of_singleton]%elem_of_app. by apply Hh.
Qed.

(** A timer that runs when it is due keeps the bound: the reveal it
    records is no earlier than its due time. *)
Lemma Timed_fire tm s :
  Timed cfg s → tm ∈ timers s → due tm ≤ now s → Timed cfg (fire cfg tm s).
Proof.
  intros Htimed Hin Hdue. unfold fire.
  pose proof (Timed_clearTimeout (timerId tm) s Htimed) as Hcleared.
  destruct (callback tm) eqn:Hcb; unfold runCallback.
  - apply Timed_reveal; [done|].
    destruct Htimed as (_ & start & Hstart & Hts & _).
    specialize (Hts tm Hin Hcb).
    intros start' Hstart'.
    assert (start' = start) as -> by (destruct s; cbn in *; congruence).
    assert (now (clearTimeout (timerId tm) s) = now s) as -> by (by destruct s).
    lia.
  - by apply Timed_settle.
  - destruct (negb _); [|done].
    by apply Timed_handleVideoReady, Timed_console_log.
  - destruct (negb _); [|done]. by apply Timed_handleVideoReady.
Qed.

Lemma Timed_or_idle_initVimeoPlayer s :
  Idle s → domContentLoadedListener s = false →
  Idle (stateOf (initVimeoPlayer cfg page s)) ∨ Timed cfg (stateOf (initVimeoPlayer cfg page s)).
Proof.
  intros (Hstart & Hts & Hls & Hrp & Hready & Hfb & Hpl & Hh) Hdom.
  unfold initVimeoPlayer.
  destruct (negb (hasIframe page) || negb (hasContainer page)).
  { left. by destruct s. }
  right. split.
  { destruct s; cbn in *. by destruct (vimeo page) as [| |[]|]. }
  exists (now s). destruct s; cbn in *; subst.
  destruct (vimeo page) as [| |[]|]; cbn;
    (split; [done|]); (split; [|by intros t ?%elem_of_nil]);
    intros tm Hin Hcb;
    first [by apply elem_of_nil in Hin
          |by apply list_elem_of_singleton in Hin as ->].
Qed.

Lemma Timed_or_idle_run inputs t0 :
  Idle (exec cfg page inputs (load cfg page t0))
  ∨ Timed cfg (exec cfg page inputs (load cfg page t0)).
Proof.
  apply idle_or_started_run.
  - by intros s [? _].
  - intros t s ?. by destruct s.
  - apply Timed_fire.
  - intros s ?. by destruct s.
  - intros s ?. unfold onReadyRejected.
    apply Timed_useFallbackMethod, Timed_console_log. by destruct s.
  - apply Timed_runListener.
  - apply Timed_or_idle_initVimeoPlayer.
Qed.

End MinimumDisplay.

(** *** Every started gate reveals and settles *)

Lemma Live_quiescent s :
  Live s → timers s = [] → revealed s ∧ settled s.
Proof.
  intros ((_ & _ & _ & Hready) & Hrec) Hts.
  destruct (isVideoReady s).
  - destruct Hready as (Hrev & [Hset | (tm & Hin & _)]); [done.. |].
    rewrite Hts in Hin. by apply elem_of_nil in Hin.
  - destruct Hrec as (tm & Hin & _); [done|].
    rewrite Hts in Hin. by apply elem_of_nil in Hin.
Qed.

Lemma settledAfterReveal_snoc h t t' :
  (t, Revealed) ∈ h → settledAfterReveal (h ++ [(t', Settled)]).
Proof.
  intros (h1 & h2 & ->)%list_elem_of_split.
  exists h1, h2, [], t, t'. by rewrite <- app_assoc.
Qed.

Lemma settledAfterReveal_app h h' :
  settledAfterReveal h → settledAfterReveal (h ++ h').
Proof.
  intros (h1 & h2 & h3 & t1 & t2 & ->).
  exists h1, h2, (h3 ++ h'), t1, t2.
  rewrite <- !app_assoc. cbn. by rewrite <- !app_assoc.
Qed.

Ltac unfold_live :=
  unfold Live, Sound, wellFormed, revealed, settled, settlePending,
    recoveryPending in *.

Lemma Sound_arm cb delay s :
  Sound s → cb ≠ SettleCallback → Live (snd (setTimeout cb delay s)).
Proof.
  intros (Hdom & (Hfresh & Huniq & Hfb) & Hpending & Hready) Hcb.
  unfold_live. destruct s; cbn in *.
  split; [split; [done|split; [|split]]|].
  - split; [|split].
    + intros tm [Hin | ->%list_elem_of_singleton]%elem_of_app;
        [apply Hfresh in Hin|cbn]; lia.
    + intros tm1 tm2 [Hin1 | ->%list_elem_of_singleton]%elem_of_app
                     [Hin2 | ->%list_elem_of_singleton]%elem_of_app Hid;
        [by apply Huniq | apply Hfresh in Hin1; cbn in Hid; lia
        | apply Hfresh in Hin2; cbn in Hid; lia | done].
    + intros id Hid. apply Hfb in Hid. lia.
  - intros (tm & [Hin | ->%list_elem_of_singleton]%elem_of_app & Hset);
      [apply Hpending; by exists tm | done].
  - intros Hflag. destruct (Hready Hflag) as (Hrev & [Hset | (tm & Hin & Htm)]).
    + split; [done|by left].
    + split; [done|]. right. exists tm. split; [|done].
      apply elem_of_app. by left.
  - intros _. eexists. split; [apply elem_of_app; right; apply list_elem_of_here|done].
Qed.

Lemma Sound_console_log message s : Sound s → Sound (console_log message s).
Proof. by destruct s. Qed.

Lemma Live_handleVideoReady cfg s : Live s → Live (handleVideoReady cfg s).
Proof.
  intros Hlive. unfold handleVideoReady.
  destruct (isVideoReady s); [done|]. by apply Sound_arm; [apply Hlive|].
Qed.

Lemma Live_useFallbackMethod s : Sound s → Live (useFallbackMethod s).
Proof. intros Hs. by apply Sound_arm. Qed.

Lemma Live_runListener cfg name e s : Live s → Live (runListener cfg name e s).
Proof.
  intros Hlive. destruct name, e; unfold runListener; try done;
    try (by apply Live_handleVideoReady).
  - destruct (_ && _); [by apply Live_handleVideoReady | done].
  - apply Live_useFallbackMethod, Sound_console_log, Hlive.
Qed.

(** Releasing a timer id under which no settle timer is pending. *)
Lemma Sound_clearTimeout id s :
  Sound s →
  (∀ tm, tm ∈ timers s → timerId tm = id → callback tm ≠ SettleCallback) →
  Sound (clearTimeout id s).
Proof.
  intros (Hdom & (Hfresh & Huniq & Hfb) & Hpending & Hready) Hid.
  unfold_live. destruct s; cbn in *.
  split; [done|split; [|split]].
  - split; [|split; [|done]].
    + intros tm [_ Hin]%list_elem_of_filter. by apply Hfresh.
    + intros tm1 tm2 [_ Hin1]%list_elem_of_filter [_ Hin2]%list_elem_of_filter.
      by apply Huniq.
  - intros (tm & [_ Hin]%list_elem_of_filter & Hset).
    apply Hpending. by exists tm.
  - intros Hflag. destruct (Hready Hflag) as (Hrev & [Hset | (tm & Hin & Htm)]).
    + split; [done|by left].
    + split; [done|]. right. exists tm. split; [|done].
      apply list_elem_of_filter. split; [|done].
      intros Heq. by apply (Hid tm).
Qed.

Lemma Live_reveal cfg s : Sound s → Live (runCallback cfg RevealCallback s).
Proof.
  intros (Hdom & (Hfresh & Huniq & Hfb) & Hpending & Hready).
  assert (∀ h : list (Z * Action), (now s, Revealed) ∈ (h ++ [(now s, Revealed)]))
    as Hrec by (intros h; apply elem_of_app; right; apply list_elem_of_here).
  unfold runCallback, clearFallbackTimeout, brightenAndFadeOut.
  unfold Live, Sound, wellFormed, settled, settlePending, recoveryPending in *.
  destruct s as [? ? ? ? ? ? ? [fid|] ? ? ? ? ?]; cbn in *.
  - specialize (Hfb fid eq_refl).
    assert (revealed
              (mkState now0
                 (filter (λ tm, timerId tm ≠ fid)
                    (timers0 ++ [mkTimer nextTimerId0 (now0 + Z.max 0 5500) SettleCallback]))
                 (Pos.succ nextTimerId0) (ClassList.add "video-loaded" classList0)
                 player0 videoLoadStartTime0 true None listeners0 readyPending0
                 domContentLoadedListener0 console0
                 ((history0 ++ [(now0, Revealed)]) ++ [(now0, FallbackCancelled)])))
      as Hrev.
    { split; cbn; [apply ClassListFacts.elem_of_add; by right|].
      exists now0. apply elem_of_app. left. apply Hrec. }
    split; [split; [done|split; [|split]]|done].
    + split; [|split; [|done]].
      * intros tm [_ [Hin | ->%list_elem_of_singleton]%elem_of_app]%list_elem_of_filter;
          [apply Hfresh in Hin|cbn]; lia.
      * intros tm1 tm2
          [_ [Hin1 | ->%list_elem_of_singleton]%elem_of_app]%list_elem_of_filter
          [_ [Hin2 | ->%list_elem_of_singleton]%elem_of_app]%list_elem_of_filter Hid;
          [by apply Huniq | apply Hfresh in Hin1; cbn in Hid; lia
          | apply Hfresh in Hin2; cbn in Hid; lia | done].
    + intros _. exact Hrev.
    + intros _. split; [exact Hrev|]. right.
      exists (mkTimer nextTimerId0 (now0 + Z.max 0 5500) SettleCallback).
      split; [|done].
      apply list_elem_of_filter. split; [cbn; lia|].
      apply elem_of_app. right. apply list_elem_of_here.
  - assert (revealed
              (mkState now0
                 (timers0 ++ [mkTimer nextTimerId0 (now0 + Z.max 0 5500) SettleCallback])
                 (Pos.succ nextTimerId0) (ClassList.add "video-loaded" classList0)
                 player0 videoLoadStartTime0 true None listeners0 readyPending0
                 domContentLoadedListener0 console0
                 (history0 ++ [(now0, Revealed)])))
      as Hrev.
    { split; cbn; [apply ClassListFacts.elem_of_add; by right|].
      exists now0. apply Hrec. }
    split; [split; [done|split; [|split]]|done].
    + split; [|split; [|done]].
      * intros tm [Hin | ->%list_elem_of_singleton]%elem_of_app;
          [apply Hfresh in Hin|cbn]; lia.
      * intros tm1 tm2 [Hin1 | ->%list_elem_of_singleton]%elem_of_app
                       [Hin2 | ->%list_elem_of_singleton]%elem_of_app Hid;
          [by apply Huniq | apply Hfresh in Hin1; cbn in Hid; lia
          | apply Hfresh in Hin2; cbn in Hid; lia | done].
    + intros _. exact Hrev.
    + intros _. split; [exact Hrev|]. right.
      exists (mkTimer nextTimerId0 (now0 + Z.max 0 5500) SettleCallback).
      split; [|done].
      apply elem_of_app. right. apply list_elem_of_here.
Qed.

Lemma Live_settle cfg tm s :
  Live s → tm ∈ timers s → callback tm = SettleCallback →
  Live (runCallback cfg SettleCallback (clearTimeout (timerId tm) s)).
Proof.
  intros ((Hdom & (Hfresh & Huniq & Hfb) & Hpending & Hready) & Hrec) Hin Hcb.
  assert (revealed s) as [Hcl (t & Hrev)] by (apply Hpending; by exists tm).
  unfold_live. destruct s; cbn in *.
  assert ("video-loaded" ∈ ClassList.add "video-fully-loaded" classList0
          ∧ ∃ t, (t, Revealed) ∈ history0 ++ [(now0, Settled)]) as Hrevealed.
  { split; [apply ClassListFacts.elem_of_add; by left|].
    exists t. apply elem_of_app. by left. }
  split; [split; [done|split; [|split]]|].
  - split; [|split; [|done]].
    + intros tm' [_ Hin']%list_elem_of_filter. by apply Hfresh.
    + intros tm1 tm2 [_ Hin1]%list_elem_of_filter [_ Hin2]%list_elem_of_filter.
      by apply Huniq.
  - done.
  - intros _. split; [done|]. left.
    split; [apply ClassListFacts.elem_of_add; by right|].
    by apply settledAfterReveal_snoc with t.
  - intros Hflag. destruct (Hrec Hflag) as (tm' & Hin' & Hcb').
    exists tm'. split; [|done]. apply list_elem_of_filter. split; [|done].
    intros Hid. apply Hcb'. by rewrite (Huniq tm' tm Hin' Hin Hid).
Qed.

Lemma Live_fire cfg tm s : Live s → tm ∈ timers s → Live (fire cfg tm s).
Proof.
  intros Hlive Hin. unfold fire.
  destruct (decide (callback tm = SettleCallback)) as [Hcb|Hcb].
  { rewrite Hcb. by apply Live_settle. }
  assert (Sound (clearTimeout (timerId tm) s)) as Hsound.
  { apply Sound_clearTimeout; [apply Hlive|].
    intros tm' Hin' Hid.
    destruct Hlive as ((_ & (_ & Huniq & _) & _) & _).
    by rewrite (Huniq tm' tm Hin' Hin Hid). }
  destruct (callback tm); [by apply Live_reveal|done|..];
    unfold runCallback, handleVideoReady;
    destruct (isVideoReady (clearTimeout (timerId tm) s)) eqn:Hflag; cbn [negb].
  - split; [done|]. intros Hflag'. congruence.
  - replace (isVideoReady (console_log _ _)) with false by (by destruct s).
    by apply Sound_arm; [apply Sound_console_log|].
  - split; [done|]. intros Hflag'. congruence.
  - by apply Sound_arm.
Qed.

(** Starting the gate on a page that has the two elements arms a
    recovery timer, unless [Vimeo] is [null]. *)
Lemma Live_initVimeoPlayer cfg page s :
  hasIframe page = true → hasContainer page = true →
  vimeo page ≠ VimeoNull →
  Idle s → domContentLoadedListener s = false →
  Live (stateOf (initVimeoPlayer cfg page s)).
Proof.
  intros Hif Hco Hapi (Hstart & Hts & Hls & Hrp & Hready & Hfb & Hpl & Hh) Hdom.
  unfold initVimeoPlayer. rewrite Hif, Hco. cbn [negb orb].
  unfold_live. destruct s; cbn in *; subst.
  destruct (vimeo page) as [| |[]|]; [..|done]; cbn;
    (split; [split; [done|split; [|split]]|]);
    try (intros ?; discriminate).
  all: try (intros (tm & ->%list_elem_of_singleton & ?); discriminate).
  all: try (intros _; eexists; split; [apply list_elem_of_here|done]).
  all: split; [|split]; try (intros ?; discriminate).
  all: try (intros tm ->%list_elem_of_singleton; cbn; lia).
  all: try (intros tm1 tm2 ->%list_elem_of_singleton ->%list_elem_of_singleton; done).
  intros id [= <-]. lia.
Qed.

Lemma Live_or_idle_initVimeoPlayer cfg page s :
  vimeo page ≠ VimeoNull →
  Idle s → domContentLoadedListener s = false →
  Idle (stateOf (initVimeoPlayer cfg page s)) ∨ Live (stateOf (initVimeoPlayer cfg page s)).
Proof.
  intros Hapi Hidle Hdom.
  destruct (hasIframe page) eqn:Hif, (hasContainer page) eqn:Hco;
    [right; by apply Live_initVimeoPlayer|..];
    left; unfold initVimeoPlayer; rewrite Hif, Hco; by destruct s.
Qed.

(** *** The timers run out *)

Lemma budget_snoc ts tm : budget (ts ++ [tm]) = (budget ts + chain (callback tm))%nat.
Proof. unfold budget. rewrite sum_list_with_app. cbn. lia. Qed.

Lemma sum_list_with_filter {A} (w : A → nat) (P : A → Prop)
    `{∀ x, Decision (P x)} l :
  (sum_list_with w (filter P l) ≤ sum_list_with w l)%nat.
Proof.
  induction l as [|x l IH]; [done|].
  rewrite filter_cons. destruct (decide (P x)); cbn [sum_list_with]; lia.
Qed.

Lemma sum_list_with_filter_elem {A} (w : A → nat) (P : A → Prop)
    `{∀ x, Decision (P x)} l x :
  x ∈ l → ¬ P x →
  (sum_list_with w (filter P l) + w x ≤ sum_list_with w l)%nat.
Proof.
  intros Hin Hnot. induction Hin as [x l | x y l Hin IH].
  - rewrite filter_cons_False by done.
    pose proof (sum_list_with_filter w P l). cbn [sum_list_with]. lia.
  - rewrite filter_cons. specialize (IH Hnot).
    destruct (decide (P y)); cbn [sum_list_with]; lia.
Qed.

Lemma budget_cons tm ts : budget (tm :: ts) = (chain (callback tm) + budget ts)%nat.
Proof. reflexivity. Qed.

Lemma budget_filter (P : Timer → Prop) `{∀ tm, Decision (P tm)} ts :
  (budget (filter P ts) ≤ budget ts)%nat.
Proof. apply sum_list_with_filter. Qed.

Lemma budget_filter_elem (P : Timer → Prop) `{∀ tm, Decision (P tm)} ts tm :
  tm ∈ ts → ¬ P tm →
  (budget (filter P ts) + chain (callback tm) ≤ budget ts)%nat.
Proof. apply (sum_list_with_filter_elem (λ tm, chain (callback tm))). Qed.

Lemma chain_pos cb : (1 ≤ chain cb)%nat.
Proof. destruct cb; cbn; lia. Qed.

Lemma budget_zero ts : budget ts = 0%nat → ts = [].
Proof.
  destruct ts as [|tm ts]; [done|]. rewrite budget_cons.
  pose proof (chain_pos (callback tm)). lia.
Qed.

(** Running a pending timer uses up some of the budget: what its
    callback arms is worth less than the timer itself. *)
Lemma fire_budget cfg tm s :
  tm ∈ timers s → (budget (timers (fire cfg tm s)) < budget (timers s))%nat.
Proof.
  intros Hin. unfold fire.
  assert (budget (timers (clearTimeout (timerId tm) s)) + chain (callback tm)
          ≤ budget (timers s))%nat as Hcleared.
  { destruct s; cbn in *. apply budget_filter_elem; [done|]. by intros H. }
  destruct (clearTimeout (timerId tm) s) as [? ts ? ? ? ? ready fb ? ? ? ? ?].
  cbn [timers] in Hcleared.
  destruct (callback tm); cbn [chain] in Hcleared;
    unfold runCallback, handleVideoReady, clearFallbackTimeout, brightenAndFadeOut.
  - destruct fb as [fid|]; cbn -[budget].
    + pose proof (budget_filter (λ tm, timerId tm ≠ fid)
                    (ts ++ [mkTimer nextTimerId0 (now0 + Z.max 0 5500) SettleCallback])).
      rewrite budget_snoc in *. cbn [chain callback] in *. lia.
    + rewrite budget_snoc. cbn [chain callback]. lia.
  - cbn -[budget]. lia.
  - destruct ready; cbn -[budget]; [lia|].
    rewrite budget_snoc. cbn [chain callback]. lia.
  - destruct ready; cbn -[budget]; [lia|].
    rewrite budget_snoc. cbn [chain callback]. lia.
Qed.

Lemma runNext_budget cfg s :
  timers s ≠ [] →
  (budget (timers (runNext cfg s)) < budget (timers s))%nat.
Proof.
  intros Hts. unfold runNext.
  destruct (nextTimer (timers s)) as [tm|] eqn:Hnext.
  - apply nextTimer_elem in Hnext.
    replace (timers s) with (timers (set_now (Z.max (now s) (due tm)) s))
      by (by destruct s).
    apply fire_budget. by destruct s.
  - by apply nextTimer_None in Hnext.
Qed.

Lemma runNext_quiescent cfg s : timers s = [] → runNext cfg s = s.
Proof. intros Hts. unfold runNext. by rewrite Hts. Qed.

Lemma iter_runNext_quiescent cfg n : ∀ s,
  (budget (timers s) ≤ n)%nat → timers (Nat.iter n (runNext cfg) s) = [].
Proof.
  induction n as [|n IH]; intros s Hn.
  - apply budget_zero. cbn. lia.
  - rewrite Nat.iter_succ_r. apply IH.
    destruct (decide (timers s = [])) as [Hts|Hts].
    + rewrite runNext_quiescent by done. rewrite Hts. cbn. lia.
    + pose proof (runNext_budget cfg s Hts). lia.
Qed.

(** [run] ends with no timer pending. *)
Lemma run_quiescent cfg s : timers (run cfg s) = [].
Proof. unfold run. by apply iter_runNext_quiescent. Qed.

(** *** Convergence *)

Section Convergence.

Variable cfg : Config.
Variable page : Page.
Hypothesis page_iframe : hasIframe page = true.
Hypothesis page_container : hasContainer page = true.
Hypothesis page_vimeo : vimeo page ≠ VimeoNull.

Lemma Live_exec inputs s : Live s → Live (exec cfg page inputs s).
Proof.
  apply started_exec.
  - by intros s' ((? & _) & _).
  - intros t s' ?. by destruct s'.
  - intros tm s' ? ? _. by apply Live_fire.
  - intros s' ?. by destruct s'.
  - intros s' Hlive. unfold onReadyRejected.
    apply Live_useFallbackMethod, Sound_console_log.
    destruct Hlive as [? _]. by destruct s'.
  - apply Live_runListener.
Qed.

Lemma Live_run s : Live s → Live (run cfg s).
Proof.
  apply started_run.
  - intros t s' ?. by destruct s'.
  - intros tm s' ? ? _. by apply Live_fire.
Qed.

(** While the script waits for DOMContentLoaded nothing else moves it. *)
Lemma Live_exec_waiting inputs : ∀ s,
  Idle s → domContentLoadedListener s = true →
  DOMContentLoaded ∈ inputs →
  Live (exec cfg page inputs s).
Proof.
  induction inputs as [|i inputs IH]; intros s Hidle Hdom Hin.
  { by apply elem_of_nil in Hin. }
  change (exec cfg page (i :: inputs) s)
    with (exec cfg page inputs (step cfg page i s)).
  assert (i = DOMContentLoaded ∨ i ≠ DOMContentLoaded) as [->|Hi]
    by (destruct i; (by left) || (by right)).
  - apply Live_exec. cbn [step]. rewrite Hdom.
    apply Live_initVimeoPlayer; try done; by destruct s.
  - apply elem_of_cons in Hin as [<-|Hin]; [done|].
    apply IH; [| |done];
      destruct Hidle as (? & ? & ? & ? & ? & ? & ? & ?);
      destruct s; cbn in *; subst; by destruct i.
Qed.

End Convergence.

(** On a page with the two elements and motion allowed, where [Vimeo]
    is not [null], once the script has started the gate (at load, or at
    DOMContentLoaded when the document was still loading), every run
    converges: whatever the state of the Vimeo API (absent, Player
    missing, constructor throwing, working) and whatever arrives
    afterwards in whatever order (the ready promise rejecting, error
    events, genuine signals, or nothing at all), when the pending timers
    have run none is left, the container carries [video-loaded] and
    [video-fully-loaded], and the record has a reveal followed by a
    settle. *)
Lemma started_gate_converges
    (cfg : Config) (page : Page) (t0 : Z) (inputs : list Input) :
  prefersReducedMotion page = false →
  hasIframe page = true →
  hasContainer page = true →
  vimeo page ≠ VimeoNull →
  readyStateLoading page = false ∨ DOMContentLoaded ∈ inputs →
  let s := run cfg (exec cfg page inputs (load cfg page t0)) in
  timers s = []
  ∧ "video-loaded" ∈ classList s
  ∧ "video-fully-loaded" ∈ classList s
  ∧ settledAfterReveal (history s).
Proof.
  intros Hrm Hif Hco Hapi Hstarted s.
  assert (Live (exec cfg page inputs (load cfg page t0))) as Hlive.
  { unfold load, init, checkUserPreferences. rewrite Hrm. cbn [negb].
    destruct (readyStateLoading page) eqn:Hloading.
    - destruct Hstarted as [?|Hin]; [done|].
      by apply Live_exec_waiting.
    - apply Live_exec. by apply Live_initVimeoPlayer. }
  apply (Live_run cfg) in Hlive. fold s in Hlive.
  pose proof (run_quiescent cfg (exec cfg page inputs (load cfg page t0)))
    as Hts. fold s in Hts.
  destruct (Live_quiescent s Hlive Hts) as ((? & _) & (? & ?)). done.
Qed.

(** *** A [Vimeo] global that is [null] *)

(** After the exception the gate has a start time and nothing else, and
    no input moves it. *)
Lemma step_stalled cfg page i s :
  timers s = [] → listeners s = [] → readyPending s = false →
  domContentLoadedListener s = false →
  timers (step cfg page i s) = [] ∧ listeners (step cfg page i s) = []
  ∧ readyPending (step cfg page i s) = false
  ∧ domContentLoadedListener (step cfg page i s) = false
  ∧ isVideoReady (step cfg page i s) = isVideoReady s
  ∧ history (step cfg page i s) = history s
  ∧ classList (step cfg page i s) = classList s.
Proof.
  intros Hts Hls Hrp Hdom. destruct s; cbn in *; subst. by destruct i.
Qed.

Lemma exec_stalled cfg page inputs : ∀ s,
  timers s = [] → listeners s = [] → readyPending s = false →
  domContentLoadedListener s = false →
  timers (exec cfg page inputs s) = []
  ∧ isVideoReady (exec cfg page inputs s) = isVideoReady s
  ∧ history (exec cfg page inputs s) = history s
  ∧ classList (exec cfg page inputs s) = classList s.
Proof.
  unfold exec.
  induction inputs as [|i inputs IH]; intros s Hts Hls Hrp Hdom; cbn [foldl];
    [done|].
  destruct (step_stalled cfg page i s Hts Hls Hrp Hdom)
    as (Hts' & Hls' & Hrp' & Hdom' & <- & <- & <-).
  by apply IH.
Qed.

(** On a page with both elements whose [Vimeo] global is [null], the
    availability test of [initVimeoPlayer] throws a TypeError before the
    [try] block: the exception leaves [initVimeoPlayer] and [init] for
    their caller, with the start time set and no timer armed; and then,
    whatever inputs arrive and however long the page runs, no timer is
    ever pending, nothing is revealed or settled and the container keeps
    the classes of its markup. *)
Lemma null_vimeo_global_throws_and_never_reveals
    (t0 : Z) (classes : gset string) (inputs : list Input) :
  let page := mkPage false true true classes false VimeoNull in
  (∀ s, initVimeoPlayer CONFIG page s
        = Thrown "TypeError" (set_videoLoadStartTime (Some (now s)) s))
  ∧ init CONFIG page (initialState page t0)
    = Thrown "TypeError"
             (set_videoLoadStartTime (Some t0) (initialState page t0))
  ∧ timers (load CONFIG page t0) = []
  ∧ let s := run CONFIG (exec CONFIG page inputs (load CONFIG page t0)) in
    timers s = []
    ∧ isVideoReady s = false
    ∧ history s = []
    ∧ classList s = classes
    ∧ ¬ settledAfterReveal (history s).
Proof.
  intros page. split; [done|]. split; [done|]. split; [done|].
  destruct (exec_stalled CONFIG page inputs (load CONFIG page t0))
    as (Hts & Hready & Hh & Hcl); try done.
  cbv zeta.
  assert (run CONFIG (exec CONFIG page inputs (load CONFIG page t0))
          = exec CONFIG page inputs (load CONFIG page t0)) as ->.
  { unfold run. by rewrite Hts. }
  rewrite Hts, Hready, Hh, Hcl.
  repeat split; try done.
  intros (h1 & h2 & h3 & t1 & t2 & Heq). by destruct h1.
Qed.

(** *** The fallback timer is released by the reveal callback *)

Section Cancellation.

Variable cfg : Config.
Variable page : Page.

(** What [handleVideoReady] leaves alone: all but the timer table. *)
Lemma handleVideoReady_frame s :
  history (handleVideoReady cfg s) = history s
  ∧ fallbackTimer (handleVideoReady cfg s) = fallbackTimer s
  ∧ isVideoReady (handleVideoReady cfg s) = isVideoReady s
  ∧ domContentLoadedListener (handleVideoReady cfg s)
    = domContentLoadedListener s
  ∧ ∀ tm, tm ∈ timers s → tm ∈ timers (handleVideoReady cfg s).
Proof.
  unfold handleVideoReady. destruct (isVideoReady s) eqn:Hflag; [done|].
  destruct s; cbn in *. repeat split; try done.
  intros tm Hin. apply elem_of_app. by left.
Qed.

Lemma Once_frame s s' :
  history s' = history s → fallbackTimer s' = fallbackTimer s →
  domContentLoadedListener s' = domContentLoadedListener s →
  Once s → Once s'.
Proof. unfold Once. by intros -> -> ->. Qed.

Lemma Once_handleVideoReady s : Once s → Once (handleVideoReady cfg s).
Proof.
  destruct (handleVideoReady_frame s) as (? & ? & _ & ? & _).
  by apply Once_frame.
Qed.

Lemma Once_useFallbackMethod s : Once s → Once (useFallbackMethod s).
Proof. apply Once_frame; by destruct s. Qed.

Lemma Once_console_log message s : Once s → Once (console_log message s).
Proof. apply Once_frame; by destruct s. Qed.

Lemma Once_runListener name e s : Once s → Once (runListener cfg name e s).
Proof.
  intros Honce. destruct name, e; unfold runListener; try done;
    try (by apply Once_handleVideoReady).
  destruct (_ && _); [by apply Once_handleVideoReady | done].
Qed.

Lemma cancellations_snoc h e :
  cancellations (h ++ [e])
  = (cancellations h + if decide (e.2 = FallbackCancelled) then 1 else 0)%nat.
Proof. unfold cancellations. rewrite sum_list_with_app. cbn. lia. Qed.

Lemma Once_fire tm s : Once s → Once (fire cfg tm s).
Proof.
  intros Honce. unfold fire.
  assert (Once (clearTimeout (timerId tm) s)) as Hcleared.
  { revert Honce. apply Once_frame; by destruct s. }
  destruct (callback tm); unfold runCallback.
  - destruct Hcleared as [Hdom Hcount].
    unfold clearFallbackTimeout, brightenAndFadeOut.
    destruct (clearTimeout (timerId tm) s) as [? ? ? ? ? ? ? [fid|] ? ? ? ? ?];
      (split; [done|]); cbn -[cancellations] in *;
      rewrite !cancellations_snoc; cbn [snd];
      repeat case_decide; try done; lia.
  - destruct Hcleared as [Hdom Hcount].
    destruct (clearTimeout (timerId tm) s); (split; [done|]);
      cbn -[cancellations] in *.
    rewrite cancellations_snoc. cbn [snd].
    repeat case_decide; try done; lia.
  - destruct (negb _); [|done].
    by apply Once_handleVideoReady, Once_console_log.
  - destruct (negb _); [|done]. by apply Once_handleVideoReady.
Qed.

Lemma Once_or_idle_initVimeoPlayer s :
  Idle s → domContentLoadedListener s = false →
  Idle (stateOf (initVimeoPlayer cfg page s)) ∨ Once (stateOf (initVimeoPlayer cfg page s)).
Proof.
  intros (Hstart & Hts & Hls & Hrp & Hready & Hfb & Hpl & Hh) Hdom.
  unfold initVimeoPlayer.
  destruct (negb (hasIframe page) || negb (hasContainer page)).
  { left. by destruct s. }
  right. destruct s; cbn in *; subst.
  destruct (vimeo page) as [| |[]|]; split; cbn; done || lia.
Qed.

Lemma Once_or_idle_run inputs t0 :
  Idle (exec cfg page inputs (load cfg page t0))
  ∨ Once (exec cfg page inputs (load cfg page t0)).
Proof.
  apply idle_or_started_run.
  - by intros s [? _].
  - intros t s. apply Once_frame; by destruct s.
  - intros tm s ? _ _. by apply Once_fire.
  - intros s. apply Once_frame; by destruct s.
  - intros s ?. unfold onReadyRejected.
    apply Once_useFallbackMethod, Once_console_log.
    revert H. apply Once_frame; by destruct s.
  - apply Once_runListener.
  - apply Once_or_idle_initVimeoPlayer.
Qed.

(** Once the flag is set nothing arms a reveal any more. *)

Lemma recordedReveals_snoc h e :
  recordedReveals (h ++ [e])
  = (recordedReveals h + if decide (e.2 = Revealed) then 1 else 0)%nat.
Proof. unfold recordedReveals. rewrite sum_list_with_app. cbn. lia. Qed.

Lemma pendingReveals_snoc ts tm :
  pendingReveals (ts ++ [tm])
  = (pendingReveals ts
     + if decide (callback tm = RevealCallback) then 1 else 0)%nat.
Proof. unfold pendingReveals. rewrite sum_list_with_app. cbn. lia. Qed.

Lemma pendingReveals_filter (P : Timer → Prop) `{∀ tm, Decision (P tm)} ts :
  (pendingReveals (filter P ts) ≤ pendingReveals ts)%nat.
Proof. apply sum_list_with_filter. Qed.

Lemma quiet_handleVideoReady s :
  isVideoReady s = true → handleVideoReady cfg s = s.
Proof. intros Hflag. unfold handleVideoReady. by rewrite Hflag. Qed.

Lemma quiet_useFallbackMethod s :
  isVideoReady (useFallbackMethod s) = isVideoReady s
  ∧ reveals (useFallbackMethod s) = reveals s.
Proof.
  split; [by destruct s|]. unfold reveals.
  replace (history (useFallbackMethod s)) with (history s) by (by destruct s).
  replace (timers (useFallbackMethod s))
    with (timers s ++ [mkTimer (nextTimerId s) (now s + Z.max 0 3000)
                               FallbackMethodCallback])
    by (by destruct s).
  rewrite pendingReveals_snoc. cbn [callback].
  rewrite decide_False by done. lia.
Qed.

Lemma quiet_runListener name e s :
  isVideoReady s = true →
  isVideoReady (runListener cfg name e s) = true
  ∧ reveals (runListener cfg name e s) = reveals s.
Proof.
  intros Hflag. destruct name, e; unfold runListener; try done;
    rewrite ?quiet_handleVideoReady by done; try done.
  - by destruct (_ && _).
  - destruct (quiet_useFallbackMethod
                (console_log "Vimeo player error:" s)) as [-> ->].
    by destruct s.
Qed.

Lemma quiet_emit e s :
  isVideoReady s = true →
  isVideoReady (emit cfg e s) = true ∧ reveals (emit cfg e s) = reveals s.
Proof.
  unfold emit. generalize (listeners s) as names. intros names. revert s.
  induction names as [|name names IH]; intros s Hflag; cbn [foldl]; [done|].
  destruct (quiet_runListener name e s Hflag) as [Hflag' <-]. by apply IH.
Qed.

Lemma quiet_fire tm s :
  isVideoReady s = true → tm ∈ timers s →
  isVideoReady (fire cfg tm s) = true
  ∧ (reveals (fire cfg tm s) ≤ reveals s)%nat.
Proof.
  intros Hflag Hin. unfold fire, reveals.
  assert (pendingReveals (timers (clearTimeout (timerId tm) s))
          + (if decide (callback tm = RevealCallback) then 1 else 0)
          ≤ pendingReveals (timers s))%nat as Hcleared.
  { destruct s; cbn [timers clearTimeout set_timers] in *.
    apply (sum_list_with_filter_elem
             (λ tm, if decide (callback tm = RevealCallback) then 1 else 0)%nat);
      [done|]. by intros H. }
  assert (history (clearTimeout (timerId tm) s) = history s) as Hh
    by (by destruct s).
  assert (isVideoReady (clearTimeout (timerId tm) s) = true) as Hflag'
    by (by destruct s).
  rewrite <- Hh.
  destruct (clearTimeout (timerId tm) s) as [? ts ? ? ? ? ready fb ? ? ? ? h].
  cbn [timers history isVideoReady] in *. subst ready.
  destruct (callback tm);
    unfold runCallback, handleVideoReady, clearFallbackTimeout, brightenAndFadeOut.
  - rewrite decide_True in Hcleared by done.
    destruct fb as [fid|]; cbn -[recordedReveals pendingReveals]; (split; [done|]).
    + pose proof (pendingReveals_filter (λ tm, timerId tm ≠ fid)
                    (ts ++ [mkTimer nextTimerId0 (now0 + Z.max 0 5500) SettleCallback])).
      rewrite pendingReveals_snoc in *. rewrite !recordedReveals_snoc.
      cbn [snd callback] in *. repeat case_decide; try done; lia.
    + rewrite pendingReveals_snoc, recordedReveals_snoc.
      cbn [snd callback]. repeat case_decide; try done; lia.
  - cbn -[recordedReveals pendingReveals]. split; [done|].
    rewrite recordedReveals_snoc. cbn [snd].
    repeat case_decide; try done; lia.
  - cbn -[recordedReveals pendingReveals]. split; [done|]. lia.
  - cbn -[recordedReveals pendingReveals]. split; [done|]. lia.
Qed.

Lemma quiet_initVimeoPlayer s :
  isVideoReady (stateOf (initVimeoPlayer cfg page s)) = isVideoReady s
  ∧ reveals (stateOf (initVimeoPlayer cfg page s)) = reveals s.
Proof.
  unfold initVimeoPlayer, reveals.
  destruct (negb (hasIframe page) || negb (hasContainer page));
    [by destruct s|].
  destruct s; destruct (vimeo page) as [| |[]|];
    cbn -[recordedReveals pendingReveals]; (split; [done|]);
    try done;
    rewrite pendingReveals_snoc; cbn [callback];
    rewrite decide_False by done; lia.
Qed.

Lemma quiet_step i s :
  isVideoReady s = true →
  isVideoReady (step cfg page i s) = true
  ∧ (reveals (step cfg page i s) ≤ reveals s)%nat.
Proof.
  intros Hflag. destruct i; cbn [step].
  - by destruct s.
  - destruct (find _ _) as [tm|] eqn:Hfind; [|done].
    apply find_timer_elem in Hfind as [Hin _].
    destruct (due tm <=? now s); [|done]. by apply quiet_fire.
  - destruct (domContentLoadedListener s); [|done].
    destruct (quiet_initVimeoPlayer (set_domContentLoadedListener false s))
      as [-> ->]. by destruct s.
  - destruct (readyPending s); [|done]. by destruct s.
  - destruct (readyPending s); [|done]. unfold onReadyRejected.
    destruct (quiet_useFallbackMethod
                (console_log "Player ready error:" (set_readyPending false s)))
      as [-> ->]. by destruct s.
  - destruct (quiet_emit e s Hflag) as [-> ->]. done.
Qed.

Lemma Once_run s : Once s → Once (run cfg s).
Proof.
  apply started_run.
  - intros t s'. apply Once_frame; by destruct s'.
  - intros tm s' ? _ _. by apply Once_fire.
Qed.

Lemma Idle_run s : Idle s → run cfg s = s.
Proof. intros (_ & Hts & _). unfold run. by rewrite Hts. Qed.

End Cancellation.

(** C3 (as the code has it): [handleVideoReady] arms the reveal and
    leaves the fallback timer as it was, in the table and in
    [fallbackTimer]; it is the reveal callback, when it runs, that sets
    the flag, calls [clearTimeout] on the fallback timer and forgets it.
    In a run [clearTimeout(fallbackTimer)] is called at most once.  Once
    the flag is set it stays set and no input, a late error signal
    included, adds a reveal to those that ran or are armed. *)
Theorem fallback_released_when_reveal_runs :
  (∀ cfg s,
     fallbackTimer (handleVideoReady cfg s) = fallbackTimer s
     ∧ history (handleVideoReady cfg s) = history s
     ∧ ∀ tm, tm ∈ timers s → tm ∈ timers (handleVideoReady cfg s))
  ∧ (∀ cfg s,
       let s' := runCallback cfg RevealCallback s in
       isVideoReady s' = true
       ∧ fallbackTimer s' = None
       ∧ ∀ id, fallbackTimer s = Some id →
               (∀ tm, tm ∈ timers s' → timerId tm ≠ id)
               ∧ (now s, FallbackCancelled) ∈ history s')
  ∧ (∀ cfg page t0 inputs,
       (cancellations
          (history (run cfg (exec cfg page inputs (load cfg page t0)))) ≤ 1)%nat)
  ∧ (∀ cfg page i s,
       isVideoReady s = true →
       isVideoReady (step cfg page i s) = true
       ∧ (reveals (step cfg page i s) ≤ reveals s)%nat).
Proof.
  split; [|split; [|split]].
  - intros cfg s.
    destruct (handleVideoReady_frame cfg s) as (? & ? & _ & _ & ?). done.
  - intros cfg s.
    unfold runCallback, clearFallbackTimeout, brightenAndFadeOut.
    destruct s as [? ? ? ? ? ? ? [fid|] ? ? ? ? ?]; cbn;
      (split; [done|]); (split; [done|]); [|done].
    intros id [= <-]. split.
    + by intros tm [? _]%list_elem_of_filter.
    + apply elem_of_app. right. apply list_elem_of_here.
  - intros cfg page t0 inputs.
    destruct (Once_or_idle_run cfg page inputs t0) as [Hidle | Honce].
    + rewrite Idle_run by done.
      destruct Hidle as (_ & _ & _ & _ & _ & _ & _ & ->). cbn. lia.
    + apply (Once_run cfg) in Honce. destruct Honce as [_ Hcount]. lia.
  - intros cfg page i s. apply quiet_step.
Qed.

(** The theorem on the run where the reveal has run at 1500 ms and the
    player then emits an error. *)
Lemma fallback_released_when_reveal_runs_witness :
  let s := exec CONFIG heroPage
             [ReadyFulfilled; Elapse 200; Emit Play; Elapse 1300; TimerFires 2]
             (load CONFIG heroPage 0) in
  isVideoReady s = true
  ∧ isVideoReady (step CONFIG heroPage (Emit PlayerError) s) = true
  ∧ (reveals (step CONFIG heroPage (Emit PlayerError) s) ≤ reveals s)%nat.
Proof.
  cbv zeta.
  assert (isVideoReady
            (exec CONFIG heroPage
               [ReadyFulfilled; Elapse 200; Emit Play; Elapse 1300; TimerFires 2]
               (load CONFIG heroPage 0)) = true) as Hflag
    by (vm_compute; reflexivity).
  split; [exact Hflag|].
  exact (proj2 (proj2 (proj2 fallback_released_when_reveal_runs))
           CONFIG heroPage (Emit PlayerError) _ Hflag).
Defined.


(** C1: a call of [handleVideoReady] that finds the flag unset arms the
    reveal for exactly max(0, MIN_DISPLAY_TIME - elapsed) ms later, with
    elapsed = now - videoLoadStartTime; and on every page, under every
    configuration and whatever inputs arrive in whatever order after the
    script has loaded, each reveal that runs does so at least
    MIN_DISPLAY_TIME after the recorded start. *)
Theorem reveal_not_before_min_display_time :
  (∀ cfg s,
     timers (handleVideoReady cfg s)
     = if isVideoReady s then timers s
       else
         let elapsed := now s - toNumber (videoLoadStartTime s) in
         timers s
           ++ [mkTimer (nextTimerId s)
                       (now s + Z.max 0 (MIN_DISPLAY_TIME cfg - elapsed))
                       RevealCallback])
  ∧ (∀ cfg page t0 inputs t,
       let s := exec cfg page inputs (load cfg page t0) in
       (t, Revealed) ∈ history s →
       ∃ start,
         videoLoadStartTime s = Some start
         ∧ start + MIN_DISPLAY_TIME cfg ≤ t).
Proof.
  split.
  - intros cfg s. unfold handleVideoReady.
    destruct (isVideoReady s); [done|]. destruct s; cbn.
    do 3 f_equal. lia.
  - intros cfg page t0 inputs t s Hin.
    destruct (Timed_or_idle_run cfg page inputs t0)
      as [Hidle | (_ & start & Hstart & _ & Hh)].
    + destruct Hidle as (_ & _ & _ & _ & _ & _ & _ & Hnil).
      fold s in Hnil. rewrite Hnil in Hin. by apply elem_of_nil in Hin.
    + exists start. split; [done|]. by apply Hh.
Qed.

(** The theorem on the run where a play signal arrives 200 ms after the
    start and the reveal timer runs when it is due. *)
Lemma reveal_not_before_min_display_time_witness :
  ∃ start,
    videoLoadStartTime
      (exec CONFIG heroPage
         [ReadyFulfilled; Elapse 200; Emit Play; Elapse 1300; TimerFires 2]
         (load CONFIG heroPage 0)) = Some start
    ∧ start + MIN_DISPLAY_TIME CONFIG ≤ 1500.
Proof.
  apply (proj2 reveal_not_before_min_display_time CONFIG heroPage 0
           [ReadyFulfilled; Elapse 200; Emit Play; Elapse 1300; TimerFires 2]
           1500).
  apply (bool_decide_unpack _). vm_compute. exact I.
Defined.

End VideoLoaderFacts.

(** ** Video loader: further properties of runs *)

Module VideoLoaderRunsFacts.
Import VideoLoader VideoLoaderRuns VideoLoaderFacts.

(** *** Pages without the video elements *)

Lemma step_idle_no_elements cfg page i s :
  hasIframe page = false ∨ hasContainer page = false →
  Idle s →
  Idle (step cfg page i s) ∧ classList (step cfg page i s) = classList s.
Proof.
  intros Hmissing (Hstart & Hts & Hls & Hrp & Hready & Hfb & Hpl & Hh).
  destruct s; cbn in *; subst.
  destruct i; try done. cbn [step domContentLoadedListener].
  destruct domContentLoadedListener0; [|done].
  unfold initVimeoPlayer.
  by destruct Hmissing as [-> | ->]; rewrite ?orb_true_r.
Qed.

Lemma exec_idle_no_elements cfg page inputs : ∀ s,
  hasIframe page = false ∨ hasContainer page = false →
  Idle s →
  Idle (exec cfg page inputs s)
  ∧ classList (exec cfg page inputs s) = classList s.
Proof.
  unfold exec.
  induction inputs as [|i inputs IH]; intros s Hmissing Hidle; cbn [foldl]; [done|].
  destruct (step_idle_no_elements cfg page i s Hmissing Hidle) as [Hidle' Hcl].
  destruct (IH _ Hmissing Hidle') as [? Hcl']. split; [done|]. by rewrite Hcl'.
Qed.

(** X1: on a page that lacks the iframe or the container (and does not
    ask for reduced motion) the gate never starts: whatever inputs
    arrive, no timer is armed, no player is created, nothing is revealed
    and the container's classes stay those of the markup. *)
Theorem gate_never_starts_without_elements
    (cfg : Config) (page : Page) (t0 : Z) (inputs : list Input) :
  hasIframe page = false ∨ hasContainer page = false →
  prefersReducedMotion page = false →
  let s := exec cfg page inputs (load cfg page t0) in
  timers s = [] ∧ player s = None ∧ listeners s = []
  ∧ videoLoadStartTime s = None ∧ isVideoReady s = false
  ∧ history s = [] ∧ classList s = containerClasses page.
Proof.
  intros Hmissing Hrm s.
  assert (Idle (load cfg page t0)
          ∧ classList (load cfg page t0) = containerClasses page)
    as [Hidle Hcl].
  { unfold load, init, checkUserPreferences. rewrite Hrm. cbn [negb].
    destruct (readyStateLoading page); [done|].
    unfold initVimeoPlayer.
    by destruct Hmissing as [-> | ->]; rewrite ?orb_true_r. }
  destruct (exec_idle_no_elements cfg page inputs _ Hmissing Hidle)
    as ((? & ? & ? & ? & ? & ? & ? & ?) & Hcl').
  subst s. rewrite Hcl', Hcl. done.
Qed.

(** The theorem on a page without the iframe, over a run with a timer
    pick, the document's load event and a player event. *)
Lemma gate_never_starts_without_elements_witness :
  let page := mkPage false false true {["hero"]} true (VimeoLoaded false) in
  let s := exec CONFIG page
             [Elapse 100; DOMContentLoaded; Emit Play; Elapse 6000; TimerFires 1]
             (load CONFIG page 0) in
  timers s = [] ∧ player s = None ∧ listeners s = []
  ∧ videoLoadStartTime s = None ∧ isVideoReady s = false
  ∧ history s = [] ∧ classList s = {["hero"]}.
Proof.
  exact (gate_never_starts_without_elements
           CONFIG (mkPage false false true {["hero"]} true (VimeoLoaded false)) 0
           [Elapse 100; DOMContentLoaded; Emit Play; Elapse 6000; TimerFires 1]
           (or_introl eq_refl) eq_refl).
Defined.

(** *** Waiting for DOMContentLoaded *)

Lemma step_pageReady cfg page i s :
  step cfg (pageReady page) i s = step cfg page i s.
Proof. by destruct i. Qed.

Lemma exec_pageReady cfg page inputs : ∀ s,
  exec cfg (pageReady page) inputs s = exec cfg page inputs s.
Proof.
  unfold exec. induction inputs as [|i inputs IH]; intros s; cbn [foldl]; [done|].
  by rewrite step_pageReady, IH.
Qed.

(** X2: deferring the start to DOMContentLoaded changes nothing but the
    start time: a script loaded at [t0] while the document is loading,
    whose DOMContentLoaded comes [d] ms later, is from then on in the
    state of the same script loaded at [t0 + d] on the loaded page, and
    stays so under all further inputs. *)
Theorem deferred_start_is_a_later_start
    (cfg : Config) (page : Page) (t0 : Z) (d : N) (inputs : list Input) :
  readyStateLoading page = true →
  exec cfg page (Elapse d :: DOMContentLoaded :: inputs) (load cfg page t0)
  = exec cfg (pageReady page) inputs
         (load cfg (pageReady page) (t0 + Z.of_N d)).
Proof.
  intros Hloading. rewrite exec_pageReady.
  change (exec cfg page (Elapse d :: DOMContentLoaded :: inputs) (load cfg page t0))
    with (exec cfg page inputs
            (step cfg page DOMContentLoaded
               (step cfg page (Elapse d) (load cfg page t0)))).
  f_equal. unfold load, init, checkUserPreferences. cbn [pageReady prefersReducedMotion
    readyStateLoading hasContainer]. rewrite Hloading.
  destruct (prefersReducedMotion page); cbn [negb]; [by destruct (hasContainer page)|].
  reflexivity.
Qed.

Lemma deferred_start_is_a_later_start_witness :
  let page := mkPage false true true ∅ true (VimeoLoaded false) in
  exec CONFIG page [Elapse 40; DOMContentLoaded; ReadyFulfilled; Emit Play]
       (load CONFIG page 0)
  = exec CONFIG (pageReady page) [ReadyFulfilled; Emit Play]
         (load CONFIG (pageReady page) (0 + Z.of_N 40)).
Proof.
  exact (deferred_start_is_a_later_start
           CONFIG (mkPage false true true ∅ true (VimeoLoaded false)) 0 40
           [ReadyFulfilled; Emit Play] eq_refl).
Defined.

(** *** What no input changes *)

Lemma gains_refl cl : gains cl cl.
Proof. split; [done|]. intros token ?. by left. Qed.

Lemma gains_trans cl1 cl2 cl3 : gains cl1 cl2 → gains cl2 cl3 → gains cl1 cl3.
Proof.
  intros [Hkeep Hnew] [Hkeep' Hnew']. split.
  - intros token ?. by apply Hkeep', Hkeep.
  - intros token Hin. destruct (Hnew' token Hin) as [?|?]; [by apply Hnew|by right].
Qed.

Lemma gains_add token cl :
  token = "video-loaded" ∨ token = "video-fully-loaded" →
  gains cl (ClassList.add token cl).
Proof.
  intros Htoken. split.
  - intros token' ?. apply ClassListFacts.elem_of_add. by left.
  - intros token' [?|Heq]%ClassListFacts.elem_of_add; [by left|].
    right. by rewrite Heq.
Qed.

Section Frames.

Variable cfg : Config.
Variable page : Page.

Lemma handleVideoReady_keeps s :
  classList (handleVideoReady cfg s) = classList s
  ∧ videoLoadStartTime (handleVideoReady cfg s) = videoLoadStartTime s
  ∧ domContentLoadedListener (handleVideoReady cfg s)
    = domContentLoadedListener s.
Proof. unfold handleVideoReady. by destruct (isVideoReady s). Qed.

Lemma runListener_keeps name e s :
  classList (runListener cfg name e s) = classList s
  ∧ videoLoadStartTime (runListener cfg name e s) = videoLoadStartTime s
  ∧ domContentLoadedListener (runListener cfg name e s)
    = domContentLoadedListener s.
Proof.
  destruct name, e; unfold runListener; try done;
    try apply handleVideoReady_keeps.
  destruct (_ && _); [apply handleVideoReady_keeps|done].
Qed.

Lemma emit_keeps e s :
  classList (emit cfg e s) = classList s
  ∧ videoLoadStartTime (emit cfg e s) = videoLoadStartTime s
  ∧ domContentLoadedListener (emit cfg e s) = domContentLoadedListener s.
Proof.
  unfold emit. generalize (listeners s) as names. intros names. revert s.
  induction names as [|name names IH]; intros s; cbn [foldl]; [done|].
  destruct (IH (runListener cfg name e s)) as (-> & -> & ->).
  apply runListener_keeps.
Qed.

Lemma fire_keeps_start tm s :
  videoLoadStartTime (fire cfg tm s) = videoLoadStartTime s
  ∧ domContentLoadedListener (fire cfg tm s) = domContentLoadedListener s.
Proof.
  unfold fire, runCallback, clearFallbackTimeout.
  destruct (callback tm).
  - by destruct s as [? ? ? ? ? ? ? [fid|] ? ? ? ? ?].
  - done.
  - destruct (negb _); [|done].
    by destruct (handleVideoReady_keeps
                   (console_log "Video load timeout, using fallback"
                      (clearTimeout (timerId tm) s))) as (_ & -> & ->).
  - destruct (negb _); [|done].
    by destruct (handleVideoReady_keeps (clearTimeout (timerId tm) s))
      as (_ & -> & ->).
Qed.

Lemma StartedAt_exec t inputs s :
  StartedAt t s → StartedAt t (exec cfg page inputs s).
Proof.
  apply started_exec.
  - by intros s' [? _].
  - by intros t' s' ?.
  - intros tm s' [? ?] _ _.
    destruct (fire_keeps_start tm s') as [Hstart Hdom].
    split; congruence.
  - by intros s' ?.
  - by intros s' ?.
  - intros name e s' [? ?].
    destruct (runListener_keeps name e s') as (_ & Hstart & Hdom).
    split; congruence.
Qed.

(** The classes of the container before and after: none is lost, and
    only the two markers can be new. *)
Lemma fire_classes tm s : gains (classList s) (classList (fire cfg tm s)).
Proof.
  unfold fire, runCallback, clearFallbackTimeout.
  destruct (callback tm).
  - destruct s as [? ? ? cl ? ? ? [fid|] ? ? ? ? ?]; cbn; apply gains_add; by left.
  - destruct s as [? ? ? cl ? ? ? ? ? ? ? ? ?]; cbn; apply gains_add; by right.
  - destruct (negb _); [|apply gains_refl].
    destruct (handleVideoReady_keeps
                (console_log "Video load timeout, using fallback"
                   (clearTimeout (timerId tm) s))) as (-> & _).
    apply gains_refl.
  - destruct (negb _); [|apply gains_refl].
    destruct (handleVideoReady_keeps (clearTimeout (timerId tm) s)) as (-> & _).
    apply gains_refl.
Qed.

Lemma step_classes i s : gains (classList s) (classList (step cfg page i s)).
Proof.
  destruct i; cbn [step]; try apply gains_refl.
  - destruct (find _ _) as [tm|]; [|apply gains_refl].
    destruct (_ <=? _); [apply fire_classes | apply gains_refl].
  - destruct (domContentLoadedListener s); [|apply gains_refl].
    assert (classList (stateOf (initVimeoPlayer cfg page (set_domContentLoadedListener false s)))
            = classList s) as ->; [|apply gains_refl].
    unfold initVimeoPlayer. destruct (_ || _); [done|].
    by destruct (vimeo page) as [| |[]|].
  - destruct (readyPending s); apply gains_refl.
  - destruct (readyPending s); apply gains_refl.
  - destruct (emit_keeps e s) as (-> & _). apply gains_refl.
Qed.

Lemma exec_classes inputs : ∀ s,
  gains (classList s) (classList (exec cfg page inputs s)).
Proof.
  unfold exec. induction inputs as [|i inputs IH]; intros s; cbn [foldl].
  { apply gains_refl. }
  eapply gains_trans; [apply step_classes | apply IH].
Qed.

End Frames.

(** X3: the start time is recorded once: when a run has a start time,
    no further input changes it. *)
Theorem start_time_recorded_once
    (cfg : Config) (page : Page) (t0 t : Z) (inputs more : list Input) :
  videoLoadStartTime (exec cfg page inputs (load cfg page t0)) = Some t →
  videoLoadStartTime (exec cfg page (inputs ++ more) (load cfg page t0))
  = Some t.
Proof.
  intros Hstart.
  assert (StartedAt t (exec cfg page inputs (load cfg page t0))) as Hs.
  { split; [|done].
    destruct (Timed_or_idle_run cfg page inputs t0) as [Hidle | [? _]]; [|done].
    destruct Hidle as (Hnone & _). congruence. }
  unfold exec. rewrite foldl_app.
  by destruct (StartedAt_exec cfg page t more _ Hs).
Qed.

Lemma start_time_recorded_once_witness :
  videoLoadStartTime
    (exec CONFIG heroPage
       ([Elapse 200] ++ [ReadyFulfilled; Emit Play; Elapse 1300; TimerFires 2;
                         Emit PlayerError; DOMContentLoaded])
       (load CONFIG heroPage 7)) = Some 7.
Proof.
  exact (start_time_recorded_once CONFIG heroPage 7 7 [Elapse 200]
           [ReadyFulfilled; Emit Play; Elapse 1300; TimerFires 2;
            Emit PlayerError; DOMContentLoaded] eq_refl).
Defined.

(** X4: the script never takes a class off the container, and the only
    classes it ever puts on it are [video-loaded] and
    [video-fully-loaded]: on every run the container keeps the classes
    of its markup, and any other class found on it is one of the two
    markers. *)
Theorem container_classes_only_gain_markers
    (cfg : Config) (page : Page) (t0 : Z) (inputs : list Input) :
  let s := exec cfg page inputs (load cfg page t0) in
  (∀ token, token ∈ containerClasses page → token ∈ classList s)
  ∧ ∀ token, token ∈ classList s →
             token ∈ containerClasses page ∨ token = "video-loaded"
             ∨ token = "video-fully-loaded".
Proof.
  intros s.
  assert (gains (containerClasses page) (classList (load cfg page t0))) as Hload.
  { unfold load, init, checkUserPreferences.
    destruct (prefersReducedMotion page); cbn [negb].
    - destruct (hasContainer page); cbn; [apply gains_add; by left|apply gains_refl].
    - destruct (readyStateLoading page); [apply gains_refl|].
      assert (classList (stateOf (initVimeoPlayer cfg page (initialState page t0)))
              = containerClasses page) as ->; [|apply gains_refl].
      unfold initVimeoPlayer. destruct (_ || _); [done|].
      by destruct (vimeo page) as [| |[]|]. }
  exact (gains_trans _ _ _ Hload (exec_classes cfg page inputs _)).
Qed.

(** *** One ready signal *)

(** A table with the fallback timer and an earlier reveal: the reveal
    runs, releases the fallback timer, and the settle follows. *)
Lemma run_reveal_before_fallback cfg s fid rid dF dR :
  timers s = [mkTimer fid dF FallbackTimeoutCallback;
              mkTimer rid dR RevealCallback] →
  fid ≠ rid → (fid < nextTimerId s)%positive →
  fallbackTimer s = Some fid →
  dR < dF → now s ≤ dR →
  timers (run cfg s) = []
  ∧ classList (run cfg s)
    = ClassList.add "video-fully-loaded"
        (ClassList.add "video-loaded" (classList s))
  ∧ history (run cfg s)
    = history s ++ [(dR, Revealed); (dR, FallbackCancelled);
                    (dR + 5500, Settled)].
Proof.
  intros Hts Hne Hfresh Hfb Hlt Hnow.
  assert (run cfg s
          = runNext cfg (runNext cfg (runNext cfg
              (runNext cfg (runNext cfg s))))) as ->.
  { unfold run. by rewrite Hts. }
  assert (timers (runNext cfg s)
          = [mkTimer (nextTimerId s) (dR + 5500) SettleCallback]
          ∧ now (runNext cfg s) = dR
          ∧ classList (runNext cfg s) = ClassList.add "video-loaded" (classList s)
          ∧ history (runNext cfg s)
            = history s ++ [(dR, Revealed); (dR, FallbackCancelled)])
    as (Hts1 & Hnow1 & Hcl1 & Hh1).
  { unfold runNext. rewrite Hts. cbn [nextTimer due].
    rewrite (proj2 (Z.ltb_lt dR dF) Hlt).
    assert (filter (λ tm, timerId tm ≠ rid)
              [mkTimer fid dF FallbackTimeoutCallback;
               mkTimer rid dR RevealCallback]
            = [mkTimer fid dF FallbackTimeoutCallback]) as Hfilter.
    { rewrite filter_cons_True by done.
      rewrite filter_cons_False by (intros H; by apply H). done. }
    destruct s; cbn -[filter] in *; subst. rewrite Hfilter. cbn -[filter].
    rewrite filter_cons_False by (intros H; by apply H).
    rewrite filter_cons_True by (cbn; lia). rewrite filter_nil.
    replace (Z.max now0 dR) with dR by lia.
    by rewrite <- app_assoc. }
  destruct (runNext_settle cfg _ _ _ Hts1) as (_ & Hts2 & Hcl2 & Hh2).
  rewrite Hnow1 in Hh2.
  replace (Z.max dR (dR + 5500)) with (dR + 5500) in Hh2 by lia.
  rewrite !(runNext_quiescent cfg (runNext cfg (runNext cfg s))) by done.
  split; [done|]. split; [by rewrite Hcl2, Hcl1|].
  by rewrite Hh2, Hh1, <- app_assoc.
Qed.

Lemma handleVideoReady_arms cfg s :
  isVideoReady s = false →
  timers (handleVideoReady cfg s)
  = timers s
      ++ [mkTimer (nextTimerId s)
            (now s + Z.max 0 (Z.max 0 (MIN_DISPLAY_TIME cfg
                                        - (now s - toNumber (videoLoadStartTime s)))))
            RevealCallback]
  ∧ nextTimerId (handleVideoReady cfg s) = Pos.succ (nextTimerId s)
  ∧ fallbackTimer (handleVideoReady cfg s) = fallbackTimer s
  ∧ now (handleVideoReady cfg s) = now s
  ∧ classList (handleVideoReady cfg s) = classList s
  ∧ history (handleVideoReady cfg s) = history s.
Proof. intros Hflag. unfold handleVideoReady. rewrite Hflag. by destruct s. Qed.

(** With the three ready listeners subscribed after the error listener
    and the flag unset, a ready signal is one call of
    [handleVideoReady]. *)
Lemma emit_ready_signal cfg e s :
  listeners s = [OnError; OnPlay; OnBufferEnd; OnTimeUpdate] →
  isVideoReady s = false →
  isReadySignal e = true →
  emit cfg e s = handleVideoReady cfg s.
Proof.
  intros Hls Hflag He. unfold emit. rewrite Hls.
  destruct e as [| |seconds|]; try done.
  cbn [foldl runListener]. cbn [isReadySignal] in He.
  by rewrite He, Hflag.
Qed.

(** The state a ready signal leaves when it is the first thing to
    happen after the start. *)
Lemma signalled_state cfg t0 d e classes :
  isReadySignal e = true →
  let page := mkPage false true true classes false (VimeoLoaded false) in
  let s := exec cfg page [ReadyFulfilled; Elapse d; Emit e] (load cfg page t0) in
  let t := t0 + Z.of_N d in
  timers s
  = [mkTimer 1 (t0 + Z.max 0 (FALLBACK_TIMEOUT cfg)) FallbackTimeoutCallback;
     mkTimer 2 (t + Z.max 0 (Z.max 0 (MIN_DISPLAY_TIME cfg - (t - t0))))
             RevealCallback]
  ∧ nextTimerId s = 3%positive ∧ fallbackTimer s = Some 1%positive
  ∧ now s = t ∧ classList s = classes ∧ history s = [].
Proof.
  intros He page s t.
  set (s1 := exec cfg page [ReadyFulfilled; Elapse d] (load cfg page t0)).
  assert (timers s1
          = [mkTimer 1 (t0 + Z.max 0 (FALLBACK_TIMEOUT cfg)) FallbackTimeoutCallback]
          ∧ nextTimerId s1 = 2%positive ∧ fallbackTimer s1 = Some 1%positive
          ∧ now s1 = t ∧ classList s1 = classes ∧ history s1 = []
          ∧ videoLoadStartTime s1 = Some t0 ∧ isVideoReady s1 = false
          ∧ listeners s1 = [OnError; OnPlay; OnBufferEnd; OnTimeUpdate])
    as (Hts & Hnext & Hfb & Hnow & Hcl & Hh & Hstart & Hflag & Hls) by done.
  assert (s = handleVideoReady cfg s1) as ->.
  { rewrite <- (emit_ready_signal cfg e s1 Hls Hflag He). done. }
  destruct (handleVideoReady_arms cfg s1 Hflag)
    as (-> & -> & -> & -> & -> & ->).
  by rewrite Hts, Hnext, Hfb, Hnow, Hcl, Hh, Hstart.
Qed.

(** X5: one ready signal (play, bufferend, or a timeupdate past half a
    second) that arrives [d] ms after the start, before the fallback
    timeout, gives exactly one reveal, at the later of the signal and
    1500 ms after the start, one release of the fallback timer then, and
    exactly one settle 5500 ms after the reveal. *)
Theorem single_signal_reveals_once
    (t0 : Z) (d : N) (e : PlayerEvent) (classes : gset string) :
  isReadySignal e = true →
  Z.of_N d < 5000 →
  let page := mkPage false true true classes false (VimeoLoaded false) in
  let s := run CONFIG (exec CONFIG page [ReadyFulfilled; Elapse d; Emit e]
                            (load CONFIG page t0)) in
  let t := t0 + Z.max (Z.of_N d) 1500 in
  timers s = []
  ∧ classList s
    = ClassList.add "video-fully-loaded" (ClassList.add "video-loaded" classes)
  ∧ history s = [(t, Revealed); (t, FallbackCancelled); (t + 5500, Settled)].
Proof.
  intros He Hd page s t.
  destruct (signalled_state CONFIG t0 d e classes He)
    as (Hts & Hnext & Hfb & Hnow & Hcl & Hh).
  fold page in Hts, Hnext, Hfb, Hnow, Hcl, Hh.
  change (FALLBACK_TIMEOUT CONFIG) with 5000 in Hts.
  change (MIN_DISPLAY_TIME CONFIG) with 1500 in Hts.
  replace (t0 + Z.max 0 5000) with (t0 + 5000) in Hts by lia.
  replace (t0 + Z.of_N d
           + Z.max 0 (Z.max 0 (1500 - (t0 + Z.of_N d - t0)))) with t in Hts
    by (subst t; lia).
  destruct (run_reveal_before_fallback CONFIG _ 1 2 (t0 + 5000) t Hts)
    as (Hts' & Hcl' & Hh'); try done.
  { by rewrite Hnext. }
  { subst t. lia. }
  { rewrite Hnow. subst t. lia. }
  subst s. rewrite Hts', Hcl', Hh', Hcl, Hh. done.
Qed.

(** The theorem for a play signal 200 ms after a start at 0. *)
Lemma single_signal_reveals_once_witness :
  history (run CONFIG (exec CONFIG heroPage [ReadyFulfilled; Elapse 200; Emit Play]
                            (load CONFIG heroPage 0)))
  = [(0 + Z.max (Z.of_N 200) 1500, Revealed);
     (0 + Z.max (Z.of_N 200) 1500, FallbackCancelled);
     (0 + Z.max (Z.of_N 200) 1500 + 5500, Settled)].
Proof.
  exact (proj2 (proj2 (single_signal_reveals_once 0 200 Play ∅ eq_refl eq_refl))).
Defined.

(** *** Reveals and settles come in pairs *)

Lemma NoDup_fmap_filter {A B} (f : A → B) (P : A → Prop)
    `{∀ x, Decision (P x)} (l : list A) :
  NoDup (f <$> l) → NoDup (f <$> filter P l).
Proof.
  induction l as [|x l IH]; [done|].
  rewrite fmap_cons, NoDup_cons. intros [Hx Hl].
  rewrite filter_cons. destruct (decide (P x)); [|by apply IH].
  rewrite fmap_cons, NoDup_cons. split; [|by apply IH].
  intros (y & Hy & [_ Hin]%list_elem_of_filter)%list_elem_of_fmap.
  apply Hx. apply list_elem_of_fmap. by exists y.
Qed.

Lemma filter_all {A} (P : A → Prop) `{∀ x, Decision (P x)} (l : list A) :
  (∀ x, x ∈ l → P x) → filter P l = l.
Proof.
  induction l as [|x l IH]; intros Hall; [done|].
  rewrite filter_cons_True by (apply Hall, list_elem_of_here).
  f_equal. apply IH. intros y Hy. by apply Hall, list_elem_of_further.
Qed.

(** Removing the timer of a given id from a table without duplicate ids
    takes away that timer's weight and nothing else. *)
Lemma sum_list_with_remove_id (w : Timer → nat) ts tm :
  NoDup (timerId <$> ts) → tm ∈ ts →
  (sum_list_with w (filter (λ x, timerId x ≠ timerId tm) ts) + w tm)%nat
  = sum_list_with w ts.
Proof.
  induction ts as [|x ts IH]; intros Hnd Hin.
  { by apply elem_of_nil in Hin. }
  rewrite fmap_cons, NoDup_cons in Hnd. destruct Hnd as [Hx Hnd].
  rewrite filter_cons. apply elem_of_cons in Hin as [->|Hin].
  - rewrite decide_False by (intros H; by apply H).
    assert (filter (λ y, timerId y ≠ timerId x) ts = ts) as ->; [|cbn; lia].
    apply filter_all. intros y Hy Heq. apply Hx.
    rewrite <- Heq. by apply list_elem_of_fmap_2.
  - rewrite decide_True.
    + cbn [sum_list_with]. rewrite <- (IH Hnd Hin). lia.
    + intros Heq. apply Hx. rewrite Heq. by apply list_elem_of_fmap_2.
Qed.

Lemma sum_list_with_filter_weightless {A} (w : A → nat) (P : A → Prop)
    `{∀ x, Decision (P x)} l :
  (∀ x, x ∈ l → ¬ P x → w x = 0%nat) →
  sum_list_with w (filter P l) = sum_list_with w l.
Proof.
  induction l as [|x l IH]; intros Hw; [done|].
  rewrite filter_cons.
  assert (sum_list_with w (filter P l) = sum_list_with w l) as Hl.
  { apply IH. intros y Hy. apply Hw. by apply list_elem_of_further. }
  destruct (decide (P x)) as [|Hnot]; cbn [sum_list_with]; [by rewrite Hl|].
  rewrite Hl, (Hw x (list_elem_of_here _ _) Hnot). done.
Qed.

Lemma recordedSettles_snoc h e :
  recordedSettles (h ++ [e])
  = (recordedSettles h + if decide (e.2 = Settled) then 1 else 0)%nat.
Proof. unfold recordedSettles. rewrite sum_list_with_app. cbn. lia. Qed.

Lemma pendingSettles_snoc ts tm :
  pendingSettles (ts ++ [tm])
  = (pendingSettles ts
     + if decide (callback tm = SettleCallback) then 1 else 0)%nat.
Proof. unfold pendingSettles. rewrite sum_list_with_app. cbn. lia. Qed.

Ltac unfold_paired :=
  unfold Paired, distinctIds, fallbackTimerNamesFallback in *.

(** Arming a timer that is not a settle. *)
Lemma Paired_arm cb delay s :
  Paired s → cb ≠ SettleCallback → Paired (snd (setTimeout cb delay s)).
Proof.
  intros (Hdom & (Hfresh & Hnd & Hfb) & Hnames & Hcount) Hcb.
  unfold_paired. destruct s; cbn -[recordedSettles recordedReveals pendingSettles] in *.
  split; [done|]. split; [split; [|split]|split].
  - intros tm [Hin | ->%list_elem_of_singleton]%elem_of_app;
      [apply Hfresh in Hin|cbn]; lia.
  - rewrite fmap_app. apply NoDup_app. split; [done|]. split; [|apply NoDup_singleton].
    intros id (tm & -> & Hin)%list_elem_of_fmap Heq%list_elem_of_singleton.
    apply Hfresh in Hin. cbn in Heq. lia.
  - intros id Hid. apply Hfb in Hid. lia.
  - intros tm [Hin | ->%list_elem_of_singleton]%elem_of_app Hid;
      [by apply Hnames|]. cbn in Hid. apply Hfb in Hid. lia.
  - rewrite pendingSettles_snoc. cbn [callback].
    rewrite decide_False by done. lia.
Qed.

Lemma Paired_handleVideoReady cfg s : Paired s → Paired (handleVideoReady cfg s).
Proof.
  intros Hp. unfold handleVideoReady. destruct (isVideoReady s); [done|].
  by apply Paired_arm.
Qed.

Lemma Paired_runListener cfg name e s :
  Paired s → Paired (runListener cfg name e s).
Proof.
  intros Hp. destruct name, e; unfold runListener; try done;
    try (by apply Paired_handleVideoReady).
  - destruct (_ && _); [by apply Paired_handleVideoReady | done].
  - unfold useFallbackMethod. by apply Paired_arm.
Qed.

(** The timer that runs leaves the table. *)
Lemma Paired_clearTimeout_fired tm s :
  Paired s → tm ∈ timers s →
  domContentLoadedListener (clearTimeout (timerId tm) s) = false
  ∧ distinctIds (clearTimeout (timerId tm) s)
  ∧ fallbackTimerNamesFallback (clearTimeout (timerId tm) s)
  ∧ (recordedSettles (history s)
     + (pendingSettles (timers (clearTimeout (timerId tm) s))
        + if decide (callback tm = SettleCallback) then 1 else 0))%nat
    = recordedReveals (history s).
Proof.
  intros (Hdom & (Hfresh & Hnd & Hfb) & Hnames & Hcount) Hin.
  unfold_paired. destruct s; cbn -[recordedSettles recordedReveals pendingSettles] in *.
  split; [done|]. split; [split; [|split; [|done]]|split].
  - intros tm' [_ Hin']%list_elem_of_filter. by apply Hfresh.
  - by apply NoDup_fmap_filter.
  - intros tm' [_ Hin']%list_elem_of_filter. by apply Hnames.
  - unfold pendingSettles in *.
    pose proof (sum_list_with_remove_id
                  (λ tm, if decide (callback tm = SettleCallback) then 1 else 0)%nat
                  _ _ Hnd Hin) as Hrem.
    cbn beta in Hrem. lia.
Qed.

Lemma Paired_fire cfg tm s : Paired s → tm ∈ timers s → Paired (fire cfg tm s).
Proof.
  intros Hp Hin. unfold fire.
  destruct (Paired_clearTimeout_fired tm s Hp Hin)
    as (Hdom & (Hfresh & Hnd & Hfb) & Hnames & Hcount).
  assert (history (clearTimeout (timerId tm) s) = history s) as Hh
    by (by destruct s).
  rewrite <- Hh in Hcount.
  destruct (callback tm) eqn:Hcb; unfold runCallback.
  - rewrite decide_False in Hcount by done.
    unfold clearFallbackTimeout, brightenAndFadeOut. unfold_paired.
    destruct (clearTimeout (timerId tm) s) as [? ts ? ? ? ? ? [fid|] ? ? ? ? h];
      cbn -[recordedSettles recordedReveals pendingSettles] in *.
    + specialize (Hfb fid eq_refl).
      split; [done|]. split; [split; [|split; [|done]]|split; [done|]].
      * intros tm' [_ [Hin' | ->%list_elem_of_singleton]%elem_of_app]%list_elem_of_filter;
          [apply Hfresh in Hin'|cbn]; lia.
      * apply NoDup_fmap_filter. rewrite fmap_app. apply NoDup_app.
        split; [done|]. split; [|apply NoDup_singleton].
        intros id (tm' & -> & Hin')%list_elem_of_fmap Heq%list_elem_of_singleton.
        apply Hfresh in Hin'. cbn in Heq. lia.
      * unfold pendingSettles in *.
        rewrite sum_list_with_filter_weightless.
        -- unfold recordedSettles, recordedReveals in *.
           rewrite !sum_list_with_app. cbn [sum_list_with snd callback].
           repeat case_decide; try done; lia.
        -- intros tm' [Hin' | ->%list_elem_of_singleton]%elem_of_app Hid.
           ++ apply dec_stable in Hid.
              rewrite decide_False; [done|].
              rewrite (Hnames tm' Hin'); [done|by rewrite Hid].
           ++ apply dec_stable in Hid. cbn in Hid. lia.
    + split; [done|]. split; [split; [|split; [|done]]|split; [done|]].
      * intros tm' [Hin' | ->%list_elem_of_singleton]%elem_of_app;
          [apply Hfresh in Hin'|cbn]; lia.
      * rewrite fmap_app. apply NoDup_app.
        split; [done|]. split; [|apply NoDup_singleton].
        intros id (tm' & -> & Hin')%list_elem_of_fmap Heq%list_elem_of_singleton.
        apply Hfresh in Hin'. cbn in Heq. lia.
      * unfold pendingSettles, recordedSettles, recordedReveals in *.
        rewrite !sum_list_with_app. cbn [sum_list_with snd callback].
        repeat case_decide; try done; lia.
  - rewrite decide_True in Hcount by done. unfold_paired.
    destruct (clearTimeout (timerId tm) s);
      cbn -[recordedSettles recordedReveals pendingSettles] in *.
    split; [done|]. split; [done|]. split; [done|].
    unfold pendingSettles, recordedSettles, recordedReveals in *.
    rewrite !sum_list_with_app. cbn [sum_list_with snd callback].
    repeat case_decide; try done; lia.
  - rewrite decide_False in Hcount by done.
    assert (Paired (clearTimeout (timerId tm) s)) as Hp'.
    { split; [done|]. split; [done|]. split; [done|]. lia. }
    destruct (negb _); [|done]. by apply Paired_handleVideoReady.
  - rewrite decide_False in Hcount by done.
    assert (Paired (clearTimeout (timerId tm) s)) as Hp'.
    { split; [done|]. split; [done|]. split; [done|]. lia. }
    destruct (negb _); [|done]. by apply Paired_handleVideoReady.
Qed.

Lemma Paired_or_idle_initVimeoPlayer cfg page s :
  Idle s → domContentLoadedListener s = false →
  Idle (stateOf (initVimeoPlayer cfg page s)) ∨ Paired (stateOf (initVimeoPlayer cfg page s)).
Proof.
  intros (Hstart & Hts & Hls & Hrp & Hready & Hfb & Hpl & Hh) Hdom.
  unfold initVimeoPlayer.
  destruct (negb (hasIframe page) || negb (hasContainer page)).
  { left. by destruct s. }
  right. unfold_paired. destruct s; cbn in *; subst.
  destruct (vimeo page) as [| |[]|]; cbn;
    (split; [done|]); (split; [split; [|split]|split; [|done]]);
    try (intros ?; discriminate).
  all: try (intros tm ->%list_elem_of_singleton; cbn; lia).
  all: try apply NoDup_singleton.
  all: try (intros tm ->%list_elem_of_singleton; done).
  all: try (by intros tm ?%elem_of_nil).
  all: try (by apply NoDup_nil).
  intros id [= <-]. lia.
Qed.

Lemma Paired_or_idle_run cfg page inputs t0 :
  Idle (exec cfg page inputs (load cfg page t0))
  ∨ Paired (exec cfg page inputs (load cfg page t0)).
Proof.
  apply idle_or_started_run.
  - by intros s (? & _).
  - by intros t s ?.
  - intros tm s ? ? _. by apply Paired_fire.
  - by intros s ?.
  - intros s ?. unfold onReadyRejected, useFallbackMethod. by apply Paired_arm.
  - apply Paired_runListener.
  - apply Paired_or_idle_initVimeoPlayer.
Qed.

Lemma Paired_run cfg s : Paired s → Paired (run cfg s).
Proof.
  apply started_run.
  - by intros t s' ?.
  - intros tm s' ? ? _. by apply Paired_fire.
Qed.

(** X6: reveals and settles come in pairs.  At every point of every run
    the settles that ran plus the settle timers still pending are as
    many as the reveals that ran: each reveal arms one settle and no
    settle timer is ever cancelled.  So when the timers have run out,
    as many settles as reveals have run. *)
Theorem every_reveal_gets_its_settle
    (cfg : Config) (page : Page) (t0 : Z) (inputs : list Input) :
  let s := exec cfg page inputs (load cfg page t0) in
  (recordedSettles (history s) + pendingSettles (timers s))%nat
  = recordedReveals (history s)
  ∧ recordedSettles (history (run cfg s)) = recordedReveals (history (run cfg s)).
Proof.
  intros s. destruct (Paired_or_idle_run cfg page inputs t0) as [Hidle | Hp];
    fold s in Hidle || fold s in Hp.
  - rewrite (Idle_run cfg s Hidle).
    destruct Hidle as (_ & -> & _ & _ & _ & _ & _ & ->). done.
  - split; [apply Hp|].
    destruct (Paired_run cfg s Hp) as (_ & _ & _ & Hcount).
    rewrite run_quiescent in Hcount. cbn in Hcount. lia.
Qed.

End VideoLoaderRunsFacts.

(** ** Video loader: the failure modes *)

Module VideoLoaderRecoveryFacts.
Import VideoLoader VideoLoaderRuns VideoLoaderFacts VideoLoaderRunsFacts.

Lemma run_after_runNext cfg s :
  budget (timers s) = S (budget (timers (runNext cfg s))) →
  run cfg s = run cfg (runNext cfg s).
Proof. intros Hb. unfold run. by rewrite Hb, Nat.iter_succ_r. Qed.

(** The forced path's timer runs before the fallback timer: its
    callback calls [handleVideoReady], which arms the reveal. *)
Lemma runNext_forced_before_fallback cfg s fid mid dF dM start :
  timers s = [mkTimer fid dF FallbackTimeoutCallback;
              mkTimer mid dM FallbackMethodCallback] →
  fid ≠ mid →
  isVideoReady s = false →
  videoLoadStartTime s = Some start →
  dM < dF → now s ≤ dM →
  timers (runNext cfg s)
  = [mkTimer fid dF FallbackTimeoutCallback;
     mkTimer (nextTimerId s) (dM + Z.max 0 (MIN_DISPLAY_TIME cfg - (dM - start)))
             RevealCallback]
  ∧ nextTimerId (runNext cfg s) = Pos.succ (nextTimerId s)
  ∧ fallbackTimer (runNext cfg s) = fallbackTimer s
  ∧ now (runNext cfg s) = dM
  ∧ classList (runNext cfg s) = classList s
  ∧ history (runNext cfg s) = history s.
Proof.
  intros Hts Hne Hflag Hstart Hlt Hnow.
  unfold runNext. rewrite Hts. cbn [nextTimer due].
  rewrite (proj2 (Z.ltb_lt dM dF) Hlt).
  assert (filter (λ tm, timerId tm ≠ mid)
            [mkTimer fid dF FallbackTimeoutCallback;
             mkTimer mid dM FallbackMethodCallback]
          = [mkTimer fid dF FallbackTimeoutCallback]) as Hfilter.
  { rewrite filter_cons_True by done.
    rewrite filter_cons_False by (intros H; by apply H). done. }
  destruct s; cbn -[filter] in *; subst.
  unfold handleVideoReady, clearTimeout. cbn -[filter]. rewrite Hfilter. cbn.
  replace (Z.max now0 dM) with dM by lia.
  repeat split; try done. do 3 f_equal. lia.
Qed.

Lemma run_forced_before_fallback cfg s fid mid dF dM start :
  timers s = [mkTimer fid dF FallbackTimeoutCallback;
              mkTimer mid dM FallbackMethodCallback] →
  fid ≠ mid → (fid < nextTimerId s)%positive →
  fallbackTimer s = Some fid →
  isVideoReady s = false →
  videoLoadStartTime s = Some start →
  let dR := dM + Z.max 0 (MIN_DISPLAY_TIME cfg - (dM - start)) in
  dR < dF → now s ≤ dM →
  timers (run cfg s) = []
  ∧ classList (run cfg s)
    = ClassList.add "video-fully-loaded"
        (ClassList.add "video-loaded" (classList s))
  ∧ history (run cfg s)
    = history s ++ [(dR, Revealed); (dR, FallbackCancelled);
                    (dR + 5500, Settled)].
Proof.
  intros Hts Hne Hfresh Hfb Hflag Hstart dR HdR Hnow.
  destruct (runNext_forced_before_fallback cfg s fid mid dF dM start)
    as (Hts1 & Hnext1 & Hfb1 & Hnow1 & Hcl1 & Hh1); try done; [lia|].
  rewrite run_after_runNext by (by rewrite Hts, Hts1).
  destruct (run_reveal_before_fallback cfg (runNext cfg s) fid (nextTimerId s)
              dF dR) as (Hts2 & Hcl2 & Hh2); try done.
  - lia.
  - rewrite Hnext1. lia.
  - by rewrite Hfb1.
  - rewrite Hnow1. lia.
  - by rewrite Hts2, Hcl2, Hh2, Hcl1, Hh1.
Qed.

(** The state after the ready promise was rejected, or an error event
    was emitted, [d] ms after the start: the forced path's timer is
    armed beside the fallback timer. *)
Lemma failed_state cfg t0 d classes (inputs : list Input) :
  inputs = [Elapse d; ReadyRejected]
  ∨ inputs = [Elapse d; Emit PlayerError]
  ∨ inputs = [ReadyFulfilled; Elapse d; Emit PlayerError] →
  let page := mkPage false true true classes false (VimeoLoaded false) in
  let s := exec cfg page inputs (load cfg page t0) in
  timers s
  = [mkTimer 1 (t0 + Z.max 0 (FALLBACK_TIMEOUT cfg)) FallbackTimeoutCallback;
     mkTimer 2 (t0 + Z.of_N d + 3000) FallbackMethodCallback]
  ∧ nextTimerId s = 3%positive ∧ fallbackTimer s = Some 1%positive
  ∧ now s = t0 + Z.of_N d ∧ classList s = classes ∧ history s = []
  ∧ videoLoadStartTime s = Some t0 ∧ isVideoReady s = false.
Proof. by intros [->|[->| ->]]. Qed.

(** C4: every failure mode ends in the forced reveal, and none lets an
    error out.  With the page's two elements present and motion allowed:

    - the API absent ([Vimeo] or [Vimeo.Player] undefined) or the Player
      constructor throwing: [init] returns, [useFallbackMethod] has
      armed its timer for 3000 ms after the start, and the reveal is
      recorded then;
    - the ready promise rejecting, or the player emitting an error
      event (before or after the promise resolved), [d] ms after the
      start with [d] below 2000: [useFallbackMethod] arms its timer for
      3000 ms later, beside the fallback timer, and the reveal is
      recorded at [d + 3000] ms, the fallback timer being released then;
    - no signal at all: the fallback timer, armed at the start, runs at
      5000 ms and the reveal is recorded then;
    - the callbacks of the two timers are the same recovery: unless the
      flag is set they call [handleVideoReady];
    - in each case the settle follows 5500 ms after the reveal.

    And in general, for every state of the Vimeo API that
    [initVimeoPlayer] tests for (absent, Player undefined, constructor
    throwing, working), [initVimeoPlayer] returns to its caller, and
    whatever arrives afterwards in whatever order, when the pending
    timers have run none is left, the container carries [video-loaded]
    and [video-fully-loaded] and the record has a reveal followed by a
    settle. *)
Theorem every_failure_mode_forces_the_reveal
    (t0 : Z) (d : N) (classes : gset string) :
  Z.of_N d < 2000 →
  let absent api := mkPage false true true classes false api in
  let page := mkPage false true true classes false (VimeoLoaded false) in
  let forced s :=
    timers s
    = [mkTimer 1 (t0 + 5000) FallbackTimeoutCallback;
       mkTimer 2 (t0 + Z.of_N d + 3000) FallbackMethodCallback]
    ∧ history (run CONFIG s)
      = [(t0 + Z.of_N d + 3000, Revealed);
         (t0 + Z.of_N d + 3000, FallbackCancelled);
         (t0 + Z.of_N d + 8500, Settled)] in
  (∀ api,
     api = VimeoUndefined ∨ api = VimeoPlayerUndefined
     ∨ api = VimeoLoaded true →
     init CONFIG (absent api) (initialState (absent api) t0)
     = Returned (load CONFIG (absent api) t0)
     ∧ timers (load CONFIG (absent api) t0)
       = [mkTimer 1 (t0 + 3000) FallbackMethodCallback]
     ∧ history (run CONFIG (load CONFIG (absent api) t0))
       = [(t0 + 3000, Revealed); (t0 + 8500, Settled)])
  ∧ forced (exec CONFIG page [Elapse d; ReadyRejected] (load CONFIG page t0))
  ∧ forced (exec CONFIG page [Elapse d; Emit PlayerError] (load CONFIG page t0))
  ∧ forced (exec CONFIG page [ReadyFulfilled; Elapse d; Emit PlayerError]
                 (load CONFIG page t0))
  ∧ (init CONFIG page (initialState page t0) = Returned (load CONFIG page t0)
     ∧ timers (load CONFIG page t0)
       = [mkTimer 1 (t0 + 5000) FallbackTimeoutCallback]
     ∧ history (run CONFIG (load CONFIG page t0))
       = [(t0 + 5000, Revealed); (t0 + 5000, FallbackCancelled);
          (t0 + 10500, Settled)])
  ∧ (∀ s,
       runCallback CONFIG FallbackMethodCallback s
       = (if isVideoReady s then s else handleVideoReady CONFIG s)
       ∧ runCallback CONFIG FallbackTimeoutCallback s
         = (if isVideoReady s then s
            else handleVideoReady CONFIG
                   (console_log "Video load timeout, using fallback" s)))
  ∧ (∀ (page' : Page) (inputs : list Input),
       prefersReducedMotion page' = false →
       hasIframe page' = true →
       hasContainer page' = true →
       (vimeo page' = VimeoUndefined ∨ vimeo page' = VimeoPlayerUndefined
        ∨ ∃ constructorThrows, vimeo page' = VimeoLoaded constructorThrows) →
       readyStateLoading page' = false ∨ DOMContentLoaded ∈ inputs →
       (∀ s, ∃ s', initVimeoPlayer CONFIG page' s = Returned s')
       ∧ let s := run CONFIG (exec CONFIG page' inputs (load CONFIG page' t0)) in
         timers s = []
         ∧ "video-loaded" ∈ classList s
         ∧ "video-fully-loaded" ∈ classList s
         ∧ settledAfterReveal (history s)).
Proof.
  intros Hd absent page forced.
  assert (∀ inputs,
            inputs = [Elapse d; ReadyRejected]
            ∨ inputs = [Elapse d; Emit PlayerError]
            ∨ inputs = [ReadyFulfilled; Elapse d; Emit PlayerError] →
            forced (exec CONFIG page inputs (load CONFIG page t0)))
    as Hforced.
  { intros inputs Hin. subst forced. cbv beta.
    destruct (failed_state CONFIG t0 d classes inputs Hin)
      as (Hts & Hnext & Hfb & Hnow & Hcl & Hh & Hstart & Hflag).
    fold page in Hts, Hnext, Hfb, Hnow, Hcl, Hh, Hstart, Hflag.
    cbn [FALLBACK_TIMEOUT CONFIG] in Hts.
    replace (t0 + Z.max 0 5000) with (t0 + 5000) in Hts by lia.
    split; [done|].
    destruct (run_forced_before_fallback CONFIG
                (exec CONFIG page inputs (load CONFIG page t0))
                1 2 (t0 + 5000) (t0 + Z.of_N d + 3000) t0)
      as (_ & _ & Hrun); try done.
    - by rewrite Hnext.
    - cbn [MIN_DISPLAY_TIME CONFIG]. lia.
    - rewrite Hnow. lia.
    - rewrite Hrun, Hh. cbn [MIN_DISPLAY_TIME CONFIG app].
      replace (t0 + Z.of_N d + 3000
               + Z.max 0 (1500 - (t0 + Z.of_N d + 3000 - t0)))
        with (t0 + Z.of_N d + 3000) by lia.
      by replace (t0 + Z.of_N d + 3000 + 5500)
        with (t0 + Z.of_N d + 8500) by lia. }
  split.
  { intros api Hapi. subst absent. cbv beta.
    set (pg := mkPage false true true classes false api).
    assert (init CONFIG pg (initialState pg t0) = Returned (load CONFIG pg t0)
            ∧ timers (load CONFIG pg t0)
              = [mkTimer 1 (t0 + 3000) FallbackMethodCallback]
            ∧ isVideoReady (load CONFIG pg t0) = false
            ∧ videoLoadStartTime (load CONFIG pg t0) = Some t0
            ∧ fallbackTimer (load CONFIG pg t0) = None
            ∧ now (load CONFIG pg t0) = t0
            ∧ history (load CONFIG pg t0) = [])
      as (Hinit & Hts & Hflag & Hstart & Hfb & Hnow & Hh).
    { subst pg. by destruct Hapi as [->|[->| ->]]. }
    split; [done|]. split; [done|].
    destruct (run_from_fallback CONFIG (load CONFIG pg t0) 1 (t0 + 3000)
                FallbackMethodCallback t0) as (_ & _ & _ & Hrun); auto.
    { by rewrite Hfb. }
    { lia. }
    rewrite Hrun, Hh, Hfb. cbn [MIN_DISPLAY_TIME CONFIG app].
    replace (t0 + 3000 + Z.max 0 (1500 - (t0 + 3000 - t0)))
      with (t0 + 3000) by lia.
    by replace (t0 + 3000 + 5500) with (t0 + 8500) by lia. }
  split; [apply Hforced; by left|].
  split; [apply Hforced; right; by left|].
  split; [apply Hforced; right; by right|].
  split.
  { split; [done|]. split; [done|].
    destruct (run_from_fallback CONFIG (load CONFIG page t0) 1 (t0 + 5000)
                FallbackTimeoutCallback t0) as (_ & _ & _ & Hrun); auto.
    { cbn. lia. }
    rewrite Hrun. cbn [MIN_DISPLAY_TIME CONFIG].
    replace (t0 + 5000 + Z.max 0 (1500 - (t0 + 5000 - t0)))
      with (t0 + 5000) by lia.
    by replace (t0 + 5000 + 5500) with (t0 + 10500) by lia. }
  split.
  { intros s. split; cbn [runCallback]; by destruct (isVideoReady s). }
  intros page' inputs Hrm Hif Hco Hapi Hstarted. split.
  - intros s. unfold initVimeoPlayer. rewrite Hif, Hco. cbn [negb orb].
    destruct Hapi as [->|[->|[[] ->]]]; cbn; eauto.
  - apply started_gate_converges; try done.
    destruct Hapi as [->|[->|[? ->]]]; done.
Qed.

(** The theorem for a ready promise that rejects 200 ms after a start at
    time 0. *)
Lemma every_failure_mode_forces_the_reveal_witness :
  history (run CONFIG
             (exec CONFIG (mkPage false true true ∅ false (VimeoLoaded false))
                   [Elapse 200; ReadyRejected]
                   (load CONFIG (mkPage false true true ∅ false (VimeoLoaded false)) 0)))
  = [(3200, Revealed); (3200, FallbackCancelled); (8700, Settled)].
Proof.
  assert (Z.of_N 200 < 2000) as Hd by (cbn; lia).
  destruct (every_failure_mode_forces_the_reveal 0 200 ∅ Hd)
    as (_ & (_ & Hhistory) & _).
  exact Hhistory.
Defined.

End VideoLoaderRecoveryFacts.

(** ** Facts about the header scroll handler, continued *)

Module HeaderScrollMoreFacts.
Import HeaderScroll HeaderScrollFacts.

(** Case analysis on the listener's tests, membership unfolded through
    every [add] and [remove]. *)
Ltac tokens :=
  repeat match goal with
         | |- context [if ?b then _ else _] => destruct b eqn:?
         end;
  rewrite ?andb_true_iff, ?andb_false_iff, ?negb_true_iff, ?negb_false_iff,
    ?ClassListFacts.contains_true, ?ClassListFacts.contains_false in *;
  repeat (rewrite ClassListFacts.elem_of_remove in *
          || rewrite ClassListFacts.elem_of_add in * );
  intuition congruence.

Lemma scrolls_snoc events y h :
  scrolls (events ++ [y]) h = onScroll y (scrolls events h).
Proof. unfold scrolls. by rewrite foldl_app. Qed.

(** X7: after any scroll event the header carries [scrolled] exactly
    when that event's position is above 50 px, whatever the header's
    classes and the scroll history before. *)
Theorem scrolled_reflects_last_position
    (events : list Z) (y : Z) (classes : gset string) :
  "scrolled" ∈ classList (scrolls (events ++ [y]) (initHeaderScroll classes))
  ↔ 50 < y.
Proof.
  rewrite scrolls_snoc. generalize (scrolls events (initHeaderScroll classes)).
  intros h. unfold onScroll; cbn [classList].
  destruct (Z.ltb_spec 50 y) as [Hy|Hy]; split.
  - by intros _.
  - intros _. tokens.
  - intros Hin. exfalso. revert Hin. tokens.
  - lia.
Qed.

Lemma onScroll_other_tokens y h token :
  token ≠ "scrolled" → token ≠ "scroll-down" → token ≠ "scroll-up" →
  token ∈ classList (onScroll y h) ↔ token ∈ classList h.
Proof. intros ? ? ?. unfold onScroll; cbn [classList]. split; tokens. Qed.

Lemma onScroll_below_threshold y h token :
  y ≤ scrollThreshold → token ≠ "scrolled" →
  token ∈ classList (onScroll y h) ↔ token ∈ classList h.
Proof.
  intros Hy ?. unfold onScroll; cbn [classList].
  destruct (Z.ltb_spec scrollThreshold y); [lia|]. split; tokens.
Qed.

(** X8: the scroll handler touches no class other than [scrolled],
    [scroll-down] and [scroll-up]; and while every scroll position is at
    or below the 100 px threshold it does not touch [scroll-down] or
    [scroll-up] either, so a header hidden on the way down stays hidden
    when the page jumps back to the top. *)
Theorem header_classes_left_alone (events : list Z) (h : Header) (token : string) :
  token ≠ "scrolled" →
  (token ≠ "scroll-down" ∧ token ≠ "scroll-up")
  ∨ Forall (λ y, y ≤ scrollThreshold) events →
  token ∈ classList (scrolls events h) ↔ token ∈ classList h.
Proof.
  intros Hscrolled. revert h. unfold scrolls.
  induction events as [|y events IH]; intros h Hcase; cbn [foldl]; [done|].
  rewrite IH.
  - destruct Hcase as [[? ?]|Hall].
    + by apply onScroll_other_tokens.
    + apply onScroll_below_threshold; [|done]. by inversion Hall.
  - destruct Hcase as [?|Hall]; [by left|right]. by inversion Hall.
Qed.

(** The theorem for a header hidden at 500 px that jumps to the top. *)
Lemma header_classes_left_alone_witness :
  "scroll-down"
  ∈ classList (scrolls [0; 40; 100] (mkHeader {["header"; "scroll-down"]} 500)).
Proof.
  apply (header_classes_left_alone [0; 40; 100]
           (mkHeader {["header"; "scroll-down"]} 500) "scroll-down").
  - discriminate.
  - right. unfold scrollThreshold. repeat constructor; lia.
  - cbn. apply elem_of_union. right. by apply elem_of_singleton.
Defined.

End HeaderScrollMoreFacts.

(** ** Facts about the number counters *)

Module NumberCountersFacts.
Import NumberCounters.

Lemma onEntry_counted entry counters index stat :
  counters !! index = Some stat →
  "counted" ∈ classList stat →
  onEntry entry counters !! index = Some stat.
Proof.
  intros Hlookup Hcounted. unfold onEntry.
  destruct (decide (target entry = index)) as [->|Hne].
  - rewrite Hlookup.
    apply ClassListFacts.contains_true in Hcounted. rewrite Hcounted.
    by rewrite andb_false_r.
  - destruct (counters !! target entry) as [stat'|]; [|done].
    destruct (_ && _); [|done]. by rewrite list_lookup_insert_ne.
Qed.

Lemma observerCallback_counted entries : ∀ counters index stat,
  counters !! index = Some stat →
  "counted" ∈ classList stat →
  observerCallback entries counters !! index = Some stat.
Proof.
  unfold observerCallback.
  induction entries as [|entry entries IH]; intros counters index stat ? ?;
    cbn [foldl]; [done|].
  apply IH; [|done]. by apply onEntry_counted.
Qed.

(** The first intersecting entry of an element that is not counted yet
    starts its animation and marks it. *)
Lemma observerCallback_first entries : ∀ counters index stat,
  counters !! index = Some stat →
  "counted" ∉ classList stat →
  mkEntry index true ∈ entries →
  observerCallback entries counters !! index
  = Some (mkStat (ClassList.add "counted" (classList stat))
                 (Counter.animateCounter (element stat))).
Proof.
  induction entries as [|entry entries IH]; intros counters index stat Hl Hnc Hin.
  { by apply elem_of_nil in Hin. }
  change (observerCallback (entry :: entries) counters)
    with (observerCallback entries (onEntry entry counters)).
  destruct (decide (target entry = index ∧ isIntersecting entry = true))
    as [[Ht Hi]|Hother].
  - apply observerCallback_counted.
    + unfold onEntry. rewrite Ht, Hl, Hi.
      apply ClassListFacts.contains_false in Hnc. rewrite Hnc. cbn [negb andb].
      apply list_lookup_insert_eq. by apply lookup_lt_Some in Hl.
    + cbn. apply ClassListFacts.elem_of_add. by right.
  - apply IH; [|done|].
    + unfold onEntry.
      destruct (decide (target entry = index)) as [Ht|Hne].
      * rewrite Ht, Hl. destruct (isIntersecting entry); [|done].
        exfalso. by apply Hother.
      * destruct (counters !! target entry) as [stat'|]; [|done].
        destruct (_ && _); [|done]. by rewrite list_lookup_insert_ne.
    + apply elem_of_cons in Hin as [Heq|?]; [|done].
      exfalso. apply Hother. by rewrite <- Heq.
Qed.

Section Locale.

Variable toLocaleString : Counter.Number → Counter.jsstring.

Lemma onTick_lookup i counters index stat :
  counters !! index = Some stat →
  onTick toLocaleString i counters !! index
  = Some (if Nat.eqb i index
          then mkStat (classList stat)
                      (Counter.tick toLocaleString (element stat))
          else stat).
Proof.
  intros Hl. unfold onTick. destruct (Nat.eqb_spec i index) as [->|Hne].
  - rewrite Hl. apply list_lookup_insert_eq. by apply lookup_lt_Some in Hl.
  - destruct (counters !! i); [|done]. by rewrite list_lookup_insert_ne.
Qed.

(** A counted element is changed by its interval's ticks and by nothing
    else. *)
Lemma handleAll_counted events : ∀ counters index stat,
  counters !! index = Some stat →
  "counted" ∈ classList stat →
  handleAll toLocaleString events counters !! index
  = Some (mkStat (classList stat)
                 (Counter.ticks toLocaleString (ticksOf index events)
                                (element stat))).
Proof.
  induction events as [|event events IH]; intros counters index stat Hl Hc.
  { by destruct stat. }
  change (handleAll toLocaleString (event :: events) counters)
    with (handleAll toLocaleString events (handle toLocaleString event counters)).
  destruct event as [entries|i]; cbn [handle ticksOf].
  - apply IH; [|done]. by apply observerCallback_counted.
  - rewrite (IH _ index _ (onTick_lookup i counters index stat Hl)).
    + destruct (Nat.eqb i index); [|done]. cbn [classList element Nat.add].
      by rewrite CounterFacts.ticks_succ.
    + by destruct (Nat.eqb i index).
Qed.

End Locale.

(** X9: a counter's animation is started once.  When the observer first
    reports an element that is not yet marked [counted] as intersecting,
    [animateCounter] runs on it and it is marked; from then on, whatever
    the observer reports and however often, the element is changed only
    by the ticks of that one interval. *)
Theorem counter_animation_starts_once
    (toLocaleString : Counter.Number → Counter.jsstring)
    (entries : list Entry) (events : list Event)
    (counters : list Stat) (index : nat) (stat : Stat) :
  counters !! index = Some stat →
  "counted" ∉ classList stat →
  mkEntry index true ∈ entries →
  handleAll toLocaleString (Observed entries :: events) counters !! index
  = Some (mkStat (ClassList.add "counted" (classList stat))
                 (Counter.ticks toLocaleString (ticksOf index events)
                    (Counter.animateCounter (element stat)))).
Proof.
  intros Hl Hnc Hin.
  change (handleAll toLocaleString (Observed entries :: events) counters)
    with (handleAll toLocaleString events (observerCallback entries counters)).
  rewrite (handleAll_counted toLocaleString events _ index _
             (observerCallback_first entries counters index stat Hl Hnc Hin)).
  - done.
  - cbn. apply ClassListFacts.elem_of_add. by right.
Qed.

(** The theorem for one counter showing 5+, reported twice, ticking in
    between. *)
Lemma counter_animation_starts_once_witness :
  handleAll Counter.plainNumber
    [Observed [mkEntry 0 false; mkEntry 0 true; mkEntry 0 true];
     Tick 0; Observed [mkEntry 0 true]; Tick 0]
    [mkStat ∅ (Counter.mkElement [53; 43]%N None)] !! 0%nat
  = Some (mkStat (ClassList.add "counted" ∅)
                 (Counter.ticks Counter.plainNumber 2
                    (Counter.animateCounter
                       (Counter.mkElement [53; 43]%N None)))).
Proof.
  apply (counter_animation_starts_once Counter.plainNumber
           [mkEntry 0 false; mkEntry 0 true; mkEntry 0 true]
           [Tick 0; Observed [mkEntry 0 true]; Tick 0]
           [mkStat ∅ (Counter.mkElement [53; 43]%N None)] 0
           (mkStat ∅ (Counter.mkElement [53; 43]%N None))).
  - reflexivity.
  - cbn. apply not_elem_of_empty.
  - apply list_elem_of_further, list_elem_of_here.
Defined.

End NumberCountersFacts.

(** ** Facts about the mobile menu *)

Module MobileMenuFacts.
Import MobileMenu.

Lemma isOpen_true d : isOpen d = true ↔ "active" ∈ navClasses d.
Proof. apply ClassListFacts.contains_true. Qed.

Lemma isOpen_false d : isOpen d = false ↔ "active" ∉ navClasses d.
Proof. apply ClassListFacts.contains_false. Qed.

Lemma not_active_removed cl : "active" ∉ ClassList.remove "active" cl.
Proof. rewrite ClassListFacts.elem_of_remove. by intros [_ ?]. Qed.

Lemma active_added cl : "active" ∈ ClassList.add "active" cl.
Proof. rewrite ClassListFacts.elem_of_add. by right. Qed.

Lemma remove_add_absent token (cl : gset string) :
  token ∉ cl → ClassList.remove token (ClassList.add token cl) = cl.
Proof.
  intros Hnot. apply set_eq. intros token'.
  rewrite ClassListFacts.elem_of_remove, ClassListFacts.elem_of_add.
  split; [by intros [[?|?] ?]|]. intros Hin. split; [by left|].
  intros ->. by apply Hnot.
Qed.

(** Closing leaves a synced closed menu when at most one overlay was
    there. *)
Lemma Synced_close d :
  (overlays d ≤ 1)%nat → Synced (closeMobileMenu d) ∨ closeMobileMenu d = d.
Proof.
  intros Hov. unfold closeMobileMenu.
  destruct (negb (hasNav d) || negb (hasToggle d)); [by right|]. left.
  unfold Synced, removeOverlay; cbn.
  rewrite (proj2 (isOpen_false _)) by (cbn; apply not_active_removed).
  cbn. split; [apply not_active_removed|]. split; [done|lia].
Qed.

Lemma Synced_overlays d : Synced d → (overlays d ≤ 1)%nat.
Proof. unfold Synced. destruct (isOpen d); intros (_ & _ & H); [destruct H|]; lia. Qed.

Lemma Synced_closeMobileMenu d : Synced d → Synced (closeMobileMenu d).
Proof.
  intros Hs. destruct (Synced_close d (Synced_overlays d Hs)) as [?| ->]; done.
Qed.

Lemma Synced_openMobileMenu w d :
  Synced d → isOpen d = false → Synced (openMobileMenu w d).
Proof.
  unfold Synced. intros Hs Hclosed. rewrite Hclosed in Hs.
  destruct Hs as (Htoggle & Haria & Hov).
  unfold openMobileMenu.
  destruct (negb (hasNav d) || negb (hasToggle d)); [by rewrite Hclosed|].
  unfold createOverlay; cbn. rewrite Hov; cbn.
  rewrite (proj2 (isOpen_true _)) by (cbn; apply active_added).
  split; [apply active_added|done].
Qed.

Lemma Synced_handle event d : Synced d → Synced (handle event d).
Proof.
  intros Hs. destruct event as [w|inNav inToggle| |key|innerWidth|]; cbn [handle].
  - destruct (listening d); [|done]. destruct (isOpen d) eqn:Hopen.
    + by apply Synced_closeMobileMenu.
    + by apply Synced_openMobileMenu.
  - destruct (listening d); [|done]. unfold onDocumentClick.
    destruct (_ && _); [by apply Synced_closeMobileMenu|done].
  - destruct (overlays d); [done|].
    pose proof (Synced_closeMobileMenu d Hs).
    destruct (listening _); [|done]. unfold onDocumentClick.
    destruct (_ && _); [by apply Synced_closeMobileMenu|done].
  - destruct (_ && _); [by apply Synced_closeMobileMenu|done].
  - destruct (_ && _); [by apply Synced_closeMobileMenu|done].
  - by apply Synced_closeMobileMenu.
Qed.

(** X10: the markers of the mobile menu stay together.  From a page
    where they agree, after any sequence of toggle clicks, clicks
    elsewhere, overlay clicks, key presses, resizes and followed anchor
    links: either [#nav] and [#mobileToggle] both carry [active], the
    toggle says aria-expanded true, body scrolling is off and there is
    exactly one overlay; or neither carries [active], aria-expanded is
    not true and there is no overlay. *)
Theorem menu_markers_stay_in_sync (events : list Event) (d : Dom) :
  Synced d → Synced (handleAll events d).
Proof.
  revert d. unfold handleAll.
  induction events as [|event events IH]; intros d Hs; cbn [foldl]; [done|].
  by apply IH, Synced_handle.
Qed.

(** The theorem on a closed menu that is opened, clicked beside, opened
    again and resized to a desktop width. *)
Lemma menu_markers_stay_in_sync_witness :
  Synced
    (handleAll
       [ToggleClick 15; DocumentClick false false; ToggleClick 15; Resize 1280]
       (mkDom true true {["header__nav"]} ∅ None None
              (Literal "") (Literal "") 0)).
Proof.
  apply menu_markers_stay_in_sync.
  unfold Synced. cbn.
  assert (isOpen (mkDom true true {["header__nav"]} ∅ None None
                        (Literal "") (Literal "") 0) = false) as ->.
  { apply isOpen_false. cbn. intros Hin. apply elem_of_singleton in Hin.
    discriminate. }
  split; [apply not_elem_of_empty|]. split; [discriminate|reflexivity].
Defined.

(** X11: every closing event closes.  With both elements on the page,
    after Escape, a resize to more than 1023 px, a click outside the
    menu and the toggle, a followed anchor link, or a click on an
    existing overlay, [#nav] does not carry [active], whatever the
    menu's state was. *)
Theorem closing_events_close (event : Event) (d : Dom) :
  hasToggle d = true → hasNav d = true →
  closes event = true ∨ (event = OverlayClick ∧ (0 < overlays d)%nat) →
  isOpen (handle event d) = false.
Proof.
  intros Htoggle Hnav Hcloses.
  assert (isOpen (closeMobileMenu d) = false) as Hclosed.
  { unfold closeMobileMenu. rewrite Htoggle, Hnav. cbn.
    apply isOpen_false. cbn. apply not_active_removed. }
  assert (listening d = true) as Hl by (unfold listening; by rewrite Htoggle, Hnav).
  destruct Hcloses as [Hcloses | [-> Hov]].
  - destruct event as [w|inNav inToggle| |key|innerWidth|]; cbn in Hcloses;
      try done; cbn [handle]; rewrite ?Hl.
    + unfold onDocumentClick. apply andb_true_iff in Hcloses as [-> ->].
      rewrite !andb_true_r. by destruct (isOpen d) eqn:Hopen.
    + rewrite Hcloses. by destruct (isOpen d) eqn:Hopen.
    + rewrite Hcloses. by destruct (isOpen d) eqn:Hopen.
  - cbn [handle]. destruct (overlays d) eqn:Hovd; [lia|]. cbv zeta.
    destruct (listening (closeMobileMenu d)); [|exact Hclosed].
    unfold onDocumentClick. by rewrite Hclosed.
Qed.

Lemma closing_events_close_witness :
  isOpen (handle (KeyDown "Escape")
            (mkDom true true {["active"]} {["active"]}
                   (Some "x") (Some "true") (Literal "hidden") (Pixels 15) 1))
  = false.
Proof.
  exact (closing_events_close (KeyDown "Escape")
           (mkDom true true {["active"]} {["active"]}
                  (Some "x") (Some "true") (Literal "hidden") (Pixels 15) 1)
           eq_refl eq_refl (or_introl eq_refl)).
Defined.

(** X12: opening and closing again restores the menu but not the body's
    padding.  On a closed menu without overlay, [closeMobileMenu] after
    [openMobileMenu] gives back the classes of [#nav] and
    [#mobileToggle] and leaves no overlay; the toggle's ARIA attributes
    are those of a closed menu and body overflow is the empty string;
    but a positive scrollbar width that [openMobileMenu] wrote to
    padding-right is still there. *)
Theorem open_then_close_keeps_padding (w : Z) (d : Dom) :
  hasToggle d = true → hasNav d = true →
  "active" ∉ navClasses d → "active" ∉ toggleClasses d → overlays d = 0%nat →
  closeMobileMenu (openMobileMenu w d)
  = mkDom true true (navClasses d) (toggleClasses d)
          (Some "メニューを開く") (Some "false") (Literal "")
          (if 0 <? w then Pixels w else bodyPaddingRight d) 0.
Proof.
  intros Htoggle Hnav Hn Ht Hov.
  unfold closeMobileMenu, openMobileMenu, createOverlay, removeOverlay.
  rewrite Htoggle, Hnav, Hov. cbn.
  by rewrite !remove_add_absent.
Qed.

(** The theorem on a closed menu whose page shows a 15 px scrollbar. *)
Lemma open_then_close_keeps_padding_witness :
  closeMobileMenu
    (openMobileMenu 15
       (mkDom true true ∅ ∅ None None (Literal "") (Literal "") 0))
  = mkDom true true ∅ ∅ (Some "メニューを開く") (Some "false") (Literal "")
          (Pixels 15) 0.
Proof.
  exact (open_then_close_keeps_padding 15
           (mkDom true true ∅ ∅ None None (Literal "") (Literal "") 0)
           eq_refl eq_refl (not_elem_of_empty _) (not_elem_of_empty _) eq_refl).
Defined.

End MobileMenuFacts.

(** ** Facts about the active link and keyboard navigation *)

Module ActiveNavLinkFacts.
Import ActiveNavLink.

Lemma highlight_highlight a b link :
  highlight a (highlight b link) = highlight a link.
Proof.
  unfold highlight; cbn [href classList]. f_equal.
  assert (ClassList.remove "active"
            (if decide (href link = Some ("#" +:+ b))
             then ClassList.add "active" (ClassList.remove "active" (classList link))
             else ClassList.remove "active" (classList link))
          = ClassList.remove "active" (classList link)) as ->; [|done].
  apply set_eq. intros token. destruct (decide _);
    rewrite ?ClassListFacts.elem_of_remove, ?ClassListFacts.elem_of_add,
      ?ClassListFacts.elem_of_remove; tauto.
Qed.

Lemma highlight_highlight_all a b (links : list Link) :
  highlight a <$> (highlight b <$> links) = highlight a <$> links.
Proof.
  rewrite <- list_fmap_compose. apply list_fmap_ext.
  intros i link _. apply highlight_highlight.
Qed.

(** X13: the scroll listener of the navigation leaves the links as the
    last section that contains the scroll position (150 px below the
    top of the window) wants them: each link has lost [active] and got
    it back exactly if its href is [#] followed by that section's id;
    when no section contains the position the links are untouched. *)
Theorem nav_links_follow_last_covering_section
    (pageYOffset : Z) (sections : list Section_) (navLinks : list Link) :
  onScroll pageYOffset sections navLinks
  = match last (filter (λ s, covers (pageYOffset + 150) s = true) sections) with
    | Some section => highlight (id section) <$> navLinks
    | None => navLinks
    end.
Proof.
  unfold onScroll. cbv zeta.
  induction sections as [|section sections IH] using rev_ind; [done|].
  rewrite foldl_app, filter_app. cbn [foldl]. rewrite IH.
  rewrite filter_cons, filter_nil.
  destruct (decide (covers (pageYOffset + 150) section = true)) as [Hc|Hc].
  - rewrite Hc, last_snoc.
    destruct (last _); [apply highlight_highlight_all|done].
  - apply not_true_is_false in Hc. rewrite Hc. by rewrite app_nil_r.
Qed.

End ActiveNavLinkFacts.

Module KeyboardNavFacts.
Import KeyboardNav.

Lemma nextIndex_mod {A} (links : list A) index :
  (index < length links)%nat →
  nextIndex links index = ((index + 1) mod length links)%nat.
Proof.
  intros Hlt. unfold nextIndex.
  destruct (links !! (index + 1)%nat) eqn:Hl.
  - apply lookup_lt_Some in Hl. by rewrite Nat.mod_small.
  - apply lookup_ge_None in Hl.
    replace (index + 1)%nat with (length links) by lia.
    by rewrite Nat.Div0.mod_same.
Qed.

Lemma prevIndex_mod {A} (links : list A) index :
  (index < length links)%nat →
  prevIndex links index = ((index + (length links - 1)) mod length links)%nat.
Proof.
  intros Hlt. unfold prevIndex. destruct index as [|i].
  - rewrite Nat.mod_small; lia.
  - destruct (links !! i) eqn:Hl.
    + replace (S i + (length links - 1))%nat with (i + 1 * length links)%nat by lia.
      rewrite Nat.Div0.mod_add. rewrite Nat.mod_small; lia.
    + apply lookup_ge_None in Hl. lia.
Qed.

(** X14: the arrow keys walk the navigation links in a circle.  From
    the link at [index], ArrowRight or ArrowDown focuses the link at
    [index + 1], or the first after the last; ArrowLeft or ArrowUp the
    link at [index - 1], or the last before the first; the focus stays
    on a link, one key undoes the other, and any other key leaves the
    focus where it is. *)
Theorem arrow_keys_cycle_links
    {A} (links : list A) (index : nat) (key : string) :
  (index < length links)%nat →
  (onKeyDown links key index < length links)%nat
  ∧ onKeyDown links "ArrowRight" index = ((index + 1) mod length links)%nat
  ∧ onKeyDown links "ArrowDown" index = ((index + 1) mod length links)%nat
  ∧ onKeyDown links "ArrowLeft" index
    = ((index + (length links - 1)) mod length links)%nat
  ∧ onKeyDown links "ArrowUp" index
    = ((index + (length links - 1)) mod length links)%nat
  ∧ onKeyDown links "ArrowLeft" (onKeyDown links "ArrowRight" index) = index
  ∧ onKeyDown links "ArrowRight" (onKeyDown links "ArrowLeft" index) = index
  ∧ (key ≠ "ArrowRight" → key ≠ "ArrowDown" → key ≠ "ArrowLeft" →
     key ≠ "ArrowUp" → onKeyDown links key index = index).
Proof.
  intros Hlt.
  assert (length links ≠ 0)%nat as Hn by lia.
  assert (nextIndex links index < length links)%nat as Hnext
    by (rewrite nextIndex_mod by done; by apply Nat.mod_upper_bound).
  assert (prevIndex links index < length links)%nat as Hprev
    by (rewrite prevIndex_mod by done; by apply Nat.mod_upper_bound).
  change (onKeyDown links "ArrowRight") with (nextIndex links).
  change (onKeyDown links "ArrowDown") with (nextIndex links).
  change (onKeyDown links "ArrowLeft") with (prevIndex links).
  change (onKeyDown links "ArrowUp") with (prevIndex links).
  split; [|split; [|split; [|split; [|split; [|split; [|split]]]]]].
  - unfold onKeyDown. destruct (_ || _); [done|]. by destruct (_ || _).
  - by apply nextIndex_mod.
  - by apply nextIndex_mod.
  - by apply prevIndex_mod.
  - by apply prevIndex_mod.
  - unfold nextIndex in *. destruct (links !! (index + 1)%nat) eqn:Hl.
    + unfold prevIndex. replace (index + 1)%nat with (S index) by lia.
      destruct (links !! index) eqn:Hl'; [done|].
      apply lookup_ge_None in Hl'. lia.
    + apply lookup_ge_None in Hl. cbn. lia.
  - unfold prevIndex in *. destruct index as [|i].
    + unfold nextIndex.
      destruct (links !! (length links - 1 + 1)%nat) eqn:Hl; [|done].
      apply lookup_lt_Some in Hl. lia.
    + destruct (links !! i) eqn:Hl; [|apply lookup_ge_None in Hl; lia].
      unfold nextIndex. replace (i + 1)%nat with (S i) by lia.
      destruct (links !! S i) eqn:Hl'; [done|].
      apply lookup_ge_None in Hl'. lia.
  - intros ? ? ? ?. unfold onKeyDown.
    by rewrite !bool_decide_eq_false_2 by done.
Qed.

(** The theorem on four links with the focus on the last. *)
Lemma arrow_keys_cycle_links_witness :
  onKeyDown ["a"; "b"; "c"; "d"] "ArrowRight" 3 = ((3 + 1) mod 4)%nat.
Proof.
  assert (3 < length ["a"; "b"; "c"; "d"])%nat as Hlt by (cbn; lia).
  exact (proj1 (proj2 (arrow_keys_cycle_links ["a"; "b"; "c"; "d"] 3 "x" Hlt))).
Defined.

End KeyboardNavFacts.

(** ** Facts about the pricing tabs *)

Module PricingTabsFacts.
Import PricingTabs.

Lemma remove_remove token (cl : gset string) :
  ClassList.remove token (ClassList.remove token cl) = ClassList.remove token cl.
Proof.
  apply set_eq. intros token'. rewrite !ClassListFacts.elem_of_remove. tauto.
Qed.

(** Classes of the element at a position after [removeFromAll]. *)
Lemma removeFromAll_classes token positions : ∀ doc i token',
  hasClass token' (removeFromAll token positions doc) i
  ↔ hasClass token' doc i ∧ (i ∈ positions → token' ≠ token).
Proof.
  unfold removeFromAll, hasClass.
  induction positions as [|p positions IH]; intros doc i token'; cbn [foldl].
  { split; [intros ?; split; [done|]; by intros ?%elem_of_nil | by intros [? _]]. }
  rewrite IH. rewrite elem_of_cons.
  destruct (decide (p = i)) as [->|Hne].
  - rewrite list_lookup_alter_eq. split.
    + intros [(el & Hl & Hin) Hrest].
      destruct (doc !! i) as [el0|] eqn:Hd; [|done].
      injection Hl as <-. cbn in Hin.
      apply ClassListFacts.elem_of_remove in Hin as [Hin Htok].
      split; [by exists el0|]. by intros _.
    + intros [(el & Hl & Hin) Hrest]. split; [|by intros ?; apply Hrest; right].
      rewrite Hl. eexists. split; [done|]. cbn.
      apply ClassListFacts.elem_of_remove. split; [done|]. apply Hrest. by left.
  - rewrite list_lookup_alter_ne by done. split.
    + intros [? Hrest]. split; [done|]. intros [?|?]; [done|by apply Hrest].
    + intros [? Hrest]. split; [done|]. intros ?. apply Hrest. by right.
Qed.

Lemma alter_add_classes token p doc i token' :
  hasClass token' (alter (withClasses (ClassList.add token)) p doc) i
  ↔ hasClass token' doc i ∨ (i = p ∧ token' = token ∧ i < length doc)%nat.
Proof.
  unfold hasClass. destruct (decide (p = i)) as [->|Hne].
  - rewrite list_lookup_alter_eq. split.
    + intros (el & Hl & Hin).
      destruct (doc !! i) as [el0|] eqn:Hd; [|done].
      injection Hl as <-. cbn in Hin.
      apply ClassListFacts.elem_of_add in Hin as [Hin| ->].
      * left. by exists el0.
      * right. split; [done|]. split; [done|]. by apply lookup_lt_Some in Hd.
    + intros [(el & Hl & Hin) | (_ & -> & Hlt)].
      * rewrite Hl. eexists. split; [done|]. cbn.
        apply ClassListFacts.elem_of_add. by left.
      * apply lookup_lt_is_Some in Hlt as [el Hl]. rewrite Hl.
        eexists. split; [done|]. cbn. apply ClassListFacts.elem_of_add. by right.
  - rewrite list_lookup_alter_ne by done. split; [by left|].
    intros [?|(-> & _)]; done.
Qed.

Section Document.

Variable tabs : list nat.
Variable contents : list nat.
Variable querySelector : string → option nat.

(** Classes after the click listener ran. *)
Lemma onClick_classes tab doc el i token :
  doc !! tab = Some el →
  hasClass token (onClick tabs contents querySelector tab doc) i
  ↔ (hasClass token doc i
     ∧ (i ∈ tabs → token ≠ "pricing__tab--active")
     ∧ (i ∈ contents → token ≠ "pricing__content--active"))
    ∨ (i = tab ∧ token = "pricing__tab--active")
    ∨ (querySelector (selectorFor el) = Some i
       ∧ token = "pricing__content--active" ∧ (i < length doc)%nat).
Proof.
  intros Hl. unfold onClick. rewrite Hl.
  assert (∀ f p (d : list Element), length (alter f p d) = length d) as Hlen
    by (intros; apply length_alter).
  assert (∀ token ps (d : list Element),
            length (removeFromAll token ps d) = length d) as Hlen'.
  { intros t ps. unfold removeFromAll.
    induction ps as [|p ps IH]; intros d; cbn [foldl]; [done|].
    by rewrite IH, length_alter. }
  assert (tab < length doc)%nat as Htab by (by apply lookup_lt_Some in Hl).
  destruct (querySelector (selectorFor el)) as [target|].
  - rewrite !alter_add_classes, !removeFromAll_classes, Hlen, !Hlen'.
    split.
    + intros [[[[? ?] ?]|(-> & -> & _)]|(-> & -> & ?)].
      * by left.
      * right. by left.
      * right. right. done.
    + intros [(? & ? & ?)|[(-> & ->)|([= ->] & -> & ?)]].
      * left. by left.
      * left. right. done.
      * right. done.
  - rewrite !alter_add_classes, !removeFromAll_classes, !Hlen'.
    split.
    + intros [[[? ?] ?]|(-> & -> & _)]; [by left|right; by left].
    + intros [(? & ? & ?)|[(-> & ->)|([=] & _)]]; [by left|by right].
Qed.

Lemma click_tab_active tab doc el i :
  installed tabs contents = true →
  doc !! tab = Some el →
  i ∈ tabs →
  hasClass "pricing__tab--active" (click tabs contents querySelector tab doc) i
  ↔ i = tab.
Proof.
  intros Hinst Hl Hi. unfold click. rewrite Hinst.
  rewrite (onClick_classes tab doc el i _ Hl). split.
  - intros [(_ & Hno & _)|[[? _]|(_ & ? & _)]]; [by destruct (Hno Hi)|done|done].
  - intros ->. right. by left.
Qed.

(** X15: a click on a pricing tab leaves that tab the only active one.
    With the listeners installed, after a click on a tab: among the tabs
    exactly the clicked one carries [pricing__tab--active]; among the
    contents the one carrying [pricing__content--active] is the element
    that the selector built from the tab's [data-tab] finds, if it finds
    one, and no other; and no other class of any element changes. *)
Theorem click_activates_one_tab (tab : nat) (doc : list Element) (el : Element) :
  installed tabs contents = true →
  doc !! tab = Some el →
  let doc' := click tabs contents querySelector tab doc in
  (∀ i, i ∈ tabs → hasClass "pricing__tab--active" doc' i ↔ i = tab)
  ∧ (∀ i, i ∈ contents →
          hasClass "pricing__content--active" doc' i
          ↔ querySelector (selectorFor el) = Some i ∧ (i < length doc)%nat)
  ∧ (∀ i token,
       token ≠ "pricing__tab--active" → token ≠ "pricing__content--active" →
       hasClass token doc' i ↔ hasClass token doc i).
Proof.
  intros Hinst Hl doc'. subst doc'.
  split; [intros i Hi; by apply (click_tab_active tab doc el)|].
  unfold click. rewrite Hinst. split.
  - intros i Hi. rewrite (onClick_classes tab doc el i _ Hl). split.
    + intros [(_ & _ & Hno)|[[_ ?]|(? & _ & ?)]]; [by destruct (Hno Hi)|done|done].
    + intros [? ?]. right. by right.
  - intros i token ? ?. rewrite (onClick_classes tab doc el i _ Hl). split.
    + intros [(? & _)|[[_ ?]|(_ & ? & _)]]; done.
    + intros ?. left. done.
Qed.

(** X16: the arrow keys move the active pricing tab in a circle.  With
    the listeners installed and the tabs in the document, ArrowRight on
    the tab at [index] leaves as only active tab the one at [index + 1],
    the first after the last; ArrowLeft the one at [index - 1], the last
    before the first. *)
Theorem arrows_activate_neighbouring_tab (index : nat) (doc : list Element) :
  installed tabs contents = true →
  (index < length tabs)%nat →
  (∀ t, t ∈ tabs → t < length doc)%nat →
  (∀ i, i ∈ tabs →
        hasClass "pricing__tab--active"
                 (keyDown tabs contents querySelector "ArrowRight" index doc) i
        ↔ tabs !! ((index + 1) mod length tabs)%nat = Some i)
  ∧ (∀ i, i ∈ tabs →
          hasClass "pricing__tab--active"
                   (keyDown tabs contents querySelector "ArrowLeft" index doc) i
          ↔ tabs !! ((index + (length tabs - 1)) mod length tabs)%nat = Some i).
Proof.
  intros Hinst Hlt Hdoc.
  assert (length tabs ≠ 0)%nat as Hn by lia.
  unfold keyDown. rewrite Hinst.
  change (onKeyDown tabs contents querySelector "ArrowRight" index doc)
    with (match tabs !! KeyboardNav.nextIndex tabs index with
          | Some nextTab => click tabs contents querySelector nextTab doc
          | None => doc
          end).
  change (onKeyDown tabs contents querySelector "ArrowLeft" index doc)
    with (match tabs !! KeyboardNav.prevIndex tabs index with
          | Some prevTab => click tabs contents querySelector prevTab doc
          | None => doc
          end).
  rewrite KeyboardNavFacts.nextIndex_mod, KeyboardNavFacts.prevIndex_mod by done.
  split; intros i Hi.
  - destruct (lookup_lt_is_Some_2 tabs ((index + 1) mod length tabs)%nat)
      as [t Ht]; [by apply Nat.mod_upper_bound|].
    rewrite Ht.
    destruct (lookup_lt_is_Some_2 doc t) as [el Hel].
    { apply Hdoc. by apply list_elem_of_lookup_2 in Ht. }
    rewrite (click_tab_active t doc el i Hinst Hel Hi).
    split; [by intros ->|by intros [= ->]].
  - destruct (lookup_lt_is_Some_2 tabs
                ((index + (length tabs - 1)) mod length tabs)%nat)
      as [t Ht]; [by apply Nat.mod_upper_bound|].
    rewrite Ht.
    destruct (lookup_lt_is_Some_2 doc t) as [el Hel].
    { apply Hdoc. by apply list_elem_of_lookup_2 in Ht. }
    rewrite (click_tab_active t doc el i Hinst Hel Hi).
    split; [by intros ->|by intros [= ->]].
Qed.

End Document.

(** Two tabs, two contents, and a [querySelector] that knows the two
    selectors: a click on the second tab. *)
Lemma click_activates_one_tab_witness :
  let doc := [mkElement {["pricing__tab"; "pricing__tab--active"]} (Some "gym");
              mkElement {["pricing__tab"]} (Some "seitai");
              mkElement {["pricing__content"; "pricing__content--active"]} None;
              mkElement {["pricing__content"]} None] in
  let querySelector (selector : string) :=
    if bool_decide (selector = selectorFor (mkElement ∅ (Some "gym")))
    then Some 2%nat
    else if bool_decide (selector = selectorFor (mkElement ∅ (Some "seitai")))
         then Some 3%nat else None in
  hasClass "pricing__tab--active"
           (click [0; 1]%nat [2; 3]%nat querySelector 1 doc) 1
  ∧ ¬ hasClass "pricing__tab--active"
              (click [0; 1]%nat [2; 3]%nat querySelector 1 doc) 0.
Proof.
  intros doc querySelector.
  pose proof (proj1 (click_activates_one_tab [0; 1]%nat [2; 3]%nat
                       querySelector 1 doc
                       (mkElement {["pricing__tab"]} (Some "seitai"))
                       eq_refl eq_refl)) as Htabs.
  split.
  - apply Htabs; [|done]. apply list_elem_of_further, list_elem_of_here.
  - intros Hactive. apply Htabs in Hactive; [done|]. apply list_elem_of_here.
Defined.

(** ArrowRight on the last of two tabs comes round to the first. *)
Lemma arrows_activate_neighbouring_tab_witness :
  let doc := [mkElement {["pricing__tab"]} (Some "gym");
              mkElement {["pricing__tab"; "pricing__tab--active"]} (Some "seitai");
              mkElement {["pricing__content"]} None] in
  hasClass "pricing__tab--active"
           (keyDown [0; 1]%nat [2]%nat (λ _, None) "ArrowRight" 1 doc) 0.
Proof.
  intros doc.
  assert (∀ t, t ∈ [0; 1]%nat → t < length doc)%nat as Hdoc.
  { intros t [->|[->|Hin]%elem_of_cons]%elem_of_cons; cbn; try lia.
    by apply elem_of_nil in Hin. }
  assert (1 < length [0; 1]%nat)%nat as Hindex by (cbn; lia).
  apply (proj1 (arrows_activate_neighbouring_tab [0; 1]%nat [2]%nat (λ _, None)
                  1 doc eq_refl Hindex Hdoc)); [|done].
  apply list_elem_of_here.
Defined.

End PricingTabsFacts.

(** ** Facts about form error messages *)

Module FormErrorsFacts.
Import FormErrors.

Lemma isErrorMessage_new message :
  isErrorMessage (mkSibling {["error-message"]} message errorStyle) = true.
Proof.
  apply ClassListFacts.contains_true. cbn. by apply elem_of_singleton.
Qed.

Lemma isErrorMessage_text el message :
  isErrorMessage (mkSibling (classList el) message (style el))
  = isErrorMessage el.
Proof. done. Qed.

Lemma hideError_showError message siblings :
  hideError (showError message siblings) = hideError siblings.
Proof.
  destruct siblings as [|el rest]; cbn [showError hideError].
  - by rewrite isErrorMessage_new.
  - destruct (isErrorMessage el) eqn:Hel; cbn [hideError].
    + by rewrite (isErrorMessage_text el), Hel.
    + by rewrite isErrorMessage_new, ?Hel.
Qed.

Lemma messageRun_showError message siblings :
  messageRun (showError message siblings) = S (messageRun (hideError siblings)).
Proof.
  destruct siblings as [|el rest]; cbn [showError hideError messageRun].
  - by rewrite isErrorMessage_new.
  - destruct (isErrorMessage el) eqn:Hel; cbn [messageRun].
    + by rewrite (isErrorMessage_text el), Hel.
    + by rewrite isErrorMessage_new, ?Hel.
Qed.

Lemma messageRun_hideError siblings :
  messageRun (hideError siblings) = pred (messageRun siblings).
Proof.
  destruct siblings as [|el rest]; cbn [hideError messageRun]; [done|].
  destruct (isErrorMessage el) eqn:Hel; cbn [messageRun]; [done|].
  by rewrite Hel.
Qed.

(** X17: error messages do not pile up.  Showing a message and hiding it
    again leaves the siblings as hiding alone would; showing a second
    message overwrites the first; and after [showError] exactly one more
    message follows the input than after [hideError], which takes at
    most one away. *)
Theorem error_messages_do_not_pile_up
    (m1 m2 : string) (siblings : list Sibling) :
  hideError (showError m1 siblings) = hideError siblings
  ∧ showError m2 (showError m1 siblings) = showError m2 siblings
  ∧ messageRun (showError m1 siblings) = S (messageRun (hideError siblings))
  ∧ messageRun (hideError siblings) = pred (messageRun siblings).
Proof.
  split; [apply hideError_showError|].
  split; [|split; [apply messageRun_showError|apply messageRun_hideError]].
  destruct siblings as [|el rest]; cbn [showError].
  - by rewrite isErrorMessage_new.
  - destruct (isErrorMessage el) eqn:Hel; cbn [showError].
    + by rewrite (isErrorMessage_text el), Hel.
    + by rewrite isErrorMessage_new.
Qed.

End FormErrorsFacts.

(** ** Facts about the regular expressions *)

Module RegExpFacts.
Import RegExp.

Lemma Matches_nonempty p s : Matches p s → s ≠ [].
Proof.
  induction 1 as [| p q s t _ IHs _ _ | | p s t _ IHs _ _]; try done.
  - by destruct s.
  - by destruct s.
Qed.

Section Iterate.
Variable p : Pattern.
Hypothesis remainders_p : ∀ input rest,
  rest ∈ remainders p input ↔ ∃ pre, input = pre ++ rest ∧ Matches p pre.

Lemma iterate_sound fuel : ∀ starts rest,
  rest ∈ iterate (remainders p) fuel starts →
  ∃ start pre, start ∈ starts ∧ start = pre ++ rest ∧ Matches (Plus p) pre.
Proof.
  induction fuel as [|fuel IH]; intros starts rest; cbn [iterate].
  - by intros ?%elem_of_nil.
  - intros [Hin|Hin]%elem_of_app.
    + apply list_elem_of_bind in Hin as (start & Hin & Hstart).
      apply remainders_p in Hin as (pre & -> & Hpre).
      exists (pre ++ rest), pre. eauto using Matches_once.
    + apply IH in Hin as (mid & pre' & Hmid & -> & Hpre').
      apply list_elem_of_bind in Hmid as (start & Hmid & Hstart).
      apply remainders_p in Hmid as (pre & -> & Hpre).
      exists (pre ++ pre' ++ rest), (pre ++ pre'). split; [done|].
      split; [by rewrite <-app_assoc|]. by apply Matches_more.
Qed.

Lemma iterate_complete q pre :
  Matches q pre → q = Plus p → ∀ fuel starts rest,
  pre ++ rest ∈ starts → (length pre ≤ fuel)%nat →
  rest ∈ iterate (remainders p) fuel starts.
Proof.
  induction 1 as [| | p' s Hs _ | p' s t Hs _ Ht IHt]; try done;
    intros [= ->] fuel starts rest Hin Hlen.
  - pose proof (Matches_nonempty _ _ Hs).
    destruct fuel as [|fuel]; [destruct s; cbn in *; [done|lia]|].
    cbn [iterate]. apply elem_of_app. left.
    apply list_elem_of_bind. exists (s ++ rest). split; [|done].
    apply remainders_p. eauto.
  - pose proof (Matches_nonempty _ _ Hs).
    destruct fuel as [|fuel]; [destruct s; cbn in *; [done|lia]|].
    cbn [iterate]. apply elem_of_app. right.
    apply IHt; [done| |].
    + apply list_elem_of_bind. exists (s ++ t ++ rest).
      split; [|by rewrite app_assoc].
      apply remainders_p. eauto.
    + rewrite length_app in Hlen. destruct s; cbn in *; [done|lia].
Qed.

End Iterate.

(** The matcher computes the language of the pattern. *)
Lemma remainders_spec p : ∀ input rest,
  rest ∈ remainders p input ↔ ∃ pre, input = pre ++ rest ∧ Matches p pre.
Proof.
  induction p as [accepts | p IHp q IHq | p IHp]; intros input rest;
    cbn [remainders].
  - split.
    + destruct input as [|c input']; [by intros ?%elem_of_nil|].
      destruct (accepts c) eqn:Hc; [|by intros ?%elem_of_nil].
      intros ->%list_elem_of_singleton. exists [c].
      split; [done|by constructor].
    + intros (pre & -> & Hpre). inversion Hpre as [a c Hc| | |]; subst.
      cbn. rewrite Hc. by apply list_elem_of_singleton.
  - rewrite list_elem_of_bind. split.
    + intros (mid & Hrest & Hmid).
      apply IHq in Hrest as (t & -> & Ht).
      apply IHp in Hmid as (s & -> & Hs).
      exists (s ++ t). split; [by rewrite app_assoc|by constructor].
    + intros (pre & -> & Hpre). inversion Hpre as [|p' q' s t Hs Ht| |]; subst.
      exists (t ++ rest). split; [apply IHq; eauto|].
      apply IHp. exists s. by rewrite app_assoc.
  - split.
    + intros Hin. apply (iterate_sound p IHp) in Hin
        as (start & pre & ->%list_elem_of_singleton & -> & Hpre).
      eauto.
    + intros (pre & -> & Hpre).
      eapply (iterate_complete p IHp); [done|done| |].
      * by apply list_elem_of_singleton.
      * rewrite length_app. lia.
Qed.

Lemma test_spec p input : test p input = true ↔ Matches p input.
Proof.
  unfold test. rewrite bool_decide_eq_true, remainders_spec. split.
  - intros (pre & -> & Hpre). by rewrite app_nil_r.
  - intros Hm. exists input. by rewrite app_nil_r.
Qed.

(** One or more code units of a class. *)
Lemma Matches_plus_class accepts s :
  Matches (Plus (Class accepts)) s ↔ s ≠ [] ∧ Forall (λ c, accepts c = true) s.
Proof.
  split.
  - remember (Plus (Class accepts)) as q eqn:Hq.
    induction 1 as [| | p s Hs _ | p s t Hs _ Ht IHt]; try done;
      injection Hq as ->.
    + inversion Hs; subst. split; [done|]. by repeat constructor.
    + inversion Hs; subst. destruct (IHt eq_refl) as [_ IH].
      split; [done|]. by constructor.
  - intros [Hne Hall]. induction Hall as [|c s Hc Hall IH]; [done|].
    destruct s as [|c' s'].
    + apply Matches_once. by constructor.
    + apply (Matches_more _ [c]); [by constructor|]. by apply IH.
Qed.

Lemma trimStart_nil s :
  trimStart s = [] ↔ Forall (λ c, isWhiteSpace c = true) s.
Proof.
  induction s as [|c s IH]; cbn [trimStart]; [by split; [constructor|]|].
  destruct (isWhiteSpace c) eqn:Hc.
  - rewrite IH. split; [by constructor|]. by inversion 1.
  - split; [done|]. inversion 1; congruence.
Qed.

Lemma trimStart_idemp s : trimStart (trimStart s) = trimStart s.
Proof.
  induction s as [|c s IH]; cbn [trimStart]; [done|].
  destruct (isWhiteSpace c) eqn:Hc; [done|]. cbn [trimStart]. by rewrite Hc.
Qed.

(** A string trims to nothing exactly when it is all white space. *)
Lemma trim_nil s :
  trim s = [] ↔ Forall (λ c, isWhiteSpace c = true) s.
Proof.
  unfold trim. split.
  - intros H. apply (f_equal reverse) in H.
    rewrite reverse_involutive, reverse_nil in H.
    apply trimStart_nil, Forall_reverse in H.
    rewrite reverse_involutive in H.
    apply trimStart_nil in H. rewrite trimStart_idemp in H.
    by apply trimStart_nil.
  - intros H. apply trimStart_nil in H. by rewrite H.
Qed.

End RegExpFacts.

(** ** Facts about form validation *)

Module FormValidationFacts.
Import RegExp FormValidation.

Lemma Matches_seq_inv p q s :
  Matches (Seq p q) s ↔ ∃ s1 s2, s = s1 ++ s2 ∧ Matches p s1 ∧ Matches q s2.
Proof.
  split.
  - inversion 1; subst. eauto.
  - intros (s1 & s2 & -> & H1 & H2). by constructor.
Qed.

Lemma Matches_class_inv accepts s :
  Matches (Class accepts) s ↔ ∃ c, s = [c] ∧ accepts c = true.
Proof.
  split.
  - inversion 1; subst. eauto.
  - intros (c & -> & Hc). by constructor.
Qed.

(** The e-mail pattern, read part by part. *)
Lemma emailRegex_spec v :
  test emailRegex v = true ↔
  ∃ l d t, v = l ++ atSign :: d ++ fullStop :: t
    ∧ l ≠ [] ∧ d ≠ [] ∧ t ≠ []
    ∧ Forall (λ c, addressChar c = true) l
    ∧ Forall (λ c, addressChar c = true) d
    ∧ Forall (λ c, addressChar c = true) t.
Proof.
  rewrite RegExpFacts.test_spec. unfold emailRegex. split.
  - intros (l & r1 & -> & Hl & H1)%Matches_seq_inv.
    apply Matches_seq_inv in H1 as (a & r2 & -> & Ha & H2).
    apply Matches_seq_inv in H2 as (d & r3 & -> & Hd & H3).
    apply Matches_seq_inv in H3 as (f & t & -> & Hf & Ht).
    apply Matches_class_inv in Ha as (ca & -> & <-%N.eqb_eq).
    apply Matches_class_inv in Hf as (cf & -> & <-%N.eqb_eq).
    apply RegExpFacts.Matches_plus_class in Hl as [??], Hd as [??], Ht as [??].
    exists l, d, t. by repeat split.
  - intros (l & d & t & -> & Hl & Hd & Ht & Hal & Had & Hat).
    change (Matches
      (Seq (Plus (Class addressChar))
           (Seq (Class (N.eqb atSign))
                (Seq (Plus (Class addressChar))
                     (Seq (Class (N.eqb fullStop))
                          (Plus (Class addressChar))))))
      (l ++ [atSign] ++ d ++ [fullStop] ++ t)).
    repeat (apply Matches_seq);
      try (apply RegExpFacts.Matches_plus_class; by split);
      constructor; apply N.eqb_refl.
Qed.

Lemma phoneRegex_spec v :
  test phoneRegex v = true ↔ v ≠ [] ∧ Forall (λ c, phoneChar c = true) v.
Proof.
  rewrite RegExpFacts.test_spec. apply RegExpFacts.Matches_plus_class.
Qed.

Lemma isWhiteSpace_spec c :
  isWhiteSpace c = true ↔
  (9 ≤ c ≤ 13 ∨ c = 32 ∨ c = 160 ∨ c = 5760 ∨ 8192 ≤ c ≤ 8202 ∨ c = 8232
   ∨ c = 8233 ∨ c = 8239 ∨ c = 8287 ∨ c = 12288 ∨ c = 65279)%N.
Proof.
  unfold isWhiteSpace.
  rewrite !orb_true_iff, !andb_true_iff, !N.leb_le, !N.eqb_eq. tauto.
Qed.

Lemma phoneChar_spec c :
  phoneChar c = true ↔
  (48 ≤ c ≤ 57 ∨ c = 45 ∨ c = 43 ∨ c = 40 ∨ c = 41)%N.
Proof.
  unfold phoneChar, isDigit.
  rewrite !orb_true_iff, !andb_true_iff, !N.leb_le, !N.eqb_eq. tauto.
Qed.

Lemma addressChar_spec c :
  addressChar c = true ↔ isWhiteSpace c = false ∧ c ≠ atSign.
Proof.
  unfold addressChar.
  rewrite negb_true_iff, orb_false_iff, N.eqb_neq. tauto.
Qed.

Lemma whiteSpace_not_phoneChar c :
  isWhiteSpace c = true → phoneChar c = false.
Proof.
  intros Hc%isWhiteSpace_spec. apply not_true_iff_false.
  intros Hp%phoneChar_spec. lia.
Qed.

Lemma whiteSpace_not_addressChar c :
  isWhiteSpace c = true → addressChar c = false.
Proof.
  intros Hc. apply not_true_iff_false. intros [Hp _]%addressChar_spec.
  congruence.
Qed.

(** A value of white space only passes neither format check. *)
Lemma blank_fails_formats v :
  trim v = [] → v ≠ [] →
  test emailRegex v = false ∧ test phoneRegex v = false.
Proof.
  intros Hblank%RegExpFacts.trim_nil Hne.
  destruct v as [|c v]; [done|]. apply Forall_cons in Hblank as [Hc _].
  split; apply not_true_iff_false.
  - intros (l & d & t & Heq & Hl & _ & _ & Hal & _)%emailRegex_spec.
    destruct l as [|c' l]; [done|]. injection Heq as <- _.
    apply Forall_cons in Hal as [Hal _].
    apply whiteSpace_not_addressChar in Hc. congruence.
  - intros [_ [Hp _]%Forall_cons]%phoneRegex_spec.
    apply whiteSpace_not_phoneChar in Hc. congruence.
Qed.

(** X18: the e-mail check accepts exactly the values with one [@], no
    white space, something before the [@], and after it a dot that has
    something on both sides. *)
Theorem email_check_accepts (v : list CodeUnit) :
  test emailRegex v = true ↔
  ∃ l dom, v = l ++ atSign :: dom
    ∧ l ≠ [] ∧ (atSign ∉ l) ∧ (atSign ∉ dom)
    ∧ Forall (λ c, isWhiteSpace c = false) v
    ∧ ∃ i, dom !! i = Some fullStop ∧ (0 < i)%nat ∧ (S i < length dom)%nat.
Proof.
  assert (∀ s, Forall (λ c, addressChar c = true) s
               ↔ (atSign ∉ s) ∧ Forall (λ c, isWhiteSpace c = false) s) as Hchars.
  { intros s. rewrite !Forall_forall. split.
    - intros H. split.
      + intros Hin. by destruct (proj1 (addressChar_spec _) (H _ Hin)).
      + intros c Hin. by destruct (proj1 (addressChar_spec _) (H _ Hin)).
    - intros [Hat Hws] c Hin. apply addressChar_spec.
      split; [by apply Hws|]. by intros ->. }
  rewrite emailRegex_spec. split.
  - intros (l & d & t & -> & Hl & Hd & Ht & Hal & Had & Hat).
    apply Hchars in Hal as [??], Had as [??], Hat as [??].
    exists l, (d ++ fullStop :: t). repeat split; [done..| | |].
    + rewrite elem_of_app, elem_of_cons. unfold atSign, fullStop.
      intros [?|[?|?]]; done.
    + rewrite Forall_app, Forall_cons, Forall_app, Forall_cons. done.
    + exists (length d). rewrite list_lookup_middle by done.
      rewrite length_app. cbn. split; [done|].
      destruct d, t; cbn; try done; lia.
  - intros (l & dom & -> & Hl & Hatl & Hatd & Hws & i & Hi & Hpos & Hlen).
    apply Forall_app in Hws as [Hwsl [_ Hwsd]%Forall_cons].
    pose proof (take_drop_middle _ _ _ Hi) as Hdom.
    assert ((atSign ∉ take i dom) ∧ (atSign ∉ drop (S i) dom)) as [??].
    { rewrite <-Hdom in Hatd. rewrite elem_of_app, elem_of_cons in Hatd. tauto. }
    assert (Forall (λ c, isWhiteSpace c = false) (take i dom)
            ∧ Forall (λ c, isWhiteSpace c = false) (drop (S i) dom)) as [??].
    { rewrite <-Hdom in Hwsd. rewrite Forall_app, Forall_cons in Hwsd. tauto. }
    exists l, (take i dom), (drop (S i) dom). rewrite Hdom.
    repeat split; [done| | |by apply Hchars..].
    + intros Hnil%(f_equal length). rewrite length_take in Hnil. cbn in Hnil. lia.
    + intros Hnil%(f_equal length). rewrite length_drop in Hnil. cbn in Hnil. lia.
Qed.

(** X19: the phone check accepts exactly the non-empty values made of
    the digits [0] to [9] and the signs [-], [+], [(] and [)]; a value
    with white space in it is turned down. *)
Theorem phone_check_accepts (v : list CodeUnit) :
  (test phoneRegex v = true ↔
   v ≠ [] ∧ ∀ c, c ∈ v → (48 ≤ c ≤ 57 ∨ c = 45 ∨ c = 43 ∨ c = 40 ∨ c = 41)%N)
  ∧ (Exists (λ c, isWhiteSpace c = true) v → test phoneRegex v = false).
Proof.
  split.
  - rewrite phoneRegex_spec, Forall_forall.
    by setoid_rewrite phoneChar_spec.
  - intros (c & Hin & Hc)%Exists_exists. apply not_true_iff_false.
    intros [_ Hall]%phoneRegex_spec. rewrite Forall_forall in Hall.
    apply whiteSpace_not_phoneChar in Hc. specialize (Hall _ Hin). congruence.
Qed.

(** [validateInput], case by case. *)
Lemma validateInput_cases isValid input :
  validateInput isValid input =
  if acceptable input then (isValid, clearError input)
  else (false,
        if bool_decide (trim (value input) = [])
        then if bool_decide (value input = [])
                || negb (String.eqb (type_ input) "email"
                         || String.eqb (type_ input) "tel")
             then markInvalid requiredMessage input
             else markInvalid (complaint input)
                    (markInvalid requiredMessage input)
        else markInvalid (complaint input) (clearError input)).
Proof.
  unfold validateInput, acceptable, complaint, checkFormat.
  destruct input as [type v cl sibs].
  unfold markInvalid, clearError. cbn [type_ value classList siblings].
  pose proof (blank_fails_formats v) as Hformats.
  destruct (bool_decide (trim v = [])) eqn:Hblank;
    destruct (bool_decide (v = [])) eqn:Hv;
    destruct (String.eqb type "email") eqn:Hemail;
    destruct (String.eqb type "tel") eqn:Htel;
    destruct (test emailRegex v) eqn:HtestE;
    destruct (test phoneRegex v) eqn:HtestP;
    repeat (progress (cbn [type_ value classList siblings negb andb orb];
                      rewrite ?Hv, ?Hemail, ?Htel, ?HtestE, ?HtestP));
    try done; exfalso;
    try (apply String.eqb_eq in Hemail, Htel; congruence);
    try (apply bool_decide_eq_true in Hblank;
         apply bool_decide_eq_false in Hv;
         destruct (Hformats Hblank Hv); congruence);
    apply bool_decide_eq_false in Hblank; apply bool_decide_eq_true in Hv;
    by subst v.
Qed.

Lemma validateInput_accepts isValid input :
  acceptable input = true →
  validateInput isValid input = (isValid, clearError input).
Proof. intros H. by rewrite validateInput_cases, H. Qed.

Lemma validateInput_rejects isValid input :
  acceptable input = false →
  ∃ prev, validateInput isValid input
          = (false, markInvalid (complaint input) prev)
    ∧ (FormErrors.messageRun (siblings prev)
       ≤ Nat.max 1 (FormErrors.messageRun (siblings input)))%nat.
Proof.
  intros H. rewrite validateInput_cases, H.
  pose proof (FormErrorsFacts.messageRun_showError requiredMessage
                (siblings input)) as Hshow.
  pose proof (FormErrorsFacts.messageRun_hideError (siblings input)) as Hhide.
  destruct (bool_decide (trim (value input) = [])).
  - destruct (_ || _) eqn:Hplain.
    + exists input. split; [|lia].
      f_equal. f_equal. unfold complaint.
      apply orb_true_iff in Hplain as [->| [-> ->]%negb_true_iff%orb_false_iff];
        [by rewrite !andb_false_r|done].
    + exists (markInvalid requiredMessage input). split; [done|].
      cbn [markInvalid siblings]. lia.
  - exists (clearError input). split; [done|].
    cbn [clearError siblings]. lia.
Qed.

(** What validation does to one input does not depend on the verdict so
    far, and the verdict only goes down on an input that is not
    acceptable. *)
Lemma validateInput_verdict isValid input :
  validateInput isValid input
  = (isValid && acceptable input, (validateInput true input).2).
Proof.
  rewrite !validateInput_cases.
  destruct (acceptable input); cbn [snd];
    by rewrite ?andb_true_r, ?andb_false_r.
Qed.

Lemma onSubmit_verdict isValid inputs :
  onSubmit isValid inputs
  = (isValid && forallb acceptable inputs,
     (λ input, (validateInput true input).2) <$> inputs).
Proof.
  revert isValid. induction inputs as [|input rest IH]; intros isValid;
    cbn [onSubmit forallb fmap list_fmap].
  - by rewrite andb_true_r.
  - rewrite validateInput_verdict, IH. by rewrite andb_assoc.
Qed.

Lemma error_class_validated input :
  "error" ∈ classList (validateInput true input).2 ↔ acceptable input = false.
Proof.
  destruct (acceptable input) eqn:H.
  - rewrite validateInput_accepts by done. cbn.
    rewrite ClassListFacts.elem_of_remove. split; [tauto|done].
  - destruct (validateInput_rejects true input H) as (prev & -> & _).
    cbn. rewrite ClassListFacts.elem_of_add. tauto.
Qed.

Lemma Marked_validated input :
  (FormErrors.messageRun (siblings input) ≤ 1)%nat →
  Marked (validateInput true input).2.
Proof.
  intros Hrun. unfold Marked. destruct (acceptable input) eqn:H.
  - rewrite validateInput_accepts by done. cbn [snd clearError siblings classList].
    rewrite FormErrorsFacts.messageRun_hideError, ClassListFacts.elem_of_remove.
    split; [lia|]. split; [tauto|lia].
  - destruct (validateInput_rejects true input H) as (prev & -> & Hprev).
    cbn [snd markInvalid siblings classList].
    rewrite FormErrorsFacts.messageRun_showError,
      FormErrorsFacts.messageRun_hideError, ClassListFacts.elem_of_add.
    split; [lia|]. split; [lia|tauto].
Qed.

Lemma Marked_edited newValue input :
  Marked input → Marked (onInput (setValue newValue input)).
Proof.
  intros [Hrun _]. unfold Marked.
  cbn [onInput setValue clearError siblings classList].
  rewrite FormErrorsFacts.messageRun_hideError, ClassListFacts.elem_of_remove.
  split; [lia|]. split; [tauto|lia].
Qed.

Lemma Marked_handle inputs e :
  Forall Marked inputs → Forall Marked (handle inputs e).
Proof.
  intros Hall. destruct e as [|index newValue]; cbn [handle].
  - rewrite onSubmit_verdict. cbn [snd]. apply Forall_fmap.
    eapply Forall_impl; [done|]. intros input [Hrun _]. cbn.
    by apply Marked_validated.
  - apply Forall_alter; [done|]. intros input _. apply Marked_edited.
Qed.

(** X20: the marks of a form stay consistent.  From inputs that each
    carry [error] exactly if one error message follows them, whatever
    submissions and edits come, each input still has at most one message
    next to it, and has it exactly if it carries [error]. *)
Theorem form_marks_stay_consistent
    (inputs : list Input) (events : list Event) :
  Forall Marked inputs → Forall Marked (handleAll inputs events).
Proof.
  unfold handleAll. revert inputs.
  induction events as [|e events IH]; intros inputs Hall; cbn [foldl]; [done|].
  by apply IH, Marked_handle.
Qed.

(** X21: the verdict of a submission is what the marks show.  The
    listener ends with [isValid] exactly if every required input is
    acceptable, and exactly if it leaves no input with the class
    [error], whatever classes the inputs had before; an edit of a field
    then takes its mark off. *)
Theorem submit_verdict_matches_marks (inputs : list Input) :
  (onSubmit true inputs).1 = forallb acceptable inputs
  ∧ ((onSubmit true inputs).1 = true
     ↔ ∀ input, input ∈ (onSubmit true inputs).2 → "error" ∉ classList input)
  ∧ ∀ index newValue input,
      handle (onSubmit true inputs).2 (Edit index newValue) !! index
        = Some input →
      ("error" ∉ classList input) ∧ value input = newValue.
Proof.
  rewrite onSubmit_verdict. cbn [fst snd andb]. split; [done|]. split.
  - rewrite forallb_forall. setoid_rewrite <-list_elem_of_In.
    split.
    + intros Hall input' (input & -> & Hin)%list_elem_of_fmap.
      rewrite error_class_validated, (Hall _ Hin). done.
    + intros Hall input Hin. apply not_false_iff_true.
      intros Hbad%error_class_validated. eapply Hall; [|done].
      apply list_elem_of_fmap. eauto.
  - intros index newValue input. cbn [handle].
    destruct (((λ input0, (validateInput true input0).2) <$> inputs) !! index)
      as [before|] eqn:Hbefore.
    + erewrite list_lookup_alter_eq, Hbefore. cbn. intros [= <-]. cbn.
      rewrite ClassListFacts.elem_of_remove. split; [tauto|done].
    + rewrite list_lookup_alter_eq, Hbefore. done.
Qed.

Lemma shownMessage_markInvalid message prev :
  shownMessage (markInvalid message prev) = Some message.
Proof.
  unfold shownMessage. cbn [markInvalid siblings].
  destruct (siblings prev) as [|el rest]; cbn [FormErrors.showError].
  - by rewrite FormErrorsFacts.isErrorMessage_new.
  - destruct (FormErrors.isErrorMessage el) eqn:Hel.
    + by rewrite (FormErrorsFacts.isErrorMessage_text el), Hel.
    + by rewrite FormErrorsFacts.isErrorMessage_new.
Qed.

(** X22: the message names the fault.  After validation an acceptable
    input has no message next to it (given it had at most one), and an
    input turned down shows one message: for a non-empty [tel] or
    [email] value the format message, even when the value is blank, and
    otherwise the message for a required field. *)
Theorem shown_message_names_the_fault (isValid : bool) (input : Input) :
  (FormErrors.messageRun (siblings input) ≤ 1)%nat →
  shownMessage (validateInput isValid input).2
  = if acceptable input then None else Some (complaint input).
Proof.
  intros Hrun. destruct (acceptable input) eqn:H.
  - rewrite validateInput_accepts by done.
    unfold shownMessage. cbn [snd clearError siblings].
    pose proof (FormErrorsFacts.messageRun_hideError (siblings input)) as Hhide.
    destruct (FormErrors.hideError (siblings input)) as [|el rest]; [done|].
    cbn [FormErrors.messageRun] in Hhide.
    destruct (FormErrors.isErrorMessage el); [lia|done].
  - destruct (validateInput_rejects isValid input H) as (prev & -> & _).
    apply shownMessage_markInvalid.
Qed.

(** A form with an empty e-mail field and a phone number, submitted,
    edited and submitted again. *)
Lemma form_marks_stay_consistent_witness :
  Forall Marked
    (handleAll [mkInput "email" [] ∅ []; mkInput "tel" [48; 57]%N ∅ []]
               [Submit; Edit 0 [97; 64; 98; 46; 99]%N; Submit]).
Proof.
  apply form_marks_stay_consistent.
  repeat constructor; cbn; try lia; by intros ?%elem_of_empty.
Defined.

(** An [email] field holding two spaces. *)
Lemma shown_message_names_the_fault_witness :
  shownMessage (validateInput true (mkInput "email" [32; 32]%N ∅ [])).2
  = Some emailMessage.
Proof.
  apply (shown_message_names_the_fault true (mkInput "email" [32; 32]%N ∅ [])).
  cbn. lia.
Defined.

End FormValidationFacts.

(** ** Facts about external links *)

Module ExternalLinksFacts.
Import ExternalLinks.

Lemma append_cons a s t : (String a s ++ t)%string = String a (s ++ t)%string.
Proof. done. Qed.

Lemma prefix_spec needle haystack :
  String.prefix needle haystack = true
  ↔ ∃ post, haystack = (needle ++ post)%string.
Proof.
  revert needle. induction haystack as [|b haystack IH];
    intros [|a needle]; cbn [String.prefix].
  - split; [by exists EmptyString|done].
  - split; [done|by intros [? ?]].
  - split; [by exists (String b haystack)|done].
  - setoid_rewrite append_cons.
    destruct (Ascii.ascii_dec a b) as [->|Hne].
    + rewrite IH. split; intros [post Hpost]; exists post; congruence.
    + split; [done|]. intros [post [= ??]]. congruence.
Qed.

(** [includes] finds the needle wherever it occurs. *)
Lemma includes_spec haystack needle :
  includes haystack needle = true
  ↔ ∃ pre post, haystack = (pre ++ needle ++ post)%string.
Proof.
  induction haystack as [|a haystack IH]; cbn [includes];
    rewrite orb_true_iff, prefix_spec.
  - split.
    + intros [[post ->]|?]; [by exists EmptyString, post|done].
    + intros (pre & post & Heq). left. exists post.
      destruct pre; [done|discriminate].
  - rewrite IH. split.
    + intros [[post ->]|(pre & post & ->)]; [by exists EmptyString, post|].
      by exists (String a pre), post.
    + intros ([|b pre] & post & Heq); [left; by exists post|].
      right. rewrite append_cons in Heq. injection Heq as -> ->.
      by exists pre, post.
Qed.

Lemma markExternal_idemp hostname link :
  markExternal hostname (markExternal hostname link)
  = markExternal hostname link.
Proof.
  unfold markExternal.
  destruct (includes (href link) hostname) eqn:Hin; cbn [negb href];
    rewrite Hin; cbn [negb classList icons]; [done|].
  f_equal.
  destruct (icons link) as [|n]; cbn [Nat.eqb andb]; [|done].
  by destruct (ClassList.contains "btn" (classList link)).
Qed.

(** X23: external links are marked once.  Running [initExternalLinks] a
    second time changes nothing; a link whose [href] has the host name
    anywhere in it is left as it was, so with an empty host name no link
    is marked; and a link gets at most one icon, none if it has one
    already or carries the class [btn]. *)
Theorem external_links_marked_once (hostname : string) (links : list Link) :
  initExternalLinks hostname (initExternalLinks hostname links)
  = initExternalLinks hostname links
  ∧ (∀ link, link ∈ links →
       (∃ pre post, href link = (pre ++ hostname ++ post)%string) →
       markExternal hostname link = link)
  ∧ (hostname = EmptyString → initExternalLinks hostname links = links)
  ∧ Forall2 (λ before after,
       (icons before ≤ icons after ≤ Nat.max 1 (icons before))%nat
       ∧ (ClassList.contains "btn" (classList before) = true →
          icons after = icons before))
     links (initExternalLinks hostname links).
Proof.
  unfold initExternalLinks. repeat split.
  - rewrite <-list_fmap_compose. apply list_fmap_ext.
    intros _ link _. apply markExternal_idemp.
  - intros link _ Hin%includes_spec. unfold markExternal. by rewrite Hin.
  - intros ->. rewrite <-(list_fmap_id links) at 2. apply list_fmap_ext.
    intros _ link _. unfold markExternal.
    assert (includes (href link) EmptyString = true) as ->; [|done].
    apply includes_spec. by exists EmptyString, (href link).
  - apply Forall2_fmap_r, Forall_Forall2_diag, Forall_forall.
    intros link _. unfold markExternal, compose. cbv beta.
    destruct (includes (href link) hostname); cbn [negb icons]; [split; [lia|done]|].
    destruct (icons link) as [|n]; cbn [Nat.eqb andb];
      destruct (ClassList.contains "btn" (classList link));
      cbn [negb]; split; try lia; done.
Qed.

End ExternalLinksFacts.

(** ** Facts about scroll animations *)

Module ScrollAnimationsFacts.
Import ScrollAnimations.

Lemma onEntry_lookup elements entry i cl :
  elements !! i = Some cl →
  ∃ cl', onEntry elements entry !! i = Some cl'
    ∧ ∀ token, token ∈ cl' ↔
        token ∈ cl
        ∨ (token = "animate" ∧ target entry = i ∧ isIntersecting entry = true).
Proof.
  intros Hi. unfold onEntry. destruct (isIntersecting entry).
  - destruct (decide (target entry = i)) as [->|Hne].
    + exists (ClassList.add "animate" cl). split.
      * by rewrite list_lookup_alter_eq, Hi.
      * intros token. rewrite ClassListFacts.elem_of_add. tauto.
    + exists cl. split; [by rewrite list_lookup_alter_ne|].
      intros token. tauto.
  - exists cl. split; [done|]. intros token. intuition congruence.
Qed.

Lemma handleIntersection_lookup entries : ∀ elements i cl,
  elements !! i = Some cl →
  ∃ cl', handleIntersection entries elements !! i = Some cl'
    ∧ ∀ token, token ∈ cl' ↔
        token ∈ cl
        ∨ (token = "animate"
           ∧ ∃ entry, entry ∈ entries
               ∧ target entry = i ∧ isIntersecting entry = true).
Proof.
  unfold handleIntersection.
  induction entries as [|entry entries IH]; intros elements i cl Hi;
    cbn [foldl].
  - exists cl. split; [done|]. intros token. split; [tauto|].
    intros [?|(_ & entry & []%elem_of_nil & _)]. done.
  - destruct (onEntry_lookup elements entry i cl Hi) as (cl1 & H1 & Hcl1).
    destruct (IH _ _ _ H1) as (cl' & H' & Hcl'). exists cl'. split; [done|].
    intros token. rewrite Hcl', Hcl1. split.
    + intros [[?|(? & ? & ?)]|(? & e & ? & ?)]; [tauto| |].
      * right. split; [done|]. exists entry. split; [apply list_elem_of_here|done].
      * right. split; [done|]. exists e. split; [by apply list_elem_of_further|done].
    + intros [?|(? & e & [->|?]%elem_of_cons & ?)]; [tauto|tauto|].
      right. eauto.
Qed.

(** X24: an element stays animated.  After any run of observer
    callbacks an animated element carries [animate] exactly if it did
    before or some entry reported it intersecting; leaving the viewport
    never takes the class away, and no other class changes. *)
Theorem animate_marker_is_permanent
    (batches : list (list Entry)) (elements : list (gset string))
    (i : nat) (cl : gset string) :
  elements !! i = Some cl →
  ∃ cl', observe batches elements !! i = Some cl'
    ∧ ∀ token, token ∈ cl' ↔
        token ∈ cl
        ∨ (token = "animate"
           ∧ ∃ entries entry, entries ∈ batches ∧ entry ∈ entries
               ∧ target entry = i ∧ isIntersecting entry = true).
Proof.
  unfold observe. revert elements cl.
  induction batches as [|entries batches IH]; intros elements cl Hi;
    cbn [foldl].
  - exists cl. split; [done|]. intros token. split; [tauto|].
    intros [?|(_ & entries & entry & []%elem_of_nil & _)]. done.
  - destruct (handleIntersection_lookup entries elements i cl Hi)
      as (cl1 & H1 & Hcl1).
    destruct (IH _ _ H1) as (cl' & H' & Hcl'). exists cl'. split; [done|].
    intros token. rewrite Hcl', Hcl1. split.
    + intros [[?|(? & e & ? & ?)]|(? & es & e & ? & ?)]; [tauto| |].
      * right. split; [done|]. exists entries, e.
        split; [apply list_elem_of_here|done].
      * right. split; [done|]. exists es, e.
        split; [by apply list_elem_of_further|done].
    + intros [?|(? & es & e & [->|?]%elem_of_cons & ?)]; [tauto| |].
      * left. right. eauto.
      * right. eauto 6.
Qed.

Lemma animate_marker_is_permanent_witness :
  ∃ cl', observe [[mkEntry 0 true]; [mkEntry 0 false]] [{["fade-in"]}] !! 0%nat
         = Some cl'
    ∧ ∀ token, token ∈ cl' ↔
        token ∈ ({["fade-in"]} : gset string)
        ∨ (token = "animate"
           ∧ ∃ entries entry,
               entries ∈ [[mkEntry 0 true]; [mkEntry 0 false]]
               ∧ entry ∈ entries
               ∧ target entry = 0%nat ∧ isIntersecting entry = true).
Proof.
  apply (animate_marker_is_permanent
           [[mkEntry 0 true]; [mkEntry 0 false]] [{["fade-in"]}] 0).
  reflexivity.
Defined.

End ScrollAnimationsFacts.
